(** * gh-sync: the branch reconciliation engine

    A shallow embedding of [main.go] (the driver [sync] and the squash-merge
    detector [isSquashMerged]) and of package [internal/git] ([git.go] and the
    [Range] type), followed by the properties of the reconciliation engine.

    The [git] executable is the only thing outside the program.  It is a
    parameter [git_proc] of the whole development: a function from the
    argument vector and the repository state to the finished process and the
    new repository state.  Every function of package [git] reaches it through
    [execGit], [Spawn] or [Run], exactly as in the source. *)

From stdpp Require Import base strings gmap list relations.
From Stdlib Require Import Ascii String Lia.

Local Open Scope string_scope.
Local Open Scope stdpp_scope.
Local Open Scope list_scope.

(** ** Go values *)

(** A Go [error]: its [Error()] text and the error it wraps, if any. *)
Inductive error : Type :=
  | plainError (text : string)
  | wrapError (text : string) (wrapped : error).

Definition Error (e : error) : string :=
  match e with plainError t => t | wrapError t _ => t end.

Definition Unwrap (e : error) : option error :=
  match e with plainError _ => None | wrapError _ u => Some u end.

(** [errors.New(msg)] and [fmt.Errorf(msg)] without a [%w] verb. *)
Definition errors_New (msg : string) : error := plainError msg.

(** [fmt.Errorf(prefix + "%w", err)]. *)
Definition Errorf_w (prefix : string) (err : error) : error :=
  wrapError (prefix +:+ Error err) err.

(** A Go pair [(T, error)]: on failure the callers in this program never
    look at the value, so only the error is kept. *)
Inductive result (A : Type) : Type :=
  | Ok (a : A)
  | Err (e : error).
Arguments Ok {A} a.
Arguments Err {A} e.

(** ** Package strings *)

Definition newline : ascii := "010"%char.

Fixpoint in_cutset (c : ascii) (cutset : string) : bool :=
  match cutset with
  | EmptyString => false
  | String d rest => Ascii.eqb c d || in_cutset c rest
  end.

(** [strings.TrimRight(s, cutset)]: drop every trailing byte of [cutset]. *)
Fixpoint TrimRight (s cutset : string) : string :=
  match s with
  | EmptyString => EmptyString
  | String c r =>
      match TrimRight r cutset with
      | EmptyString => if in_cutset c cutset then EmptyString else String c EmptyString
      | r' => String c r'
      end
  end.

(** [strings.Split(s, sep)] for a one-byte separator. *)
Fixpoint Split (s : string) (sep : ascii) : list string :=
  match s with
  | EmptyString => [EmptyString]
  | String c r =>
      if Ascii.eqb c sep then EmptyString :: Split r sep
      else match Split r sep with
           | x :: xs => String c x :: xs
           | [] => [String c EmptyString]
           end
  end.

(** [strings.HasPrefix(s, prefix)]. *)
Definition HasPrefix (s pre : string) : bool := String.prefix pre s.

(** [s[n:]] for [n <= len(s)]. *)
Fixpoint drop_bytes (n : nat) (s : string) : string :=
  match n, s with
  | O, _ => s
  | S n', String _ r => drop_bytes n' r
  | S _, EmptyString => EmptyString
  end.

(** [strings.TrimPrefix(s, prefix)]. *)
Definition TrimPrefix (s pre : string) : string :=
  if HasPrefix s pre then drop_bytes (String.length pre) s else s.

(** [s[:7]]; Go panics when the string is shorter. *)
Definition first7 (s : string) : option string :=
  if decide (7 <= String.length s) then Some (String.substring 0 7 s) else None.

(** ** The process boundary *)

(** What [exec.Cmd] reports when the process is over: the bytes written to
    standard output and the error of [cmd.Run], [None] for exit status 0. *)
Record completed : Type := Completed {
  stdout : string;
  status : option error
}.

Section Program.

Context {S : Type}.
(** The [git] executable, run in the current directory. *)
Variable git_proc : list string -> S -> completed * S.

(** The world the program runs in: the repository behind [git], the argument
    vectors handed to [exec.Command] so far (what [logCmd] echoes under
    [--verbose]), and the text written to the two writers given to [sync]. *)
Record world : Type := World {
  backend : S;
  calls : list (list string);
  out : list string;
  errout : list string
}.

Definition M (A : Type) : Type := world -> A * world.

Definition ret {A} (a : A) : M A := fun w => (a, w).

Definition bind {A B} (m : M A) (k : A -> M B) : M B :=
  fun w => let '(a, w') := m w in k a w'.

Notation "x <- m ;; k" := (bind m (fun x => k))
  (at level 90, m at next level, right associativity).
Notation "m ;;; k" := (bind m (fun _ => k))
  (at level 90, right associativity).

(** [exec.Command("git", args...)] followed by running it to the end. *)
Definition exec_Command (args : list string) : M completed :=
  fun w =>
    let '(c, s') := git_proc args (backend w) in
    (c, {| backend := s'; calls := calls w ++ [args];
           out := out w; errout := errout w |}).

(** [fmt.Fprintf(stdout, ...)] and [fmt.Fprintf(stderr, ...)] of [sync]. *)
Definition Fprintf_stdout (line : string) : M unit :=
  fun w => (tt, {| backend := backend w; calls := calls w;
                   out := out w ++ [line]; errout := errout w |}).

Definition Fprintf_stderr (line : string) : M unit :=
  fun w => (tt, {| backend := backend w; calls := calls w;
                   out := out w; errout := errout w ++ [line] |}).

(** ** Package git (git.go) *)

Definition execGit (args : list string) : M (result string) :=
  c <- exec_Command args ;;
  match status c with
  | Some err => ret (Err err)
  | None => ret (Ok (TrimRight (stdout c) (String newline EmptyString)))
  end.

Definition Spawn (args : list string) : M (option error) :=
  c <- exec_Command args ;;
  ret (status c).

Definition Run (args : list string) : M bool :=
  c <- exec_Command args ;;
  ret (match status c with None => true | Some _ => false end).

Definition splitLines (s : string) : list string :=
  if decide (s = "") then [] else Split s newline.

(** [known[candidate]] on a [map[string]bool]: a missing key reads [false]. *)
Definition known_at (known : gmap string bool) (name : string) : bool :=
  default false (known !! name).

Definition MainRemote : M (result string) :=
  r <- execGit ["remote"] ;;
  match r with
  | Err err => ret (Err (Errorf_w "failed to list remotes: " err))
  | Ok o =>
      let remotes := splitLines o in
      match remotes with
      | [] => ret (Err (errors_New "no git remotes found"))
      | first :: _ =>
          let known := foldl (fun k name => <[name := true]> k) ∅ remotes in
          match List.find (known_at known) ["upstream"; "github"; "origin"] with
          | Some candidate => ret (Ok candidate)
          | None => ret (Ok first)
          end
      end
  end.

Definition HasRef (ref : string) : M bool :=
  Run ["show-ref"; "--verify"; "--quiet"; ref].

Definition DefaultBranch (remote : string) : M string :=
  let headRef := "refs/remotes/" +:+ remote +:+ "/HEAD" in
  r <- execGit ["symbolic-ref"; "--quiet"; headRef] ;;
  match r with
  | Ok o => ret (TrimPrefix o ("refs/remotes/" +:+ remote +:+ "/"))
  | Err _ =>
      m <- HasRef ("refs/remotes/" +:+ remote +:+ "/main") ;;
      if m then ret "main"
      else
        m' <- HasRef ("refs/remotes/" +:+ remote +:+ "/master") ;;
        if m' then ret "master" else ret "main"
  end.

Definition CurrentBranch : M (result string) :=
  r <- execGit ["symbolic-ref"; "--short"; "HEAD"] ;;
  match r with
  | Err _ => ret (Err (errors_New "not on any branch"))
  | Ok o => ret (Ok o)
  end.

Definition LocalBranches : M (result (list string)) :=
  r <- execGit ["branch"; "--format=%(refname:short)"] ;;
  match r with
  | Err err => ret (Err (Errorf_w "failed to list branches: " err))
  | Ok o => ret (Ok (splitLines o))
  end.

Definition Fetch (remote : string) : M (option error) :=
  Spawn ["fetch"; "--prune"; "--quiet"; "--progress"; remote].

(** The class [\s] of Go's regexp: tab, newline, form feed, carriage return
    and space. *)
Definition is_space (c : ascii) : bool :=
  in_cutset c (String "009" (String "010" (String "012" (String "013" " ")))).

(** [(.+)$]: at least one byte, none of them a newline. *)
Fixpoint no_newline (s : string) : bool :=
  match s with
  | EmptyString => true
  | String c r => negb (Ascii.eqb c newline) && no_newline r
  end.

Definition re_rest (s : string) : option string :=
  match s with
  | EmptyString => None
  | _ => if no_newline s then Some s else None
  end.

(** [\s+(.+)$], greedy: one more blank is tried before the capture. *)
Fixpoint re_blanks_rest (s : string) : option string :=
  match s with
  | EmptyString => None
  | String c r =>
      if is_space c then
        match re_blanks_rest r with
        | Some v => Some v
        | None => re_rest r
        end
      else None
  end.

(** [\.remote\s+(.+)$]. *)
Definition re_tail (s : string) : option string :=
  if HasPrefix s ".remote" then re_blanks_rest (drop_bytes 7 s) else None.

(** [.*] followed by the tail, greedy: one more byte is tried first. The
    result holds what [.*] took and the second capture. *)
Fixpoint re_any_tail (s : string) : option (string * string) :=
  match s with
  | EmptyString => None
  | String c r =>
      match (if Ascii.eqb c newline then None else re_any_tail r) with
      | Some (g, v) => Some (String c g, v)
      | None =>
          match re_tail s with
          | Some v => Some (EmptyString, v)
          | None => None
          end
      end
  end.

(** [re.FindStringSubmatch(line)] for [^branch\.(.+)\.remote\s+(.+)$]:
    the two captures [m[1]] and [m[2]] of the preferred match. *)
Definition FindStringSubmatch_branch_remote (line : string) : option (string * string) :=
  if HasPrefix line "branch." then
    match drop_bytes 7 line with
    | EmptyString => None
    | String c r =>
        if Ascii.eqb c newline then None
        else match re_any_tail r with
             | Some (g, v) => Some (String c g, v)
             | None => None
             end
    end
  else None.

(** A [nil] map reads like the empty one, which is all [sync] does with it. *)
Definition BranchRemotes : M (gmap string string) :=
  r <- execGit ["config"; "--get-regexp"; "^branch\..*\.remote$"] ;;
  match r with
  | Err _ => ret ∅
  | Ok o =>
      ret (foldl (fun res line =>
                    match FindStringSubmatch_branch_remote line with
                    | Some (name, remote) => <[name := remote]> res
                    | None => res
                    end) ∅ (splitLines o))
  end.

Definition UpstreamRef (branch : string) : M (result string) :=
  execGit ["rev-parse"; "--symbolic-full-name"; branch +:+ "@{upstream}"].

Definition RevParse (refs : list string) : M (result (list string)) :=
  r <- execGit (["rev-parse"; "--quiet"] ++ refs) ;;
  match r with
  | Err err => ret (Err err)
  | Ok o => ret (Ok (splitLines o))
  end.

Definition error_of (r : result string) : option error :=
  match r with Ok _ => None | Err err => Some err end.

Definition MergeFFOnly (ref : string) : M (option error) :=
  r <- execGit ["merge"; "--ff-only"; "--quiet"; ref] ;; ret (error_of r).

Definition UpdateRef (ref target : string) : M (option error) :=
  r <- execGit ["update-ref"; ref; target] ;; ret (error_of r).

Definition DeleteBranch (name : string) : M (option error) :=
  r <- execGit ["branch"; "-D"; name] ;; ret (error_of r).

Definition Checkout (branch : string) : M (option error) :=
  r <- execGit ["checkout"; "--quiet"; branch] ;; ret (error_of r).

Definition MergeBase (a b : string) : M (result string) :=
  execGit ["merge-base"; a; b].

Definition TreeHash (ref : string) : M (result string) :=
  execGit ["rev-parse"; ref +:+ "^{tree}"].

Definition CommitTree (tree parent message : string) : M (result string) :=
  execGit ["commit-tree"; tree; "-p"; parent; "-m"; message].

Definition Cherry (upstream head : string) : M (result string) :=
  execGit ["cherry"; upstream; head].

(** ** Package git (range.go) *)

Record Range : Type := mkRange { A : string; B : string }.

Definition NewRange (a b : string) : M (result Range) :=
  r <- RevParse [a; b] ;;
  match r with
  | Err err => ret (Err err)
  | Ok shas =>
      match shas with
      | [x; y] => ret (Ok (mkRange x y))
      | _ => ret (Err (errors_New ("failed to resolve refs: " +:+ a +:+ ", " +:+ b)))
      end
  end.

Definition IsIdentical (r : Range) : bool :=
  bool_decide (A r = B r).

Definition IsAncestor (r : Range) : M bool :=
  Run ["merge-base"; "--is-ancestor"; A r; B r].

(** ** Package main (main.go) *)

(** The escape sequences of [sync]; all empty without colour. *)
Record palette : Type := Palette {
  green : string;
  brightGreen : string;
  red : string;
  brightRed : string;
  reset : string
}.

Definition esc (s : string) : string := String "027"%char s.

Definition palette_of (useColor : bool) : palette :=
  if useColor then
    {| green := esc "[32m"; brightGreen := esc "[1;32m"; red := esc "[31m";
       brightRed := esc "[1;31m"; reset := esc "[0m" |}
  else
    {| green := ""; brightGreen := ""; red := ""; brightRed := ""; reset := "" |}.

Definition endl : string := String newline EmptyString.

(** What [sync] computes before the loop and never changes inside it. *)
Record env : Type := Env {
  pal : palette;
  remote : string;
  defaultBranch : string;
  defaultRef : string;
  branchRemotes : gmap string string
}.

(** The outcome assigned to a branch (SyncVerdict of the specification).
    [FastForward] and [Deleted] carry the commit the branch was at ([r.A]);
    the message shows its first seven bytes. *)
Inductive SyncVerdict : Type :=
  | UpToDate
  | FastForward (from : string)
  | UnpushedWarning
  | Deleted (from : string)
  | NotMergedWarning.

(** The three states of the classifier after counterpart resolution. *)
Inductive counterpart : Type :=
  | CounterpartResolved (ref : string)
  | CounterpartGone
  | CounterpartAbsent.

(** How one iteration of the loop of [sync] ends: with [continue] or the end
    of the body (and the value of [currentBranch]), with [return err], or
    with the run-time panic of [r.A[:7]] on a short string. *)
Inductive flow : Type :=
  | Continue (currentBranch : string)
  | ReturnErr (err : error)
  | Panic.

(** How [sync] ends. *)
Inductive outcome : Type :=
  | Returned (err : option error)
  | Panicked.

(** [branchRemotes[branch]]: a missing key reads as the empty string. *)
Definition tracked_remote (m : gmap string string) (branch : string) : string :=
  default "" (m !! branch).

Definition isSquashMerged (branchRef targetRef branchName : string) : M bool :=
  a <- MergeBase targetRef branchRef ;;
  match a with
  | Err _ => ret false
  | Ok ancestor =>
      t <- TreeHash branchRef ;;
      match t with
      | Err _ => ret false
      | Ok tree =>
          d <- CommitTree tree ancestor ("temp squash-merge check for " +:+ branchName) ;;
          match d with
          | Err _ => ret false
          | Ok dangling =>
              c <- Cherry targetRef dangling ;;
              match c with
              | Err _ => ret false
              | Ok res => ret (HasPrefix res "-")
              end
          end
      end
  end.

(** Lines 104-120 of [sync]: the values of [remoteRef] and [gone] when the
    comparison starts. *)
Definition resolve_counterpart (e : env) (branch : string) : M (string * bool) :=
  let remoteRef := "refs/remotes/" +:+ remote e +:+ "/" +:+ branch in
  if decide (tracked_remote (branchRemotes e) branch = remote e) then
    u <- UpstreamRef branch ;;
    match u with
    | Ok upstream => ret (upstream, false)
    | Err _ => ret ("", true)
    end
  else
    h <- HasRef remoteRef ;;
    if h then ret (remoteRef, false) else ret ("", false).

(** The state of the classifier that the pair stands for: the test
    [remoteRef != ""] comes first, [gone] second. *)
Definition counterpart_of (remoteRef : string) (gone : bool) : counterpart :=
  if decide (remoteRef <> "") then CounterpartResolved remoteRef
  else if gone then CounterpartGone
  else CounterpartAbsent.

(** Lines 124-133 and 146: the comparison with the counterpart. *)
Definition decide_resolved (localRef remoteRef : string) : M (result SyncVerdict) :=
  r <- NewRange localRef remoteRef ;;
  match r with
  | Err err => ret (Err err)
  | Ok r =>
      if IsIdentical r then ret (Ok UpToDate)
      else
        anc <- IsAncestor r ;;
        if anc then ret (Ok (FastForward (A r)))
        else ret (Ok UnpushedWarning)
  end.

(** Lines 151-163 and 175: the comparison with the default branch. *)
Definition decide_gone (localRef targetRef branch : string) : M (result SyncVerdict) :=
  r <- NewRange localRef targetRef ;;
  match r with
  | Err err => ret (Err err)
  | Ok r =>
      shouldDelete <- IsAncestor r ;;
      shouldDelete' <- (if negb shouldDelete
                        then isSquashMerged localRef targetRef branch
                        else ret shouldDelete) ;;
      if shouldDelete' then ret (Ok (Deleted (A r)))
      else ret (Ok NotMergedWarning)
  end.

(** Lines 134-147 and 163-177: the mutation and the message of a verdict. *)
Definition apply_verdict (e : env) (currentBranch branch remoteRef : string)
    (v : SyncVerdict) : M flow :=
  let localRef := "refs/heads/" +:+ branch in
  match v with
  | UpToDate => ret (Continue currentBranch)
  | FastForward from =>
      failed <- (if decide (branch = currentBranch) then
                   m <- MergeFFOnly remoteRef ;;
                   ret (Errorf_w ("failed to fast-forward " +:+ branch +:+ ": ") <$> m)
                 else
                   m <- UpdateRef localRef remoteRef ;;
                   ret (Errorf_w ("failed to update " +:+ branch +:+ ": ") <$> m)) ;;
      match failed with
      | Some err => ret (ReturnErr err)
      | None =>
          match first7 from with
          | None => ret Panic
          | Some short =>
              Fprintf_stdout (green (pal e) +:+ "Updated branch " +:+ brightGreen (pal e)
                              +:+ branch +:+ reset (pal e) +:+ " (was " +:+ short +:+ ")."
                              +:+ endl) ;;;
              ret (Continue currentBranch)
          end
      end
  | UnpushedWarning =>
      Fprintf_stderr ("warning: '" +:+ branch +:+ "' seems to contain unpushed commits"
                      +:+ endl) ;;;
      ret (Continue currentBranch)
  | Deleted from =>
      switched <- (if decide (branch = currentBranch) then
                     m <- Checkout (defaultBranch e) ;;
                     match m with
                     | Some err =>
                         ret (Err (Errorf_w ("failed to checkout " +:+ defaultBranch e +:+ ": ") err))
                     | None => ret (Ok (defaultBranch e))
                     end
                   else ret (Ok currentBranch)) ;;
      match switched with
      | Err err => ret (ReturnErr err)
      | Ok currentBranch' =>
          m <- DeleteBranch branch ;;
          match m with
          | Some err => ret (ReturnErr (Errorf_w ("failed to delete " +:+ branch +:+ ": ") err))
          | None =>
              match first7 from with
              | None => ret Panic
              | Some short =>
                  Fprintf_stdout (red (pal e) +:+ "Deleted branch " +:+ brightRed (pal e)
                                  +:+ branch +:+ reset (pal e) +:+ " (was " +:+ short +:+ ")."
                                  +:+ endl) ;;;
                  ret (Continue currentBranch')
              end
          end
      end
  | NotMergedWarning =>
      Fprintf_stderr ("warning: '" +:+ branch +:+ "' was deleted on " +:+ remote e
                      +:+ ", but appears not merged into '" +:+ defaultBranch e +:+ "'"
                      +:+ endl) ;;;
      ret (Continue currentBranch)
  end.

(** The body of the loop of [sync] (lines 104-179). *)
Definition sync_branch (e : env) (currentBranch branch : string) : M flow :=
  let localRef := "refs/heads/" +:+ branch in
  p <- resolve_counterpart e branch ;;
  let '(remoteRef, gone) := p in
  if decide (remoteRef <> "") then
    v <- decide_resolved localRef remoteRef ;;
    match v with
    | Err err => ret (ReturnErr err)
    | Ok v => apply_verdict e currentBranch branch remoteRef v
    end
  else if gone then
    v <- decide_gone localRef (defaultRef e) branch ;;
    match v with
    | Err err => ret (ReturnErr err)
    | Ok v => apply_verdict e currentBranch branch remoteRef v
    end
  else ret (Continue currentBranch).

(** The loop of [sync] (line 103). *)
Fixpoint sync_loop (e : env) (currentBranch : string) (branches : list string) : M outcome :=
  match branches with
  | [] => ret (Returned None)
  | branch :: rest =>
      f <- sync_branch e currentBranch branch ;;
      match f with
      | Continue currentBranch' => sync_loop e currentBranch' rest
      | ReturnErr err => ret (Returned (Some err))
      | Panic => ret Panicked
      end
  end.

Definition sync (useColor : bool) : M outcome :=
  r <- MainRemote ;;
  match r with
  | Err err => ret (Returned (Some err))
  | Ok remote =>
      defaultBranch <- DefaultBranch remote ;;
      let defaultRef := "refs/remotes/" +:+ remote +:+ "/" +:+ defaultBranch in
      cb <- CurrentBranch ;;
      let currentBranch := match cb with Ok b => b | Err _ => "" end in
      f <- Fetch remote ;;
      match f with
      | Some err => ret (Returned (Some (Errorf_w "fetch failed: " err)))
      | None =>
          branchRemotes <- BranchRemotes ;;
          bs <- LocalBranches ;;
          match bs with
          | Err err => ret (Returned (Some err))
          | Ok branches =>
              sync_loop (Env (palette_of useColor) remote defaultBranch defaultRef
                             branchRemotes)
                        currentBranch branches
          end
      end
  end.

End Program.

Arguments world S : clear implicits.

(** ** Package main: the command line (main.go) *)

Definition errHelp : error := errors_New "help requested".

(** The loop of [parseArgs] from the argument it has reached, with the value
    that the named result [verbose] has by then. *)
Fixpoint parseArgs_from (verbose : bool) (args : list string) : bool * option error :=
  match args with
  | [] => (verbose, None)
  | arg :: rest =>
      if bool_decide (arg = "--verbose") || bool_decide (arg = "-v")
      then parseArgs_from true rest
      else if bool_decide (arg = "--help") || bool_decide (arg = "-h")
      then (false, Some errHelp)
      else (false, Some (errors_New ("unknown argument: " +:+ arg)))
  end.

Definition parseArgs (args : list string) : bool * option error :=
  parseArgs_from false args.

(** ** A git that answers from a table

    Used to run the program on concrete answers: the process looks its
    argument vector up in a fixed table and exits with status 1 when the
    table has no entry.  The repository state is the table itself. *)

Definition exit_status_1 : error := plainError "exit status 1".

Definition answers : Type := list (list string * completed).

Definition table_git (args : list string) (t : answers) : completed * answers :=
  match List.find (fun entry => bool_decide (entry.1 = args)) t with
  | Some entry => (entry.2, t)
  | None => (Completed "" (Some exit_status_1), t)
  end.

Definition prints (text : string) : completed := Completed text None.
Definition fails : completed := Completed "" (Some exit_status_1).

Definition start {S} (s : S) : world S := World s [] [] [].

(** ** A model of the repository behind git

    The second git of this development keeps a repository: the remotes and
    what they serve, the local branches, the remote-tracking references, the
    branch configuration, HEAD and the commits.  Its processes read and write
    text the way git does, so the parsing code of package [git] runs on their
    output.  Three idealisations: the commits are listed in the order of their
    creation and never change, so that what [commit-tree] writes and what
    [cherry] prints are functions of their arguments; [checkout] switches to
    local branches only; [merge --ff-only] needs HEAD on a branch. *)

Module Model.

Record commit : Type := Commit {
  tree : string;
  parents : list string
}.

Record repo : Type := Repo {
  (** [git remote], in listing order *)
  remotes : list string;
  (** the branch that [refs/remotes/<remote>/HEAD] points to *)
  remote_HEAD : list (string * string);
  (** the branches of each remote repository and their commits *)
  served : list (string * list (string * string));
  (** the local branches and their commits, in listing order *)
  heads : list (string * string);
  (** the remote-tracking references, by full name, and their commits *)
  tracking : list (string * string);
  (** [branch.<name>.remote] and the branch named by [branch.<name>.merge],
      in the order of the configuration file *)
  config : list (string * (string * string));
  (** the branch HEAD is on; [None] when detached *)
  HEAD : option string;
  (** the commits, newest first *)
  commits : list (string * commit);
  (** the name of the commit that [commit-tree] writes for a tree, a parent
      and a message *)
  written : string -> string -> string -> option string;
  (** what [cherry] prints for an upstream commit and a head *)
  cherry_marks : string -> string -> option string
}.

(** The first binding of a key. *)
Fixpoint assoc {V : Type} (k : string) (l : list (string * V)) : option V :=
  match l with
  | [] => None
  | (k', v) :: rest => if String.eqb k' k then Some v else assoc k rest
  end.

(** The last binding of a key: the one git's configuration uses. *)
Fixpoint assoc_last {V : Type} (k : string) (l : list (string * V)) : option V :=
  match l with
  | [] => None
  | (k', v) :: rest =>
      match assoc_last k rest with
      | Some v' => Some v'
      | None => if String.eqb k' k then Some v else None
      end
  end.

Definition has_key {V : Type} (k : string) (l : list (string * V)) : bool :=
  match assoc k l with Some _ => true | None => false end.

(** Rebind a key where it stands, or bind it at the end. *)
Definition set_key {V : Type} (k : string) (v : V) (l : list (string * V))
    : list (string * V) :=
  if has_key k l
  then List.map (fun kv : string * V => if String.eqb kv.1 k then (k, v) else kv) l
  else l ++ [(k, v)].

Definition remove_key {V : Type} (k : string) (l : list (string * V))
    : list (string * V) :=
  List.filter (fun kv : string * V => negb (String.eqb kv.1 k)) l.

Fixpoint strip_prefix (pre s : string) : option string :=
  match pre with
  | EmptyString => Some s
  | String c pre' =>
      match s with
      | EmptyString => None
      | String d s' => if Ascii.eqb c d then strip_prefix pre' s' else None
      end
  end.

Fixpoint strip_suffix (suf s : string) : option string :=
  if String.eqb s suf then Some EmptyString
  else match s with
       | EmptyString => None
       | String c r =>
           match strip_suffix suf r with
           | Some x => Some (String c x)
           | None => None
           end
       end.

(** Each line followed by a newline, as git prints lists. *)
Fixpoint unlines (l : list string) : string :=
  match l with
  | [] => EmptyString
  | x :: rest => x +:+ endl +:+ unlines rest
  end.

(** A name that survives a line of output: not empty and free of the bytes
    of [\s].  Branch and remote names are such names. *)
Fixpoint no_space (x : string) : bool :=
  match x with
  | EmptyString => true
  | String c r => negb (is_space c) && no_space r
  end.

Definition clean (x : string) : bool :=
  match x with
  | EmptyString => false
  | _ => no_space x
  end.

Definition hex_digit (c : ascii) : bool :=
  in_cutset c "0123456789abcdef".

(** The name of a commit: hexadecimal digits, at least one. *)
Fixpoint all_hex (x : string) : bool :=
  match x with
  | EmptyString => true
  | String c r => hex_digit c && all_hex r
  end.

Definition hex_name (x : string) : bool :=
  match x with
  | EmptyString => false
  | _ => all_hex x
  end.

(** ** Commits *)

(** [a] is [b] or is reached from [b] through parents.  A commit names
    parents that are older than itself, so the search for the parents goes on
    in the older commits. *)
Fixpoint is_ancestor (cs : list (string * commit)) (a b : string) : bool :=
  match cs with
  | [] => false
  | (c, obj) :: older =>
      if String.eqb c b
      then String.eqb a b || existsb (is_ancestor older a) (parents obj)
      else is_ancestor older a b
  end.

(** The newest commit that both reach. *)
Definition merge_base_of (cs : list (string * commit)) (a b : string) : option string :=
  match List.find (fun c : string * commit =>
                     is_ancestor cs c.1 a && is_ancestor cs c.1 b) cs with
  | Some c => Some c.1
  | None => None
  end.

(** Every commit names parents that are older commits of the repository, and
    no commit is listed twice: the history has no cycle. *)
Fixpoint history_ok (cs : list (string * commit)) : bool :=
  match cs with
  | [] => true
  | (c, obj) :: older =>
      negb (has_key c older)
      && forallb (fun p => has_key p older) (parents obj)
      && history_ok older
  end.

(** [p] is a parent of [c]. *)
Definition parent_in (cs : list (string * commit)) (p c : string) : Prop :=
  exists obj, assoc c cs = Some obj /\ p ∈ parents obj.

(** [a] is a strict ancestor of [b]: at least one parent away. *)
Definition strict_ancestor (cs : list (string * commit)) : string -> string -> Prop :=
  tc (parent_in cs).

(** ** References *)

Definition lookup_ref (s : repo) (name : string) : option string :=
  match strip_prefix "refs/heads/" name with
  | Some b => assoc b (heads s)
  | None => assoc name (tracking s)
  end.

(** A revision: the name of a commit, or else a reference. *)
Definition resolve (s : repo) (rev : string) : option string :=
  if has_key rev (commits s) then Some rev else lookup_ref s rev.

(** The upstream of a branch: the remote-tracking reference that its
    configuration names, if that reference exists. *)
Definition upstream (s : repo) (branch : string) : option string :=
  match assoc_last branch (config s) with
  | Some (r, m) =>
      let ref := "refs/remotes/" +:+ r +:+ "/" +:+ m in
      if has_key ref (tracking s) then Some ref else None
  | None => None
  end.

Definition with_heads (s : repo) (h : list (string * string)) : repo :=
  Repo (remotes s) (remote_HEAD s) (served s) h (tracking s) (config s) (HEAD s)
       (commits s) (written s) (cherry_marks s).

Definition with_tracking (s : repo) (t : list (string * string)) : repo :=
  Repo (remotes s) (remote_HEAD s) (served s) (heads s) t (config s) (HEAD s)
       (commits s) (written s) (cherry_marks s).

Definition with_HEAD (s : repo) (h : option string) : repo :=
  Repo (remotes s) (remote_HEAD s) (served s) (heads s) (tracking s) (config s) h
       (commits s) (written s) (cherry_marks s).

Definition without_branch (s : repo) (b : string) : repo :=
  Repo (remotes s) (remote_HEAD s) (served s) (remove_key b (heads s)) (tracking s)
       (remove_key b (config s)) (HEAD s) (commits s) (written s) (cherry_marks s).

(** ** Well-formed repositories *)

Fixpoint distinct (l : list string) : bool :=
  match l with
  | [] => true
  | x :: rest => negb (existsb (String.eqb x) rest) && distinct rest
  end.

(** Every reference points to a commit of the repository and commits have
    hexadecimal names. *)
Definition refs_ok (s : repo) : bool :=
  forallb (fun h : string * string => has_key h.2 (commits s)) (heads s)
  && forallb (fun t : string * string => has_key t.2 (commits s)) (tracking s)
  && forallb (fun c : string * commit => hex_name c.1) (commits s).

(** The names git prints are names: branches are listed once, branch and
    remote names of the configuration and HEAD are clean, and whatever stands
    for a commit is hexadecimal. *)
Definition names_ok (s : repo) : bool :=
  distinct (List.map fst (heads s))
  && forallb (fun h : string * string => clean h.1 && hex_name h.2) (heads s)
  && forallb (fun t : string * string => hex_name t.2) (tracking s)
  && forallb (fun sv : string * list (string * string) =>
                forallb (fun bc : string * string => hex_name bc.2) sv.2) (served s)
  && forallb (fun e : string * (string * string) =>
                clean e.1 && clean e.2.1 && clean e.2.2) (config s)
  && forallb (fun c : string * commit => hex_name c.1) (commits s)
  && match HEAD s with Some h => clean h | None => true end.

(** ** The processes *)

Definition ok (s : repo) (text : string) : completed * repo := (prints text, s).
Definition ko (s : repo) : completed * repo := (fails, s).

Definition git_remote (args : list string) (s : repo) : completed * repo :=
  match args with
  | [] => ok s (unlines (remotes s))
  | _ => ko s
  end.

Definition git_symbolic_ref (args : list string) (s : repo) : completed * repo :=
  match args with
  | [flag; ref] =>
      if String.eqb flag "--quiet" then
        match List.find (fun rh : string * string =>
                           String.eqb ("refs/remotes/" +:+ rh.1 +:+ "/HEAD") ref)
                        (remote_HEAD s) with
        | Some rh => ok s (unlines ["refs/remotes/" +:+ rh.1 +:+ "/" +:+ rh.2])
        | None => ko s
        end
      else if String.eqb flag "--short" && String.eqb ref "HEAD" then
        match HEAD s with
        | Some b => ok s (unlines [b])
        | None => ko s
        end
      else ko s
  | _ => ko s
  end.

Definition git_show_ref (args : list string) (s : repo) : completed * repo :=
  match args with
  | [f1; f2; ref] =>
      if String.eqb f1 "--verify" && String.eqb f2 "--quiet" then
        match lookup_ref s ref with
        | Some _ => ok s ""
        | None => ko s
        end
      else ko s
  | _ => ko s
  end.

(** The references of a remote after a fetch with pruning: what the remote
    serves replaces what was tracked under its name. *)
Definition fetched (s : repo) (r : string) : list (string * string) :=
  List.map (fun bc : string * string => ("refs/remotes/" +:+ r +:+ "/" +:+ bc.1, bc.2))
           (default [] (assoc r (served s)))
  ++ List.filter (fun t : string * string =>
                    negb (String.prefix ("refs/remotes/" +:+ r +:+ "/") t.1))
                 (tracking s).

Definition git_fetch (args : list string) (s : repo) : completed * repo :=
  match args with
  | [f1; f2; f3; r] =>
      if String.eqb f1 "--prune" && String.eqb f2 "--quiet" && String.eqb f3 "--progress"
         && existsb (String.eqb r) (remotes s)
      then (prints "", with_tracking s (fetched s r))
      else ko s
  | _ => ko s
  end.

Definition git_config (args : list string) (s : repo) : completed * repo :=
  match args with
  | [flag; pattern] =>
      if String.eqb flag "--get-regexp" && String.eqb pattern "^branch\..*\.remote$" then
        ok s (unlines (List.map (fun e : string * (string * string) =>
                                   "branch." +:+ e.1 +:+ ".remote " +:+ e.2.1)
                                (config s)))
      else ko s
  | _ => ko s
  end.

Definition git_branch (args : list string) (s : repo) : completed * repo :=
  match args with
  | [flag] =>
      if String.eqb flag "--format=%(refname:short)"
      then ok s (unlines (List.map fst (heads s)))
      else ko s
  | [flag; b] =>
      if String.eqb flag "-D" then
        match assoc b (heads s) with
        | Some c =>
            if bool_decide (HEAD s = Some b) then ko s
            else (prints ("Deleted branch " +:+ b +:+ " (was " +:+ c +:+ ")." +:+ endl),
                  without_branch s b)
        | None => ko s
        end
      else ko s
  | _ => ko s
  end.

Fixpoint resolve_all (s : repo) (revs : list string) : option (list string) :=
  match revs with
  | [] => Some []
  | rev :: rest =>
      match resolve s rev, resolve_all s rest with
      | Some c, Some cs => Some (c :: cs)
      | _, _ => None
      end
  end.

Definition git_rev_parse (args : list string) (s : repo) : completed * repo :=
  match args with
  | [] => ko s
  | flag :: rest =>
      if String.eqb flag "--quiet" then
        match resolve_all s rest with
        | Some cs => ok s (unlines cs)
        | None => ko s
        end
      else if String.eqb flag "--symbolic-full-name" then
        match rest with
        | [rev] =>
            match strip_suffix "@{upstream}" rev with
            | Some b =>
                match upstream s b with
                | Some ref => ok s (unlines [ref])
                | None => ko s
                end
            | None => ko s
            end
        | _ => ko s
        end
      else
        match rest with
        | [] =>
            match strip_suffix "^{tree}" flag with
            | Some rev =>
                match resolve s rev with
                | Some c =>
                    match assoc c (commits s) with
                    | Some obj => ok s (unlines [tree obj])
                    | None => ko s
                    end
                | None => ko s
                end
            | None => ko s
            end
        | _ => ko s
        end
  end.

Definition git_merge_base (args : list string) (s : repo) : completed * repo :=
  match args with
  | [a; b] =>
      match resolve s a, resolve s b with
      | Some x, Some y =>
          match merge_base_of (commits s) x y with
          | Some c => ok s (unlines [c])
          | None => ko s
          end
      | _, _ => ko s
      end
  | [flag; a; b] =>
      if String.eqb flag "--is-ancestor" then
        match resolve s a, resolve s b with
        | Some x, Some y => if is_ancestor (commits s) x y then ok s "" else ko s
        | _, _ => ko s
        end
      else ko s
  | _ => ko s
  end.

Definition git_merge (args : list string) (s : repo) : completed * repo :=
  match args with
  | [f1; f2; rev] =>
      if String.eqb f1 "--ff-only" && String.eqb f2 "--quiet" then
        match HEAD s, resolve s rev with
        | Some b, Some c =>
            match assoc b (heads s) with
            | Some a =>
                if is_ancestor (commits s) a c
                then (prints "", with_heads s (set_key b c (heads s)))
                else ko s
            | None => ko s
            end
        | _, _ => ko s
        end
      else ko s
  | _ => ko s
  end.

Definition git_update_ref (args : list string) (s : repo) : completed * repo :=
  match args with
  | [ref; target] =>
      match resolve s target with
      | Some c =>
          match strip_prefix "refs/heads/" ref with
          | Some b => (prints "", with_heads s (set_key b c (heads s)))
          | None => (prints "", with_tracking s (set_key ref c (tracking s)))
          end
      | None => ko s
      end
  | _ => ko s
  end.

Definition git_checkout (args : list string) (s : repo) : completed * repo :=
  match args with
  | [flag; b] =>
      if String.eqb flag "--quiet" && has_key b (heads s)
      then (prints "", with_HEAD s (Some b))
      else ko s
  | _ => ko s
  end.

Definition git_commit_tree (args : list string) (s : repo) : completed * repo :=
  match args with
  | [t; f1; p; f2; msg] =>
      if String.eqb f1 "-p" && String.eqb f2 "-m" then
        match written s t p msg with
        | Some c => ok s (unlines [c])
        | None => ko s
        end
      else ko s
  | _ => ko s
  end.

Definition git_cherry (args : list string) (s : repo) : completed * repo :=
  match args with
  | [up; head] =>
      match resolve s up with
      | Some u =>
          match cherry_marks s u head with
          | Some text => ok s text
          | None => ko s
          end
      | None => ko s
      end
  | _ => ko s
  end.

(** The [git] executable over a modelled repository. *)
Definition git (args : list string) (s : repo) : completed * repo :=
  match args with
  | [] => ko s
  | cmd :: rest =>
      if String.eqb cmd "remote" then git_remote rest s
      else if String.eqb cmd "symbolic-ref" then git_symbolic_ref rest s
      else if String.eqb cmd "show-ref" then git_show_ref rest s
      else if String.eqb cmd "fetch" then git_fetch rest s
      else if String.eqb cmd "config" then git_config rest s
      else if String.eqb cmd "branch" then git_branch rest s
      else if String.eqb cmd "rev-parse" then git_rev_parse rest s
      else if String.eqb cmd "merge-base" then git_merge_base rest s
      else if String.eqb cmd "merge" then git_merge rest s
      else if String.eqb cmd "update-ref" then git_update_ref rest s
      else if String.eqb cmd "checkout" then git_checkout rest s
      else if String.eqb cmd "commit-tree" then git_commit_tree rest s
      else if String.eqb cmd "cherry" then git_cherry rest s
      else ko s
  end.

End Model.

(** ** The classifier's transition rules as the specification words them

    Rule 1: a branch with an explicit tracking configuration pointing at the
    selected remote resolves its upstream.  Rule 2: else, if there is no
    explicit tracking but a same-named reference exists on the selected
    remote, that reference is the counterpart.  Rule 3: else the branch has
    no counterpart.  [tracking] is the explicit-tracking remote of the branch,
    [upstream] the outcome of resolving its upstream, [same_named] the
    same-named reference on the selected remote when it exists. *)
Definition spec_counterpart (selected : string) (tracking : option string)
    (upstream : result string) (same_named : option string) : counterpart :=
  match tracking with
  | Some t =>
      if decide (t = selected) then
        match upstream with
        | Ok ref => CounterpartResolved ref
        | Err _ => CounterpartGone
        end
      else CounterpartAbsent
  | None =>
      match same_named with
      | Some ref => CounterpartResolved ref
      | None => CounterpartAbsent
      end
  end.

(** [strings.Contains(s, substr)]. *)
Fixpoint Contains (s substr : string) : bool :=
  HasPrefix s substr ||
  match s with
  | EmptyString => false
  | String _ r => Contains r substr
  end.

(** ** Notions the properties are stated with *)

Section Notions.

Context {S : Type}.
Variable git_proc : list string -> S -> completed * S.

(** Between [w] and [w'] the program ran exactly the processes [cmds] and
    wrote nothing. *)
Definition issued (w w' : world S) (cmds : list (list string)) : Prop :=
  calls w' = calls w ++ cmds /\ out w' = out w /\ errout w' = errout w.

(** The world after the process [args] has run and left the repository [s']. *)
Definition after (w : world S) (args : list string) (s' : S) : world S :=
  {| backend := s'; calls := calls w ++ [args]; out := out w; errout := errout w |}.

(** The iterations over [before] all reach the end of the loop body: from
    [currentBranch] and [w] they lead to [currentBranch'] and [w']. *)
Inductive runs_through (e : env) :
    string -> world S -> list string -> string -> world S -> Prop :=
  | runs_nil (currentBranch : string) (w : world S) :
      runs_through e currentBranch w [] currentBranch w
  | runs_cons (currentBranch cb1 cb2 branch : string) (rest : list string)
      (w w1 w2 : world S) :
      sync_branch git_proc e currentBranch branch w = (Continue cb1, w1) ->
      runs_through e cb1 w1 rest cb2 w2 ->
      runs_through e currentBranch w (branch :: rest) cb2 w2.

(** The processes of the checked-out code path: [git merge] and
    [git checkout]. *)
Definition checkout_path (args : list string) : bool :=
  match args with
  | cmd :: _ => String.eqb cmd "merge" || String.eqb cmd "checkout"
  | [] => false
  end.

(** From [w] to [w'] only processes outside the checked-out path ran. *)
Definition off_checkout_path (w w' : world S) : Prop :=
  exists extra, calls w' = calls w ++ extra /\
                Forall (fun c => checkout_path c = false) extra.

End Notions.

(** ** Notions over the modelled repository *)

Import Model.

(** A printed line: not empty and without a newline. *)
Definition line (x : string) : bool :=
  match x with
  | EmptyString => false
  | _ => no_newline x
  end.

(** The age of a commit: its distance from the oldest end of the list. *)
Fixpoint age (cs : list (string * commit)) (x : string) : nat :=
  match cs with
  | [] => 0
  | (c, _) :: older => if String.eqb c x then S (List.length older) else age older x
  end.

(** The line that [git config --get-regexp] prints for an entry of the
    configuration. *)
Definition config_line (e : string * (string * string)) : string :=
  "branch." +:+ e.1 +:+ ".remote " +:+ e.2.1.

(** The remote that the configuration gives a branch: its last entry counts,
    and no entry reads as the empty name, as a missing key of a Go map does. *)
Definition config_remote (s : repo) (b : string) : string :=
  match assoc_last b (config s) with
  | Some (r, _) => r
  | None => ""
  end.

(** [names_ok], field by field. *)
Record names_ok_facts (s : repo) : Prop := {
  ok_distinct : distinct (List.map fst (heads s)) = true;
  ok_heads : forallb (fun h : string * string => clean h.1 && hex_name h.2) (heads s) = true;
  ok_tracking : forallb (fun t : string * string => hex_name t.2) (tracking s) = true;
  ok_served : forallb (fun sv : string * list (string * string) =>
                         forallb (fun bc : string * string => hex_name bc.2) sv.2)
                      (served s) = true;
  ok_config : forallb (fun e : string * (string * string) =>
                         clean e.1 && clean e.2.1 && clean e.2.2) (config s) = true;
  ok_commits : forallb (fun c : string * commit => hex_name c.1) (commits s) = true;
  ok_HEAD : forall h, HEAD s = Some h -> clean h = true
}.

(** The processes that change a branch or the checkout. *)
Definition mutating (args : list string) : bool :=
  match args with
  | cmd :: rest =>
      String.eqb cmd "merge" || String.eqb cmd "update-ref" || String.eqb cmd "checkout"
      || (String.eqb cmd "branch"
          && match rest with flag :: _ => String.eqb flag "-D" | [] => false end)
  | [] => false
  end.

(** From [w] to [w'] the repository stayed as it was, nothing was written to
    standard output and no mutating process ran. *)
Definition quiet (w w' : world repo) : Prop :=
  backend w' = backend w /\ out w' = out w /\
  exists extra, calls w' = calls w ++ extra /\
                Forall (fun c => mutating c = false) extra.

(** What [resolve_counterpart] finds in a repository. *)
Definition m_counterpart (e : env) (s : repo) (b : string) : string * bool :=
  let implicit := "refs/remotes/" +:+ remote e +:+ "/" +:+ b in
  if decide (tracked_remote (branchRemotes e) b = remote e) then
    match upstream s b with
    | Some u => (u, false)
    | None => ("", true)
    end
  else if has_key implicit (tracking s) then (implicit, false)
  else ("", false).

(** What [NewRange] builds in a repository. *)
Definition m_range (s : repo) (a b : string) : result Range :=
  match resolve s a, resolve s b with
  | Some x, Some y => Ok (mkRange x y)
  | _, _ => Err exit_status_1
  end.

(** What [IsAncestor] answers in a repository. *)
Definition m_ancestor (s : repo) (r : Range) : bool :=
  match resolve s (A r), resolve s (B r) with
  | Some x, Some y => is_ancestor (commits s) x y
  | _, _ => false
  end.

(** What [execGit] returns for a query in a repository. *)
Definition answer (s : repo) (args : list string) : result string :=
  match status (git args s).1 with
  | Some err => Err err
  | None => Ok (TrimRight (stdout (git args s).1) endl)
  end.

(** What the detector answers in a repository. *)
Definition m_squashed (s : repo) (branchRef targetRef name : string) : bool :=
  match answer s ["merge-base"; targetRef; branchRef] with
  | Err _ => false
  | Ok ancestor =>
      match answer s ["rev-parse"; branchRef +:+ "^{tree}"] with
      | Err _ => false
      | Ok tree =>
          match answer s ["commit-tree"; tree; "-p"; ancestor; "-m";
                          "temp squash-merge check for " +:+ name] with
          | Err _ => false
          | Ok dangling =>
              match answer s ["cherry"; targetRef; dangling] with
              | Err _ => false
              | Ok res => HasPrefix res "-"
              end
          end
      end
  end.

(** What the classifier decides for a branch: nothing when the branch has no
    counterpart, an error when a Range cannot be built, or a verdict together
    with the counterpart it was compared with. *)
Inductive decision : Type :=
  | Skip
  | Broken (err : error)
  | Decided (ref : string) (v : SyncVerdict).

(** The decision of the loop body of [sync] for the branch [b]. *)
Definition m_decision (e : env) (s : repo) (b : string) : decision :=
  let localRef := "refs/heads/" +:+ b in
  let '(ref, gone) := m_counterpart e s b in
  if decide (ref <> "") then
    match m_range s localRef ref with
    | Err err => Broken err
    | Ok r =>
        Decided ref (if IsIdentical r then UpToDate
                     else if m_ancestor s r then FastForward (A r)
                     else UnpushedWarning)
    end
  else if gone then
    match m_range s localRef (defaultRef e) with
    | Err err => Broken err
    | Ok r =>
        Decided ref (if m_ancestor s r || m_squashed s localRef (defaultRef e) b
                     then Deleted (A r) else NotMergedWarning)
    end
  else Skip.

(** The name that [sync] keeps in [currentBranch]. *)
Definition cur (s : repo) : string := default "" (HEAD s).

(** Two repositories with the same remotes, remote-tracking references and
    commits. *)
Definition same_base (s s' : repo) : Prop :=
  remotes s' = remotes s /\ remote_HEAD s' = remote_HEAD s /\ served s' = served s /\
  tracking s' = tracking s /\ commits s' = commits s /\ written s' = written s /\
  cherry_marks s' = cherry_marks s.

(** The decision for the branch asks for no mutation: the branch is skipped,
    up to date, or warned about. *)
Definition settled (e : env) (s : repo) (b : string) : Prop :=
  match m_decision e s b with
  | Skip => True
  | Decided _ UpToDate => True
  | Decided _ UnpushedWarning => True
  | Decided _ NotMergedWarning => True
  | _ => False
  end.

(** What one iteration may change: the branch it looks at, the
    configuration of that branch when it deletes it, and HEAD. *)
Record step_facts (b : string) (s s' : repo) : Prop := {
  sf_ok : names_ok s' = true;
  sf_base : same_base s s';
  sf_heads : forall x, x <> b -> assoc x (heads s') = assoc x (heads s);
  sf_keys : forall x, has_key x (heads s') = true -> has_key x (heads s) = true;
  sf_config : forall x, x <> b \/ has_key x (heads s') = true ->
                        assoc_last x (config s') = assoc_last x (config s)
}.

(** What [MainRemote] returns for a list of remotes. *)
Definition main_remote (rs : list string) : result string :=
  match splitLines (TrimRight (unlines rs) endl) with
  | [] => Err (errors_New "no git remotes found")
  | (first :: _) as names =>
      match List.find (known_at (foldl (fun k name => <[name := true]> k) ∅ names))
                      ["upstream"; "github"; "origin"] with
      | Some candidate => Ok candidate
      | None => Ok first
      end
  end.

(** Whether [show-ref --verify] finds a reference. *)
Definition probe (s : repo) (ref : string) : bool :=
  match lookup_ref s ref with Some _ => true | None => false end.

(** What [DefaultBranch] returns in a repository. *)
Definition default_branch (s : repo) (r : string) : string :=
  match answer s ["symbolic-ref"; "--quiet"; "refs/remotes/" +:+ r +:+ "/HEAD"] with
  | Ok o => TrimPrefix o ("refs/remotes/" +:+ r +:+ "/")
  | Err _ =>
      if probe s ("refs/remotes/" +:+ r +:+ "/main") then "main"
      else if probe s ("refs/remotes/" +:+ r +:+ "/master") then "master"
      else "main"
  end.

(** A string of newlines. *)
Fixpoint newlines (n : nat) : string :=
  match n with
  | O => ""
  | S n' => String newline (newlines n')
  end.

(** A string of blanks: bytes of the class [\s]. *)
Fixpoint blanks_only (s : string) : bool :=
  match s with
  | EmptyString => true
  | String c r => is_space c && blanks_only r
  end.

(** From [w] to [w'] only processes that satisfy [P] ran. *)
Definition ran_only {S : Type} (P : list string -> bool) (w w' : world S) : Prop :=
  exists extra, calls w' = calls w ++ extra /\ Forall (fun c => P c = true) extra.

(** The processes that take a branch away or leave it: [git checkout] and
    [git branch -D]. *)
Definition removes (args : list string) : bool :=
  match args with
  | cmd :: rest =>
      String.eqb cmd "checkout"
      || (String.eqb cmd "branch"
          && match rest with flag :: _ => String.eqb flag "-D" | [] => false end)
  | [] => false
  end.

(** Every commit that a remote serves is held by the repository: the model
    transfers no objects, so a fetch can only bring references to commits
    that are already there. *)
Definition served_ok (s : repo) : bool :=
  forallb (fun sv : string * list (string * string) =>
             forallb (fun bc : string * string => has_key bc.2 (commits s)) sv.2)
          (served s).

(** ** Concrete repositories *)

(** A git that prints abbreviated commit names: topic, which has no tracking
    configuration, is behind the branch of the same name on origin. *)
Definition short_names : answers :=
  [ (["show-ref"; "--verify"; "--quiet"; "refs/remotes/origin/topic"], prints "");
    (["rev-parse"; "--quiet"; "refs/heads/topic"; "refs/remotes/origin/topic"],
     prints ("abc" +:+ endl +:+ "def" +:+ endl));
    (["merge-base"; "--is-ancestor"; "abc"; "def"], prints "");
    (["update-ref"; "refs/heads/topic"; "refs/remotes/origin/topic"], prints "") ].

(** A repository with the remotes fork and mirror, in that order. *)
Definition two_remotes : answers :=
  [ (["remote"], prints ("fork" +:+ endl +:+ "mirror" +:+ endl)) ].

Definition sha_feature : string := "7f8e9d0a1b2c3d4e5f60718293a4b5c6d7e8f901".

Definition sha_main : string := "3a1b2c4d5e6f708192a3b4c5d6e7f8091a2b3c4d".

Definition sha_old : string := "0c0ffee0c0ffee0c0ffee0c0ffee0c0ffee0c0ff".

Definition sha_tree : string := "4b825dc642cb6eb9a060e54bf8d69288fbee4904".

Definition sha_probe : string := "9e107d9d372bb6826bd81d3542a419d6f00dbeef".

(** What every scenario below shares: one remote, origin, whose HEAD is main,
    and the two local branches feature and main, both tracking origin. *)
Definition origin_answers : answers :=
  [ (["remote"], prints ("origin" +:+ endl));
    (["symbolic-ref"; "--quiet"; "refs/remotes/origin/HEAD"],
     prints ("refs/remotes/origin/main" +:+ endl));
    (["fetch"; "--prune"; "--quiet"; "--progress"; "origin"], prints "");
    (["config"; "--get-regexp"; "^branch\..*\.remote$"],
     prints ("branch.feature.remote origin" +:+ endl +:+
             "branch.main.remote origin" +:+ endl));
    (["branch"; "--format=%(refname:short)"],
     prints ("feature" +:+ endl +:+ "main" +:+ endl));
    (["rev-parse"; "--symbolic-full-name"; "main@{upstream}"],
     prints ("refs/remotes/origin/main" +:+ endl)) ].

(** feature is checked out; its upstream is gone and it is merged into
    origin/main; main is behind origin/main.  The checkout of main fails. *)
Definition merged_feature_stuck : answers :=
  origin_answers ++
  [ (["symbolic-ref"; "--short"; "HEAD"], prints ("feature" +:+ endl));
    (["rev-parse"; "--quiet"; "refs/heads/feature"; "refs/remotes/origin/main"],
     prints (sha_feature +:+ endl +:+ sha_main +:+ endl));
    (["merge-base"; "--is-ancestor"; sha_feature; sha_main], prints "");
    (["rev-parse"; "--quiet"; "refs/heads/main"; "refs/remotes/origin/main"],
     prints (sha_old +:+ endl +:+ sha_main +:+ endl));
    (["merge-base"; "--is-ancestor"; sha_old; sha_main], prints "") ].

(** The same repository, where the checkout, the delete and the pointer
    update succeed. *)
Definition merged_feature : answers :=
  merged_feature_stuck ++
  [ (["checkout"; "--quiet"; "main"], prints "");
    (["branch"; "-D"; "feature"], prints ("Deleted branch feature" +:+ endl));
    (["merge"; "--ff-only"; "--quiet"; "refs/remotes/origin/main"], prints "");
    (["update-ref"; "refs/heads/main"; "refs/remotes/origin/main"], prints "") ].

(** The same branches under a detached HEAD; feature was squash-merged. *)
Definition squashed_detached : answers :=
  origin_answers ++
  [ (["rev-parse"; "--quiet"; "refs/heads/feature"; "refs/remotes/origin/main"],
     prints (sha_feature +:+ endl +:+ sha_main +:+ endl));
    (["merge-base"; "refs/remotes/origin/main"; "refs/heads/feature"],
     prints (sha_old +:+ endl));
    (["rev-parse"; "refs/heads/feature^{tree}"], prints (sha_tree +:+ endl));
    (["commit-tree"; sha_tree; "-p"; sha_old; "-m"; "temp squash-merge check for feature"],
     prints (sha_probe +:+ endl));
    (["cherry"; "refs/remotes/origin/main"; sha_probe],
     prints ("- " +:+ sha_probe +:+ endl));
    (["branch"; "-D"; "feature"], prints ("Deleted branch feature" +:+ endl));
    (["rev-parse"; "--quiet"; "refs/heads/main"; "refs/remotes/origin/main"],
     prints (sha_old +:+ endl +:+ sha_main +:+ endl));
    (["merge-base"; "--is-ancestor"; sha_old; sha_main], prints "");
    (["update-ref"; "refs/heads/main"; "refs/remotes/origin/main"], prints "") ].

Definition origin_env : env :=
  Env (palette_of false) "origin" "main" "refs/remotes/origin/main"
      {[ "feature" := "origin"; "main" := "origin" ]}.

(** feature tracks the remote fork while origin is the selected remote, and
    origin has a branch of the same name. *)
Definition tracks_fork : answers :=
  [ (["show-ref"; "--verify"; "--quiet"; "refs/remotes/origin/feature"], prints "") ].

Definition fork_env : env :=
  Env (palette_of false) "origin" "main" "refs/remotes/origin/main"
      {[ "feature" := "fork" ]}.

Definition c_root : string := "1000000000000000000000000000000000000001".
Definition c_main2 : string := "2000000000000000000000000000000000000002".
Definition c_base : string := "3000000000000000000000000000000000000003".
Definition c_local2 : string := "4000000000000000000000000000000000000004".
Definition c_remote2 : string := "5000000000000000000000000000000000000005".

(** main is behind origin; topic and its upstream have each a commit of their
    own on top of a common base.  Nothing has been fetched yet. *)
Definition diverged : repo :=
  {| remotes := ["origin"];
     remote_HEAD := [("origin", "main")];
     served := [("origin", [("main", c_main2); ("topic", c_remote2)])];
     heads := [("main", c_root); ("topic", c_local2)];
     tracking := [("refs/remotes/origin/main", c_root);
                  ("refs/remotes/origin/topic", c_base)];
     config := [("main", ("origin", "main")); ("topic", ("origin", "topic"))];
     HEAD := Some "main";
     commits := [ (c_remote2, Commit "t5" [c_base]); (c_local2, Commit "t4" [c_base]);
                  (c_base, Commit "t3" [c_root]); (c_main2, Commit "t2" [c_root]);
                  (c_root, Commit "t1" []) ];
     written := fun _ _ _ => None;
     cherry_marks := fun _ _ => None |}.

(** The world that a first run on [diverged] leaves. *)
Definition diverged_synced : world repo := (sync git false (start diverged)).2.

(** The remote has no HEAD reference; only its master has been fetched so far,
    while it serves a main too.  The upstream of topic is gone. *)
Definition unset_head : repo :=
  {| remotes := ["origin"];
     remote_HEAD := [];
     served := [("origin", [("main", c_main2); ("master", c_root)])];
     heads := [("master", c_root); ("topic", c_main2)];
     tracking := [("refs/remotes/origin/master", c_root)];
     config := [("topic", ("origin", "topic"))];
     HEAD := Some "master";
     commits := [ (c_main2, Commit "t2" [c_root]); (c_root, Commit "t1" []) ];
     written := fun _ _ _ => None;
     cherry_marks := fun _ _ => None |}.

(** The world that a first run on [unset_head] leaves. *)
Definition unset_head_synced : world repo := (sync git false (start unset_head)).2.

(** main is behind origin, and topic, whose upstream is gone from origin,
    sits on a commit that the main of origin contains. *)
Definition merged_topic : repo :=
  {| remotes := ["origin"];
     remote_HEAD := [("origin", "main")];
     served := [("origin", [("main", c_main2)])];
     heads := [("main", c_root); ("topic", c_root)];
     tracking := [("refs/remotes/origin/main", c_root);
                  ("refs/remotes/origin/topic", c_root)];
     config := [("main", ("origin", "main")); ("topic", ("origin", "topic"))];
     HEAD := Some "main";
     commits := [ (c_main2, Commit "t2" [c_root]); (c_root, Commit "t1" []) ];
     written := fun _ _ _ => None;
     cherry_marks := fun _ _ => None |}.

(** The world that a run on [merged_topic] leaves. *)
Definition merged_topic_synced : world repo := (sync git false (start merged_topic)).2.

(** * Properties *)

Section Facts.

Context {S : Type}.

Variable git_proc : list string -> S -> completed * S.

(** ** Remote selection *)

Lemma known_at_foldl (names : list string) (k : gmap string bool) (name : string) :
  known_at (foldl (fun k n => <[n := true]> k) k names) name = true <->
  (name ∈ names \/ known_at k name = true).
Proof.
  revert k. induction names as [|n names IH]; intros k; simpl.
  - split; [auto | intros [H|H]; [inversion H | exact H]].
  - rewrite IH. unfold known_at. destruct (decide (n = name)) as [->|Hne].
    + rewrite lookup_insert_eq. simpl. split; intros _; [left; left | by right].
    + rewrite lookup_insert_ne by done. rewrite elem_of_cons. naive_solver.
Qed.

Lemma known_at_listed (names : list string) (name : string) :
  known_at (foldl (fun k n => <[n := true]> k) ∅ names) name = true <-> name ∈ names.
Proof.
  rewrite known_at_foldl. unfold known_at. rewrite lookup_empty. simpl.
  naive_solver.
Qed.

(** C10. When the listing succeeds with at least one remote and none of them
    is called upstream, github or origin, [MainRemote] returns the first
    remote of the listing; it returns an error exactly when the listing
    process fails or lists no remote. *)
Theorem MainRemote_falls_back_to_first (w : world S) (c : completed) (s' : S) :
  git_proc ["remote"] (backend w) = (c, s') ->
  let remotes := splitLines (TrimRight (stdout c) endl) in
  (forall first rest,
      status c = None -> remotes = first :: rest ->
      "upstream" ∉ remotes -> "github" ∉ remotes -> "origin" ∉ remotes ->
      (MainRemote git_proc w).1 = Ok first)
  /\ ((exists err, (MainRemote git_proc w).1 = Err err) <->
      (status c <> None \/ remotes = [])).
Proof.
  intros Hrun remotes.
  unfold MainRemote, execGit, bind, exec_Command. rewrite Hrun.
  change (TrimRight (stdout c) (String newline EmptyString)) with
    (TrimRight (stdout c) endl).
  split.
  - intros first rest Hok Hrem Hu Hg Ho. rewrite Hok. unfold ret; simpl.
    change (splitLines (TrimRight (stdout c) endl)) with remotes.
    assert (Hnone : forall n, n ∉ remotes ->
              known_at (foldl (fun k n => <[n := true]> k) ∅ remotes) n = false).
    { intros n Hn. apply not_true_is_false. rewrite known_at_listed. exact Hn. }
    rewrite !Hnone by assumption. rewrite Hrem. reflexivity.
  - destruct (status c) as [err|] eqn:Hst; unfold ret; simpl.
    + split; [intros _; left; discriminate | intros _; eauto].
    + change (splitLines (TrimRight (stdout c) endl)) with remotes.
      destruct remotes as [|first rest] eqn:Hrem; simpl.
      * split; [intros _; by right | intros _; eauto].
      * split.
        -- intros [err Herr].
           repeat (destruct (known_at _ _); [discriminate|]). discriminate.
        -- intros [H|H]; [congruence | discriminate].
Qed.

(** ** What a call leaves behind *)

Lemma issued_refl (w : world S) : issued w w [].
Proof. unfold issued. by rewrite app_nil_r. Qed.

Lemma issued_trans (w1 w2 w3 : world S) (c1 c2 : list (list string)) :
  issued w1 w2 c1 -> issued w2 w3 c2 -> issued w1 w3 (c1 ++ c2).
Proof.
  unfold issued. intros (H1 & H2 & H3) (H4 & H5 & H6).
  rewrite H4, H1, H5, H2, H6, H3, app_assoc. done.
Qed.

Lemma exec_Command_issued (args : list string) (w w' : world S) (c : completed) :
  exec_Command git_proc args w = (c, w') ->
  issued w w' [args] /\ git_proc args (backend w) = (c, backend w').
Proof.
  unfold exec_Command. destruct (git_proc args (backend w)) as [c0 s0].
  intros [= <- <-]. by repeat split.
Qed.

Lemma execGit_issued (args : list string) (w w' : world S) (r : result string) :
  execGit git_proc args w = (r, w') -> issued w w' [args].
Proof.
  unfold execGit, bind. destruct (exec_Command git_proc args w) as [c w0] eqn:E.
  apply exec_Command_issued in E as [E _].
  destruct (status c); intros [= <- <-]; exact E.
Qed.

Lemma Run_issued (args : list string) (w w' : world S) (b : bool) :
  Run git_proc args w = (b, w') -> issued w w' [args].
Proof.
  unfold Run, bind. destruct (exec_Command git_proc args w) as [c w0] eqn:E.
  apply exec_Command_issued in E as [E _]. intros [= <- <-]; exact E.
Qed.

Lemma RevParse_issued (refs : list string) (w w' : world S) (r : result (list string)) :
  RevParse git_proc refs w = (r, w') ->
  issued w w' [["rev-parse"; "--quiet"] ++ refs].
Proof.
  unfold RevParse, bind.
  destruct (execGit git_proc _ w) as [x w0] eqn:E.
  apply execGit_issued in E. destruct x; intros [= <- <-]; exact E.
Qed.

Lemma NewRange_issued (a b : string) (w w' : world S) (r : result Range) :
  NewRange git_proc a b w = (r, w') ->
  issued w w' [["rev-parse"; "--quiet"; a; b]].
Proof.
  unfold NewRange, bind.
  destruct (RevParse git_proc _ w) as [x w0] eqn:E.
  apply RevParse_issued in E.
  destruct x as [[|x [|y [|z l]]]|]; intros [= <- <-]; exact E.
Qed.

Lemma IsAncestor_issued (r : Range) (w w' : world S) (b : bool) :
  IsAncestor git_proc r w = (b, w') ->
  issued w w' [["merge-base"; "--is-ancestor"; A r; B r]].
Proof. apply Run_issued. Qed.

(** ** The squash-merge detector *)

(** C4. The detector answers true exactly when the merge base, the tree, the
    dangling commit and the patch-equivalence check all succeed, one after the
    other, and the result of the check starts with the marker "-".  It has no
    error to return: a failing step makes the answer false. *)
Theorem isSquashMerged_true_iff (branchRef targetRef branchName : string) (w : world S) :
  (isSquashMerged git_proc branchRef targetRef branchName w).1 = true <->
  exists ancestor w1 tree w2 dangling w3 res w4,
    MergeBase git_proc targetRef branchRef w = (Ok ancestor, w1) /\
    TreeHash git_proc branchRef w1 = (Ok tree, w2) /\
    CommitTree git_proc tree ancestor
      ("temp squash-merge check for " +:+ branchName) w2 = (Ok dangling, w3) /\
    Cherry git_proc targetRef dangling w3 = (Ok res, w4) /\
    HasPrefix res "-" = true.
Proof.
  unfold isSquashMerged, bind, ret.
  destruct (MergeBase git_proc targetRef branchRef w) as [[ancestor|e1] w1] eqn:E1.
  2:{ simpl. split; [discriminate | intros (?&?&?&?&?&?&?&?&[=]&_)]. }
  destruct (TreeHash git_proc branchRef w1) as [[tree|e2] w2] eqn:E2.
  2:{ simpl. split; [discriminate |].
      intros (?&?&?&?&?&?&?&?&[= <- <-]&H&_). rewrite E2 in H. discriminate. }
  destruct (CommitTree git_proc tree ancestor _ w2) as [[dangling|e3] w3] eqn:E3.
  2:{ simpl. split; [discriminate |].
      intros (?&?&?&?&?&?&?&?&[= <- <-]&H2&H3&_).
      rewrite E2 in H2. injection H2 as <- <-. rewrite E3 in H3. discriminate. }
  destruct (Cherry git_proc targetRef dangling w3) as [[res|e4] w4] eqn:E4.
  2:{ simpl. split; [discriminate |].
      intros (?&?&?&?&?&?&?&?&[= <- <-]&H2&H3&H4&_).
      rewrite E2 in H2. injection H2 as <- <-.
      rewrite E3 in H3. injection H3 as <- <-. rewrite E4 in H4. discriminate. }
  simpl. split.
  - intros H. exists ancestor, w1, tree, w2, dangling, w3, res, w4. done.
  - intros (?&?&?&?&?&?&?&?&[= <- <-]&H2&H3&H4&H5).
    rewrite E2 in H2. injection H2 as <- <-.
    rewrite E3 in H3. injection H3 as <- <-.
    rewrite E4 in H4. injection H4 as <- <-. exact H5.
Qed.

(** ** The classifier *)

Lemma resolve_counterpart_tracking (e : env) (branch : string) (w : world S) :
  tracked_remote (branchRemotes e) branch = remote e ->
  resolve_counterpart git_proc e branch w =
    match UpstreamRef git_proc branch w with
    | (Ok upstream, w') => ((upstream, false), w')
    | (Err _, w') => (("", true), w')
    end.
Proof.
  intros H. unfold resolve_counterpart, bind, ret.
  rewrite decide_True by exact H.
  by destruct (UpstreamRef git_proc branch w) as [[u|err] w'].
Qed.

Lemma resolve_counterpart_no_tracking (e : env) (branch : string) (w : world S) :
  tracked_remote (branchRemotes e) branch <> remote e ->
  resolve_counterpart git_proc e branch w =
    match HasRef git_proc ("refs/remotes/" +:+ remote e +:+ "/" +:+ branch) w with
    | (true, w') => (("refs/remotes/" +:+ remote e +:+ "/" +:+ branch, false), w')
    | (false, w') => (("", false), w')
    end.
Proof.
  intros H. unfold resolve_counterpart, bind, ret.
  rewrite decide_False by exact H.
  by destruct (HasRef git_proc _ w) as [[|] w'].
Qed.

Lemma sync_branch_resolved (e : env) (currentBranch branch ref : string) (gone : bool)
    (w w0 : world S) :
  resolve_counterpart git_proc e branch w = ((ref, gone), w0) ->
  ref <> "" ->
  sync_branch git_proc e currentBranch branch w =
    match decide_resolved git_proc ("refs/heads/" +:+ branch) ref w0 with
    | (Err err, w1) => (ReturnErr err, w1)
    | (Ok v, w1) => apply_verdict git_proc e currentBranch branch ref v w1
    end.
Proof.
  intros H Hne. unfold sync_branch, bind, ret. rewrite H.
  rewrite decide_True by exact Hne.
  by destruct (decide_resolved git_proc _ ref w0) as [[v|err] w1].
Qed.

Lemma sync_branch_gone (e : env) (currentBranch branch : string) (w w0 : world S) :
  resolve_counterpart git_proc e branch w = (("", true), w0) ->
  sync_branch git_proc e currentBranch branch w =
    match decide_gone git_proc ("refs/heads/" +:+ branch) (defaultRef e) branch w0 with
    | (Err err, w1) => (ReturnErr err, w1)
    | (Ok v, w1) => apply_verdict git_proc e currentBranch branch "" v w1
    end.
Proof.
  intros H. unfold sync_branch, bind, ret. rewrite H.
  rewrite decide_False by (intros H'; by apply H').
  by destruct (decide_gone git_proc _ _ branch w0) as [[v|err] w1].
Qed.

Lemma sync_branch_absent (e : env) (currentBranch branch : string) (w w0 : world S) :
  resolve_counterpart git_proc e branch w = (("", false), w0) ->
  sync_branch git_proc e currentBranch branch w = (Continue currentBranch, w0).
Proof.
  intros H. unfold sync_branch, bind, ret. rewrite H.
  rewrite decide_False by (intros H'; by apply H'). reflexivity.
Qed.

(** C1. A branch that tracks the selected remote and whose upstream no longer
    resolves is in the state CounterpartGone.  The driver builds the Range of
    the branch and the default branch; when the branch is an ancestor the
    verdict is Deleted and nothing but the two Range queries has run, so the
    detector has not; otherwise the detector runs on the branch and the
    default branch and its answer chooses between Deleted and
    NotMergedWarning. *)
Theorem gone_branch_verdict (e : env) (currentBranch branch : string)
    (w w0 w1 w2 : world S) (err : error) (r : Range) (anc : bool) :
  branchRemotes e !! branch = Some (remote e) ->
  UpstreamRef git_proc branch w = (Err err, w0) ->
  NewRange git_proc ("refs/heads/" +:+ branch) (defaultRef e) w0 = (Ok r, w1) ->
  IsAncestor git_proc r w1 = (anc, w2) ->
  let localRef := "refs/heads/" +:+ branch in
  (exists remoteRef gone,
      resolve_counterpart git_proc e branch w = ((remoteRef, gone), w0) /\
      counterpart_of remoteRef gone = CounterpartGone)
  /\ (anc = true ->
        decide_gone git_proc localRef (defaultRef e) branch w0 = (Ok (Deleted (A r)), w2)
        /\ issued w0 w2 [["rev-parse"; "--quiet"; localRef; defaultRef e];
                         ["merge-base"; "--is-ancestor"; A r; B r]]
        /\ sync_branch git_proc e currentBranch branch w =
             apply_verdict git_proc e currentBranch branch "" (Deleted (A r)) w2)
  /\ (anc = false ->
        forall (squashed : bool) (w3 : world S),
          isSquashMerged git_proc localRef (defaultRef e) branch w2 = (squashed, w3) ->
          let v := if squashed then Deleted (A r) else NotMergedWarning in
          decide_gone git_proc localRef (defaultRef e) branch w0 = (Ok v, w3)
          /\ sync_branch git_proc e currentBranch branch w =
               apply_verdict git_proc e currentBranch branch "" v w3).
Proof.
  intros Htrack Hup Hrange Hanc localRef.
  assert (Hres : resolve_counterpart git_proc e branch w = (("", true), w0)).
  { rewrite resolve_counterpart_tracking, Hup; [done|].
    unfold tracked_remote. by rewrite Htrack. }
  split; [by exists "", true|].
  split.
  - intros ->.
    assert (Hd : decide_gone git_proc localRef (defaultRef e) branch w0
                 = (Ok (Deleted (A r)), w2)).
    { unfold decide_gone, bind, ret. subst localRef. by rewrite Hrange, Hanc. }
    split; [exact Hd|]. split.
    + apply NewRange_issued in Hrange. apply IsAncestor_issued in Hanc.
      exact (issued_trans _ _ _ _ _ Hrange Hanc).
    + rewrite (sync_branch_gone _ _ _ _ _ Hres). fold localRef. by rewrite Hd.
  - intros -> squashed w3 Hsq v.
    assert (Hd : decide_gone git_proc localRef (defaultRef e) branch w0 = (Ok v, w3)).
    { unfold decide_gone, bind, ret. subst localRef. rewrite Hrange, Hanc. simpl.
      rewrite Hsq. subst v. by destruct squashed. }
    split; [exact Hd|].
    rewrite (sync_branch_gone _ _ _ _ _ Hres). fold localRef. by rewrite Hd.
Qed.

(** C2. For a branch in the state CounterpartResolved the verdict comes from
    the Range of the branch and its counterpart: equal commits give UpToDate,
    and the iteration ends there with nothing written and only the Range
    query run; otherwise an ancestor gives FastForward; otherwise the verdict
    is UnpushedWarning, which writes one warning and runs no process. *)
Theorem resolved_branch_verdict (e : env) (currentBranch branch ref remoteRef : string)
    (gone : bool) (w w0 w1 : world S) (r : Range) :
  resolve_counterpart git_proc e branch w = ((remoteRef, gone), w0) ->
  counterpart_of remoteRef gone = CounterpartResolved ref ->
  NewRange git_proc ("refs/heads/" +:+ branch) ref w0 = (Ok r, w1) ->
  let localRef := "refs/heads/" +:+ branch in
  (A r = B r ->
     decide_resolved git_proc localRef ref w0 = (Ok UpToDate, w1)
     /\ sync_branch git_proc e currentBranch branch w = (Continue currentBranch, w1)
     /\ issued w0 w1 [["rev-parse"; "--quiet"; localRef; ref]])
  /\ (A r <> B r ->
      forall (anc : bool) (w2 : world S),
        IsAncestor git_proc r w1 = (anc, w2) ->
        let v := if anc then FastForward (A r) else UnpushedWarning in
        decide_resolved git_proc localRef ref w0 = (Ok v, w2)
        /\ sync_branch git_proc e currentBranch branch w =
             apply_verdict git_proc e currentBranch branch ref v w2
        /\ (anc = false ->
              sync_branch git_proc e currentBranch branch w =
                (Continue currentBranch,
                 {| backend := backend w2; calls := calls w2; out := out w2;
                    errout := errout w2 ++
                      ["warning: '" +:+ branch +:+ "' seems to contain unpushed commits"
                       +:+ endl] |}))).
Proof.
  intros Hres Hcp Hrange localRef.
  assert (Hne : remoteRef <> "" /\ remoteRef = ref).
  { unfold counterpart_of in Hcp. destruct (decide (remoteRef <> "")) as [Hn|Hn].
    - by injection Hcp as ->.
    - by destruct gone. }
  destruct Hne as [Hne ->].
  pose proof (sync_branch_resolved e currentBranch branch ref gone w w0 Hres Hne) as Hsync.
  fold localRef in Hsync. split.
  - intros Heq.
    assert (Hd : decide_resolved git_proc localRef ref w0 = (Ok UpToDate, w1)).
    { unfold decide_resolved, bind, ret. subst localRef. rewrite Hrange.
      unfold IsIdentical. by rewrite bool_decide_eq_true_2. }
    split; [exact Hd|]. split.
    + by rewrite Hsync, Hd.
    + by apply NewRange_issued in Hrange.
  - intros Hneq anc w2 Hanc v.
    assert (Hd : decide_resolved git_proc localRef ref w0 = (Ok v, w2)).
    { unfold decide_resolved, bind, ret. subst localRef. rewrite Hrange.
      unfold IsIdentical. rewrite bool_decide_eq_false_2 by done.
      rewrite Hanc. subst v. by destruct anc. }
    split; [exact Hd|]. split.
    + by rewrite Hsync, Hd.
    + intros ->. by rewrite Hsync, Hd.
Qed.

Lemma append_nonempty (a b : string) : a <> "" -> a +:+ b <> "".
Proof. destruct a; [done|]. intros _. discriminate. Qed.

(** C3, as the program has it.  A branch whose tracking configuration names
    the selected remote resolves its upstream: a non-empty reference is the
    counterpart, a failure means the counterpart is gone.  Every other branch,
    whether it has no tracking configuration or one that names another remote,
    is matched by name: when the same-named reference exists on the selected
    remote it is the counterpart, and when it does not the branch is skipped,
    the iteration running the existence probe and nothing else and writing
    nothing. *)
Theorem counterpart_resolution (e : env) (branch : string) (w : world S) :
  remote e <> "" ->
  let implicit := "refs/remotes/" +:+ remote e +:+ "/" +:+ branch in
  (branchRemotes e !! branch = Some (remote e) ->
     forall (u : result string) (w0 : world S),
       UpstreamRef git_proc branch w = (u, w0) ->
       exists remoteRef gone,
         resolve_counterpart git_proc e branch w = ((remoteRef, gone), w0) /\
         match u with
         | Ok upstream =>
             upstream <> "" ->
             counterpart_of remoteRef gone = CounterpartResolved upstream
         | Err _ => counterpart_of remoteRef gone = CounterpartGone
         end)
  /\ (branchRemotes e !! branch <> Some (remote e) ->
      forall (h : bool) (w0 : world S),
        HasRef git_proc implicit w = (h, w0) ->
        exists remoteRef gone,
          resolve_counterpart git_proc e branch w = ((remoteRef, gone), w0) /\
          counterpart_of remoteRef gone =
            (if h then CounterpartResolved implicit else CounterpartAbsent) /\
          (h = false ->
             issued w w0 [["show-ref"; "--verify"; "--quiet"; implicit]] /\
             forall currentBranch,
               sync_branch git_proc e currentBranch branch w
               = (Continue currentBranch, w0))).
Proof.
  intros Hremote implicit. split.
  - intros Htrack u w0 Hup.
    rewrite resolve_counterpart_tracking
      by (unfold tracked_remote; by rewrite Htrack).
    rewrite Hup. destruct u as [upstream|err].
    + exists upstream, false. split; [done|]. intros Hne.
      unfold counterpart_of. by rewrite decide_True.
    + by exists "", true.
  - intros Htrack h w0 Hhas.
    assert (Hne : tracked_remote (branchRemotes e) branch <> remote e).
    { unfold tracked_remote. destruct (branchRemotes e !! branch) as [t|]; simpl.
      - congruence.
      - congruence. }
    pose proof (resolve_counterpart_no_tracking e branch w Hne) as Hres.
    fold implicit in Hres. rewrite Hhas in Hres. destruct h.
    + exists implicit, false. split; [done|]. split; [|done].
      unfold counterpart_of. rewrite decide_True; [done|].
      by apply append_nonempty.
    + exists "", false. split; [done|]. split; [done|]. intros _. split.
      * by apply Run_issued in Hhas.
      * intros cb. by apply sync_branch_absent.
Qed.

(** ** The driver *)

Lemma execGit_after (args : list string) (w : world S) (c : completed) (s' : S) :
  git_proc args (backend w) = (c, s') ->
  execGit git_proc args w =
    (match status c with
     | Some err => Err err
     | None => Ok (TrimRight (stdout c) endl)
     end, after w args s').
Proof.
  intros H. unfold execGit, bind, exec_Command, ret. rewrite H.
  by destruct (status c).
Qed.

Lemma exec_Command_eq (args : list string) (w : world S) :
  exec_Command git_proc args w =
    ((git_proc args (backend w)).1, after w args (git_proc args (backend w)).2).
Proof. unfold exec_Command. by destruct (git_proc args (backend w)). Qed.

Lemma execGit_eq (args : list string) (w : world S) :
  execGit git_proc args w =
    (match status (git_proc args (backend w)).1 with
     | Some err => Err err
     | None => Ok (TrimRight (stdout (git_proc args (backend w)).1) endl)
     end, after w args (git_proc args (backend w)).2).
Proof. apply execGit_after. by destruct (git_proc args (backend w)). Qed.

Lemma Run_eq (args : list string) (w : world S) :
  Run git_proc args w =
    (match status (git_proc args (backend w)).1 with
     | Some _ => false
     | None => true
     end, after w args (git_proc args (backend w)).2).
Proof. unfold Run, bind, ret. by rewrite exec_Command_eq. Qed.

Lemma mutation_after (args : list string) (w : world S) (c : completed) (s' : S) :
  git_proc args (backend w) = (c, s') ->
  bind (execGit git_proc args) (fun r => ret (error_of r)) w = (status c, after w args s').
Proof.
  intros H. unfold bind. rewrite (execGit_after _ _ _ _ H).
  by destruct (status c).
Qed.

(** C5. How a verdict is applied depends on the checkout.  A fast-forward of
    a branch that is not the current one runs [update-ref] on the branch and
    no other process.  A fast-forward of the current branch runs
    [merge --ff-only] and no other process, and when that fails the iteration
    returns the failure.  A deletion of the current branch runs the checkout
    of the default branch first; the forced delete follows only when the
    checkout succeeded, and the default branch is then the current one. *)
Theorem mutation_dispatch (e : env) (currentBranch branch remoteRef from : string)
    (w : world S) :
  let localRef := "refs/heads/" +:+ branch in
  (branch <> currentBranch ->
     forall f w',
       apply_verdict git_proc e currentBranch branch remoteRef (FastForward from) w
       = (f, w') ->
       calls w' = calls w ++ [["update-ref"; localRef; remoteRef]])
  /\ (branch = currentBranch ->
      forall f w',
        apply_verdict git_proc e currentBranch branch remoteRef (FastForward from) w
        = (f, w') ->
        calls w' = calls w ++ [["merge"; "--ff-only"; "--quiet"; remoteRef]]
        /\ forall c s' err,
             git_proc ["merge"; "--ff-only"; "--quiet"; remoteRef] (backend w) = (c, s') ->
             status c = Some err ->
             f = ReturnErr (Errorf_w ("failed to fast-forward " +:+ branch +:+ ": ") err)
             /\ w' = after w ["merge"; "--ff-only"; "--quiet"; remoteRef] s')
  /\ (branch = currentBranch ->
      forall f w' c s',
        apply_verdict git_proc e currentBranch branch remoteRef (Deleted from) w
        = (f, w') ->
        git_proc ["checkout"; "--quiet"; defaultBranch e] (backend w) = (c, s') ->
        match status c with
        | Some err =>
            f = ReturnErr (Errorf_w ("failed to checkout " +:+ defaultBranch e +:+ ": ") err)
            /\ w' = after w ["checkout"; "--quiet"; defaultBranch e] s'
        | None =>
            calls w' = calls w ++ [["checkout"; "--quiet"; defaultBranch e];
                                   ["branch"; "-D"; branch]]
            /\ forall currentBranch', f = Continue currentBranch' ->
                                      currentBranch' = defaultBranch e
        end).
Proof.
  intros localRef. split; [|split].
  - intros Hne f w'. unfold apply_verdict. rewrite decide_False by exact Hne.
    unfold UpdateRef. fold localRef.
    destruct (git_proc ["update-ref"; localRef; remoteRef] (backend w)) as [c s'] eqn:E.
    unfold bind at 1. unfold bind at 1.
    rewrite (mutation_after _ _ _ _ E). unfold ret at 1.
    destruct (status c) as [err|]; simpl.
    + by intros [= <- <-].
    + destruct (first7 from); unfold bind, ret, Fprintf_stdout; by intros [= <- <-].
  - intros Heq f w'. unfold apply_verdict. rewrite decide_True by exact Heq.
    unfold MergeFFOnly.
    destruct (git_proc ["merge"; "--ff-only"; "--quiet"; remoteRef] (backend w))
      as [c s'] eqn:E.
    unfold bind at 1. unfold bind at 1.
    rewrite (mutation_after _ _ _ _ E). unfold ret at 1.
    destruct (status c) as [err|] eqn:Hst; simpl.
    + intros [= <- <-]. split; [done|].
      intros c0 s0 err0 [= <- <-] Hst0. rewrite Hst in Hst0. by injection Hst0 as <-.
    + intros H. split.
      * destruct (first7 from); unfold bind, ret, Fprintf_stdout in H;
          by injection H as <- <-.
      * intros c0 s0 err0 [= <- <-] Hst0. congruence.
  - intros Heq f w' c s'. unfold apply_verdict. rewrite decide_True by exact Heq.
    intros H E. revert H. unfold Checkout.
    unfold bind at 1. unfold bind at 1.
    rewrite (mutation_after _ _ _ _ E).
    destruct (status c) as [err|] eqn:Hst; unfold ret at 1.
    + by intros [= <- <-].
    + unfold DeleteBranch.
      destruct (git_proc ["branch"; "-D"; branch]
                  (backend (after w ["checkout"; "--quiet"; defaultBranch e] s')))
        as [c1 s1] eqn:E1.
      unfold bind at 1.
      rewrite (mutation_after _ _ _ _ E1).
      destruct (status c1) as [err1|]; unfold ret at 1.
      * intros [= <- <-]. simpl. rewrite <- app_assoc. split; [done|]. intros ? [=].
      * destruct (first7 from); unfold bind, ret, Fprintf_stdout;
          intros [= <- <-]; simpl; rewrite <- app_assoc; split; try done.
        -- by intros ? [= <-].
Qed.

Lemma sync_loop_app (e : env) (before rest : list string) (cb cb' : string)
    (w w' : world S) :
  runs_through git_proc e cb w before cb' w' ->
  sync_loop git_proc e cb (before ++ rest) w = sync_loop git_proc e cb' rest w'.
Proof.
  induction 1 as [|cb cb1 cb2 branch bs w w1 w2 Hstep _ IH]; [done|].
  simpl. unfold bind. rewrite Hstep. exact IH.
Qed.

Lemma sync_loop_completes (e : env) (branches : list string) (cb : string)
    (w w' : world S) :
  sync_loop git_proc e cb branches w = (Returned None, w') ->
  exists cb', runs_through git_proc e cb w branches cb' w'.
Proof.
  revert cb w. induction branches as [|b bs IH]; intros cb w; simpl.
  - intros [= <-]. exists cb. constructor.
  - unfold bind. destruct (sync_branch git_proc e cb b w) as [[cb1| |] w1] eqn:E.
    + intros H. apply IH in H as [cb' H]. exists cb'. econstructor; eauto.
    + discriminate.
    + discriminate.
Qed.

Lemma sync_loop_returns (e : env) (before rest : list string) (branch : string)
    (cb cb' : string) (w w0 w1 : world S) (err : error) :
  runs_through git_proc e cb w before cb' w0 ->
  sync_branch git_proc e cb' branch w0 = (ReturnErr err, w1) ->
  sync_loop git_proc e cb (before ++ branch :: rest) w = (Returned (Some err), w1).
Proof.
  intros Hrun Hstep. rewrite (sync_loop_app _ _ _ _ _ _ _ Hrun).
  simpl. unfold bind. by rewrite Hstep.
Qed.

(** C6, as the program has it.  A failure ends the run at once: when the
    iteration of a branch returns an error, the loop returns that error in the
    world the iteration left, so no later branch is looked at.  A Range that
    cannot be built makes the iteration return the error of the construction
    unchanged, in either state of the classifier.  A failing mutation makes the
    iteration return an error that wraps the failure of the process: its text
    names the branch for a fast-forward, a pointer update and a delete, and
    names the default branch for a checkout switch. *)
Theorem failures_end_the_run (e : env) (currentBranch branch : string) :
  let localRef := "refs/heads/" +:+ branch in
  (forall before rest cb w w0 w1 err,
      runs_through git_proc e cb w before currentBranch w0 ->
      sync_branch git_proc e currentBranch branch w0 = (ReturnErr err, w1) ->
      sync_loop git_proc e cb (before ++ branch :: rest) w = (Returned (Some err), w1))
  /\ (forall w w0 w1 ref gone err,
      resolve_counterpart git_proc e branch w = ((ref, gone), w0) ->
      ref <> "" ->
      NewRange git_proc localRef ref w0 = (Err err, w1) ->
      sync_branch git_proc e currentBranch branch w = (ReturnErr err, w1))
  /\ (forall w w0 w1 err,
      resolve_counterpart git_proc e branch w = (("", true), w0) ->
      NewRange git_proc localRef (defaultRef e) w0 = (Err err, w1) ->
      sync_branch git_proc e currentBranch branch w = (ReturnErr err, w1))
  /\ (forall w ref from c s' err,
      branch = currentBranch ->
      git_proc ["merge"; "--ff-only"; "--quiet"; ref] (backend w) = (c, s') ->
      status c = Some err ->
      apply_verdict git_proc e currentBranch branch ref (FastForward from) w
      = (ReturnErr (Errorf_w ("failed to fast-forward " +:+ branch +:+ ": ") err),
         after w ["merge"; "--ff-only"; "--quiet"; ref] s'))
  /\ (forall w ref from c s' err,
      branch <> currentBranch ->
      git_proc ["update-ref"; localRef; ref] (backend w) = (c, s') ->
      status c = Some err ->
      apply_verdict git_proc e currentBranch branch ref (FastForward from) w
      = (ReturnErr (Errorf_w ("failed to update " +:+ branch +:+ ": ") err),
         after w ["update-ref"; localRef; ref] s'))
  /\ (forall w ref from c s' err,
      branch = currentBranch ->
      git_proc ["checkout"; "--quiet"; defaultBranch e] (backend w) = (c, s') ->
      status c = Some err ->
      apply_verdict git_proc e currentBranch branch ref (Deleted from) w
      = (ReturnErr (Errorf_w ("failed to checkout " +:+ defaultBranch e +:+ ": ") err),
         after w ["checkout"; "--quiet"; defaultBranch e] s'))
  /\ (forall w ref from c s' err,
      branch <> currentBranch ->
      git_proc ["branch"; "-D"; branch] (backend w) = (c, s') ->
      status c = Some err ->
      apply_verdict git_proc e currentBranch branch ref (Deleted from) w
      = (ReturnErr (Errorf_w ("failed to delete " +:+ branch +:+ ": ") err),
         after w ["branch"; "-D"; branch] s'))
  /\ (forall w ref from c0 s0 c s' err,
      branch = currentBranch ->
      git_proc ["checkout"; "--quiet"; defaultBranch e] (backend w) = (c0, s0) ->
      status c0 = None ->
      git_proc ["branch"; "-D"; branch] s0 = (c, s') ->
      status c = Some err ->
      apply_verdict git_proc e currentBranch branch ref (Deleted from) w
      = (ReturnErr (Errorf_w ("failed to delete " +:+ branch +:+ ": ") err),
         after (after w ["checkout"; "--quiet"; defaultBranch e] s0)
               ["branch"; "-D"; branch] s')).
Proof.
  intros localRef. repeat split.
  - intros before rest cb w w0 w1 err Hrun Hstep.
    by apply (sync_loop_returns e before rest branch cb currentBranch w w0 w1 err).
  - intros w w0 w1 ref gone err Hres Hne Hrange.
    rewrite (sync_branch_resolved _ _ _ _ _ _ _ Hres Hne).
    unfold decide_resolved, bind, ret. fold localRef. by rewrite Hrange.
  - intros w w0 w1 err Hres Hrange.
    rewrite (sync_branch_gone _ _ _ _ _ Hres).
    unfold decide_gone, bind, ret. fold localRef. by rewrite Hrange.
  - intros w ref from c s' err Heq E Hst.
    unfold apply_verdict. rewrite decide_True by exact Heq.
    unfold MergeFFOnly. unfold bind at 1. unfold bind at 1.
    rewrite (mutation_after _ _ _ _ E), Hst. reflexivity.
  - intros w ref from c s' err Hne E Hst.
    unfold apply_verdict. rewrite decide_False by exact Hne.
    unfold UpdateRef. fold localRef. unfold bind at 1. unfold bind at 1.
    rewrite (mutation_after _ _ _ _ E), Hst. reflexivity.
  - intros w ref from c s' err Heq E Hst.
    unfold apply_verdict. rewrite decide_True by exact Heq.
    unfold Checkout. unfold bind at 1. unfold bind at 1.
    rewrite (mutation_after _ _ _ _ E), Hst. reflexivity.
  - intros w ref from c s' err Hne E Hst.
    unfold apply_verdict. rewrite decide_False by exact Hne.
    unfold bind at 1. unfold ret at 1. unfold DeleteBranch. unfold bind at 1.
    rewrite (mutation_after _ _ _ _ E), Hst. reflexivity.
  - intros w ref from c0 s0 c s' err Heq E0 Hst0 E Hst.
    unfold apply_verdict. rewrite decide_True by exact Heq.
    unfold Checkout. unfold bind at 1. unfold bind at 1.
    rewrite (mutation_after _ _ _ _ E0), Hst0. unfold ret at 1.
    unfold DeleteBranch. unfold bind at 1.
    rewrite (mutation_after (["branch"; "-D"; branch])
               (after w ["checkout"; "--quiet"; defaultBranch e] s0) c s' E), Hst.
    reflexivity.
Qed.

(** ** Detached HEAD *)

Lemma off_path_refl (w w' : world S) : calls w' = calls w -> off_checkout_path w w'.
Proof. intros H. exists []. by rewrite app_nil_r. Qed.

Lemma off_path_trans (w1 w2 w3 : world S) :
  off_checkout_path w1 w2 -> off_checkout_path w2 w3 -> off_checkout_path w1 w3.
Proof.
  intros (x & Hx & Fx) (y & Hy & Fy). exists (x ++ y).
  rewrite Hy, Hx, app_assoc. split; [done|]. by apply Forall_app.
Qed.

Lemma off_path_issued (w w' : world S) (cmds : list (list string)) :
  issued w w' cmds -> Forall (fun c => checkout_path c = false) cmds ->
  off_checkout_path w w'.
Proof. intros (H & _) F. by exists cmds. Qed.

Lemma off_path_execGit (args : list string) (w w' : world S) (r : result string) :
  checkout_path args = false ->
  execGit git_proc args w = (r, w') -> off_checkout_path w w'.
Proof.
  intros P H. apply execGit_issued in H.
  apply (off_path_issued _ _ _ H). by constructor.
Qed.

Lemma off_path_Run (args : list string) (w w' : world S) (b : bool) :
  checkout_path args = false ->
  Run git_proc args w = (b, w') -> off_checkout_path w w'.
Proof.
  intros P H. apply Run_issued in H.
  apply (off_path_issued _ _ _ H). by constructor.
Qed.

Lemma off_path_resolve_counterpart (e : env) (branch : string) (w w' : world S)
    (p : string * bool) :
  resolve_counterpart git_proc e branch w = (p, w') -> off_checkout_path w w'.
Proof.
  unfold resolve_counterpart, bind, ret. case_decide.
  - destruct (UpstreamRef git_proc branch w) as [u w0] eqn:E.
    apply off_path_execGit in E; [|done]. destruct u; by intros [= <- <-].
  - destruct (HasRef git_proc _ w) as [h w0] eqn:E.
    apply off_path_Run in E; [|done]. destruct h; by intros [= <- <-].
Qed.

Lemma off_path_NewRange (a b : string) (w w' : world S) (r : result Range) :
  NewRange git_proc a b w = (r, w') -> off_checkout_path w w'.
Proof.
  intros H. apply NewRange_issued in H.
  apply (off_path_issued _ _ _ H). by constructor.
Qed.

Lemma off_path_decide_resolved (localRef ref : string) (w w' : world S)
    (v : result SyncVerdict) :
  decide_resolved git_proc localRef ref w = (v, w') -> off_checkout_path w w'.
Proof.
  unfold decide_resolved, bind, ret.
  destruct (NewRange git_proc localRef ref w) as [[r|err] w0] eqn:E;
    apply off_path_NewRange in E.
  - destruct (IsIdentical r); [by intros [= <- <-]|].
    destruct (IsAncestor git_proc r w0) as [anc w1] eqn:E1.
    apply off_path_Run in E1; [|done].
    destruct anc; intros [= <- <-]; by eapply off_path_trans.
  - by intros [= <- <-].
Qed.

Lemma off_path_isSquashMerged (branchRef targetRef name : string) (w w' : world S)
    (b : bool) :
  isSquashMerged git_proc branchRef targetRef name w = (b, w') ->
  off_checkout_path w w'.
Proof.
  unfold isSquashMerged, bind, ret.
  destruct (MergeBase git_proc targetRef branchRef w) as [[a|?] w1] eqn:E1;
    apply off_path_execGit in E1; try done; [|by intros [= <- <-]].
  destruct (TreeHash git_proc branchRef w1) as [[t|?] w2] eqn:E2;
    apply off_path_execGit in E2; try done;
    [|intros [= <- <-]; by eapply off_path_trans].
  destruct (CommitTree git_proc t a _ w2) as [[d|?] w3] eqn:E3;
    apply off_path_execGit in E3; try done;
    [|intros [= <- <-]; eapply off_path_trans; [|done]; by eapply off_path_trans].
  destruct (Cherry git_proc targetRef d w3) as [[c|?] w4] eqn:E4;
    apply off_path_execGit in E4; try done;
    intros [= <- <-];
    (eapply off_path_trans; [|done]); (eapply off_path_trans; [|done]);
    by eapply off_path_trans.
Qed.

Lemma off_path_decide_gone (localRef targetRef branch : string) (w w' : world S)
    (v : result SyncVerdict) :
  decide_gone git_proc localRef targetRef branch w = (v, w') -> off_checkout_path w w'.
Proof.
  unfold decide_gone, bind, ret.
  destruct (NewRange git_proc localRef targetRef w) as [[r|err] w0] eqn:E;
    apply off_path_NewRange in E; [|by intros [= <- <-]].
  destruct (IsAncestor git_proc r w0) as [anc w1] eqn:E1.
  apply off_path_Run in E1; [|done].
  destruct anc; simpl.
  - intros [= <- <-]. by eapply off_path_trans.
  - destruct (isSquashMerged git_proc localRef targetRef branch w1) as [sq w2] eqn:E2.
    apply off_path_isSquashMerged in E2.
    destruct sq; intros [= <- <-];
      (eapply off_path_trans; [|done]); by eapply off_path_trans.
Qed.

(** Away from the current branch a verdict runs at most the pointer update or
    the forced delete, and leaves the current branch as it was. *)
Lemma apply_verdict_not_current (e : env) (currentBranch branch ref : string)
    (v : SyncVerdict) (w w' : world S) (f : flow) :
  branch <> currentBranch ->
  apply_verdict git_proc e currentBranch branch ref v w = (f, w') ->
  calls w' = calls w ++
    match v with
    | FastForward _ => [["update-ref"; "refs/heads/" +:+ branch; ref]]
    | Deleted _ => [["branch"; "-D"; branch]]
    | _ => []
    end
  /\ (forall cb', f = Continue cb' -> cb' = currentBranch).
Proof.
  intros Hne. unfold apply_verdict. destruct v as [|from| |from|].
  - intros [= <- <-]. rewrite app_nil_r. split; [done|]. by intros ? [= <-].
  - rewrite decide_False by exact Hne. unfold UpdateRef.
    destruct (git_proc ["update-ref"; "refs/heads/" +:+ branch; ref] (backend w))
      as [c s'] eqn:E.
    unfold bind at 1. unfold bind at 1. rewrite (mutation_after _ _ _ _ E).
    unfold ret at 1. destruct (status c); simpl.
    + intros [= <- <-]. split; [done|]. intros ? [=].
    + destruct (first7 from); unfold bind, ret, Fprintf_stdout; intros [= <- <-];
        (split; [done|]); by intros ? [= <-].
  - unfold bind, ret, Fprintf_stderr. intros [= <- <-]. simpl.
    rewrite app_nil_r. split; [done|]. by intros ? [= <-].
  - rewrite decide_False by exact Hne. unfold bind at 1. unfold ret at 1.
    unfold DeleteBranch.
    destruct (git_proc ["branch"; "-D"; branch] (backend w)) as [c s'] eqn:E.
    unfold bind at 1. rewrite (mutation_after _ _ _ _ E).
    destruct (status c); unfold ret at 1.
    + intros [= <- <-]. split; [done|]. intros ? [=].
    + destruct (first7 from); unfold bind, ret, Fprintf_stdout; intros [= <- <-];
        (split; [done|]); by intros ? [= <-].
  - unfold bind, ret, Fprintf_stderr. intros [= <- <-]. simpl.
    rewrite app_nil_r. split; [done|]. by intros ? [= <-].
Qed.

Lemma sync_branch_not_current (e : env) (currentBranch branch : string)
    (w w' : world S) (f : flow) :
  branch <> currentBranch ->
  sync_branch git_proc e currentBranch branch w = (f, w') ->
  off_checkout_path w w' /\ (forall cb', f = Continue cb' -> cb' = currentBranch).
Proof.
  intros Hne. unfold sync_branch. unfold bind at 1.
  destruct (resolve_counterpart git_proc e branch w) as [[ref gone] w0] eqn:E0.
  apply off_path_resolve_counterpart in E0.
  assert (Happly : forall v ref w1,
             apply_verdict git_proc e currentBranch branch ref v w1 = (f, w') ->
             off_checkout_path w1 w' /\
             (forall cb', f = Continue cb' -> cb' = currentBranch)).
  { intros v ref' w1 H. apply apply_verdict_not_current in H as [H1 H2]; [|done].
    split; [|done]. eexists. split; [exact H1|]. destruct v; by repeat constructor. }
  case_decide.
  - unfold bind. destruct (decide_resolved git_proc _ ref w0) as [[v|err] w1] eqn:E1;
      apply off_path_decide_resolved in E1.
    + intros H'. apply Happly in H' as [H1 H2]. split; [|done].
      eapply off_path_trans; [|done]. by eapply off_path_trans.
    + intros [= <- <-]. split; [by eapply off_path_trans|]. intros ? [=].
  - destruct gone.
    + unfold bind. destruct (decide_gone git_proc _ _ branch w0) as [[v|err] w1] eqn:E1;
        apply off_path_decide_gone in E1.
      * intros H'. apply Happly in H' as [H1 H2]. split; [|done].
        eapply off_path_trans; [|done]. by eapply off_path_trans.
      * intros [= <- <-]. split; [by eapply off_path_trans|]. intros ? [=].
    + intros [= <- <-]. split; [done|]. by intros ? [= <-].
Qed.

Lemma sync_loop_detached (e : env) (branches : list string) (w w' : world S)
    (o : outcome) :
  "" ∉ branches ->
  sync_loop git_proc e "" branches w = (o, w') -> off_checkout_path w w'.
Proof.
  revert w. induction branches as [|b bs IH]; intros w Hin; simpl.
  - intros [= <- <-]. by apply off_path_refl.
  - apply not_elem_of_cons in Hin as [Hb Hbs]. unfold bind.
    destruct (sync_branch git_proc e "" b w) as [f w1] eqn:E.
    apply sync_branch_not_current in E as [E1 E2]; [|done].
    destruct f as [cb'| |].
    + rewrite (E2 cb' eq_refl). intros H. apply IH in H; [|done].
      by eapply off_path_trans.
    + by intros [= <- <-].
    + by intros [= <- <-].
Qed.

End Facts.

Section Detached.

Context {S : Type}.
Variable git_proc : list string -> S -> completed * S.

(** The iterations over branches other than the current one leave the
    current-branch name as it was. *)
Lemma runs_through_keeps_current (e : env) (cb cb' : string) (before : list string)
    (w w' : world S) :
  runs_through git_proc e cb w before cb' w' -> cb ∉ before -> cb' = cb.
Proof.
  induction 1 as [cb w|cb cb1 cb2 branch rest w w1 w2 Hstep Hrest IH]; [done|].
  intros [Hb Hr]%not_elem_of_cons.
  apply sync_branch_not_current in Hstep as [_ Hcb]; [|done].
  rewrite (Hcb cb1 eq_refl) in IH. by apply IH.
Qed.

(** C9. When the current branch cannot be resolved, the run goes on with the
    empty name.  [sync] fetches, reads the configuration, lists the branches
    and runs its loop over them with the empty current-branch name; as long
    as no listed branch has the empty name, every branch of the listing is
    examined with that empty name, a branch found behind its counterpart is
    moved by the pointer update alone, and a branch found merged is removed
    by the forced delete alone.  No process of the checked-out path
    ([git merge], [git checkout]) runs from the failure on. *)
Theorem detached_head_skips_checkout_path (useColor : bool) (remote d : string)
    (err : error) (w w1 w2 w3 : world S) :
  MainRemote git_proc w = (Ok remote, w1) ->
  DefaultBranch git_proc remote w1 = (d, w2) ->
  CurrentBranch git_proc w2 = (Err err, w3) ->
  (forall w4 m w5 branches w6,
      Fetch git_proc remote w3 = (None, w4) ->
      BranchRemotes git_proc w4 = (m, w5) ->
      LocalBranches git_proc w5 = (Ok branches, w6) ->
      "" ∉ branches) ->
  (forall o w', sync git_proc useColor w = (o, w') -> off_checkout_path w3 w')
  /\ (forall e branch ref from w0 f w0',
        branch <> "" ->
        (apply_verdict git_proc e "" branch ref (FastForward from) w0 = (f, w0') ->
         calls w0' = calls w0 ++ [["update-ref"; "refs/heads/" +:+ branch; ref]])
        /\ (apply_verdict git_proc e "" branch ref (Deleted from) w0 = (f, w0') ->
            calls w0' = calls w0 ++ [["branch"; "-D"; branch]]))
  /\ (forall w4 m w5 branches w6,
        Fetch git_proc remote w3 = (None, w4) ->
        BranchRemotes git_proc w4 = (m, w5) ->
        LocalBranches git_proc w5 = (Ok branches, w6) ->
        let e := Env (palette_of useColor) remote d
                     ("refs/remotes/" +:+ remote +:+ "/" +:+ d) m in
        sync git_proc useColor w = sync_loop git_proc e "" branches w6
        /\ forall before branch rest cb' w7,
             branches = before ++ branch :: rest ->
             runs_through git_proc e "" w6 before cb' w7 ->
             cb' = ""
             /\ sync git_proc useColor w
                = (let '(f, w8) := sync_branch git_proc e "" branch w7 in
                   match f with
                   | Continue currentBranch' => sync_loop git_proc e currentBranch' rest w8
                   | ReturnErr err' => (Returned (Some err'), w8)
                   | Panic => (Panicked, w8)
                   end)
             /\ (forall ref gone wa from wb,
                   resolve_counterpart git_proc e branch w7 = ((ref, gone), wa) ->
                   ref <> "" ->
                   decide_resolved git_proc ("refs/heads/" +:+ branch) ref wa
                   = (Ok (FastForward from), wb) ->
                   exists f w8,
                     sync_branch git_proc e "" branch w7 = (f, w8)
                     /\ calls w8
                        = calls wb ++ [["update-ref"; "refs/heads/" +:+ branch; ref]])
             /\ (forall wa from wb,
                   resolve_counterpart git_proc e branch w7 = (("", true), wa) ->
                   decide_gone git_proc ("refs/heads/" +:+ branch) (defaultRef e) branch wa
                   = (Ok (Deleted from), wb) ->
                   exists f w8,
                     sync_branch git_proc e "" branch w7 = (f, w8)
                     /\ calls w8 = calls wb ++ [["branch"; "-D"; branch]])).
Proof.
  intros Hremote Hdefault Hcurrent Hnames. split; [|split].
  - intros o w'. unfold sync. unfold bind at 1. rewrite Hremote.
    unfold bind at 1. rewrite Hdefault. unfold bind at 1. rewrite Hcurrent.
    unfold bind at 1. destruct (Fetch git_proc remote w3) as [[ferr|] w4] eqn:Ef.
    + intros [= <- <-]. unfold Fetch, Spawn, bind, ret in Ef.
      destruct (exec_Command git_proc _ w3) as [c w4'] eqn:Ec.
      apply exec_Command_issued in Ec as [Ec _]. injection Ef as _ <-.
      apply (off_path_issued _ _ _ Ec). by constructor.
    + assert (Hf : off_checkout_path w3 w4).
      { unfold Fetch, Spawn, bind, ret in Ef.
        destruct (exec_Command git_proc _ w3) as [c w4'] eqn:Ec.
        apply exec_Command_issued in Ec as [Ec _]. injection Ef as _ <-.
        apply (off_path_issued _ _ _ Ec). by constructor. }
      unfold bind at 1. destruct (BranchRemotes git_proc w4) as [m w5] eqn:Em.
      assert (Hm : off_checkout_path w4 w5).
      { unfold BranchRemotes, bind, ret in Em.
        destruct (execGit git_proc _ w4) as [r w5'] eqn:Ec.
        apply off_path_execGit in Ec; [|done]. destruct r; by injection Em as _ <-. }
      unfold bind at 1. destruct (LocalBranches git_proc w5) as [[branches|lerr] w6] eqn:El.
      * assert (Hl : off_checkout_path w5 w6).
        { unfold LocalBranches, bind, ret in El.
          destruct (execGit git_proc _ w5) as [r w6'] eqn:Ec.
          apply off_path_execGit in Ec; [|done]. destruct r; by injection El as _ <-. }
        intros H. apply sync_loop_detached in H; [|by eapply Hnames].
        eapply off_path_trans; [|exact H].
        eapply off_path_trans; [|exact Hl]. by eapply off_path_trans.
      * intros [= <- <-].
        assert (Hl : off_checkout_path w5 w6).
        { unfold LocalBranches, bind, ret in El.
          destruct (execGit git_proc _ w5) as [r w6'] eqn:Ec.
          apply off_path_execGit in Ec; [|done]. destruct r; by injection El as _ <-. }
        eapply off_path_trans; [|exact Hl]. by eapply off_path_trans.
  - intros e branch ref from w0 f w0' Hne. split; intros H;
      by apply apply_verdict_not_current in H as [H _].
  - intros w4 m w5 branches w6 Hfetch Hconfig Hlist e.
    assert (Hsync : sync git_proc useColor w = sync_loop git_proc e "" branches w6).
    { unfold sync. unfold bind at 1. rewrite Hremote.
      unfold bind at 1. rewrite Hdefault. unfold bind at 1. rewrite Hcurrent.
      unfold bind at 1. rewrite Hfetch. unfold bind at 1. rewrite Hconfig.
      unfold bind at 1. by rewrite Hlist. }
    split; [exact Hsync|].
    intros before branch rest cb' w7 Hsplit Hruns.
    pose proof (Hnames _ _ _ _ _ Hfetch Hconfig Hlist) as Hno. rewrite Hsplit in Hno.
    apply not_elem_of_app in Hno as [Hbefore [Hbranch _]%not_elem_of_cons].
    assert (cb' = "") as -> by by eapply runs_through_keeps_current.
    split; [done|]. split; [|split].
    + rewrite Hsync, Hsplit, (sync_loop_app git_proc e before _ "" "" w6 w7 Hruns).
      cbn [sync_loop]. unfold bind, ret.
      destruct (sync_branch git_proc e "" branch w7) as [[cb1|err'|] w8]; done.
    + intros ref gone wa from wb Hres Hne Hdec.
      rewrite (sync_branch_resolved git_proc e "" branch ref gone w7 wa Hres Hne), Hdec.
      destruct (apply_verdict git_proc e "" branch ref (FastForward from) wb)
        as [f w8] eqn:Ea.
      exists f, w8. split; [done|].
      by apply apply_verdict_not_current in Ea as [Ea _].
    + intros wa from wb Hres Hdec.
      rewrite (sync_branch_gone git_proc e "" branch w7 wa Hres), Hdec.
      destruct (apply_verdict git_proc e "" branch "" (Deleted from) wb)
        as [f w8] eqn:Ea.
      exists f, w8. split; [done|].
      by apply apply_verdict_not_current in Ea as [Ea _].
Qed.

End Detached.


(** * Properties over the modelled repository *)

(** ** Text *)

Lemma append_cons (c : ascii) (a b : string) : String c a +:+ b = String c (a +:+ b).
Proof. reflexivity. Qed.

Lemma append_nil (a : string) : "" +:+ a = a.
Proof. reflexivity. Qed.

Lemma append_assoc (a b c : string) : (a +:+ b) +:+ c = a +:+ b +:+ c.
Proof. induction a as [|x a IH]; [done|]. by rewrite !append_cons, IH. Qed.

Lemma length_append (a b : string) :
  String.length (a +:+ b) = String.length a + String.length b.
Proof. induction a as [|x a IH]; [done|]. rewrite append_cons. simpl. by rewrite IH. Qed.

Lemma strip_prefix_append (p x : string) : strip_prefix p (p +:+ x) = Some x.
Proof.
  induction p as [|c p IH]; [done|].
  rewrite append_cons. simpl. by rewrite Ascii.eqb_refl.
Qed.

Lemma strip_suffix_append (suf x : string) : strip_suffix suf (x +:+ suf) = Some x.
Proof.
  induction x as [|c x IH].
  - rewrite append_nil. destruct suf; simpl; by rewrite ?Ascii.eqb_refl, ?String.eqb_refl.
  - rewrite append_cons.
    assert (Hne : String.eqb (String c (x +:+ suf)) suf = false).
    { apply String.eqb_neq. intros H. apply (f_equal String.length) in H.
      simpl in H. rewrite length_append in H. lia. }
    simpl strip_suffix.
    change (match suf with "" => false | String c2 s2' => if Ascii.eqb c c2 then String.eqb (x +:+ suf) s2' else false end)
      with (String.eqb (String c (x +:+ suf)) suf).
    rewrite Hne. by rewrite IH.
Qed.

Lemma prefix_append (p x : string) : String.prefix p (p +:+ x) = true.
Proof.
  induction p as [|c p IH]; [by destruct x|].
  rewrite append_cons. simpl. destruct (ascii_dec c c); [done|congruence].
Qed.

Lemma no_space_no_newline (x : string) : no_space x = true -> no_newline x = true.
Proof.
  induction x as [|c x IH]; [done|]. simpl.
  intros [Hc Hx]%andb_true_iff. rewrite IH by done.
  destruct (Ascii.eqb c newline) eqn:E; [|done].
  apply Ascii.eqb_eq in E. subst c. done.
Qed.

Lemma clean_no_space (x : string) : clean x = true -> no_space x = true.
Proof. by destruct x. Qed.

Lemma clean_nonempty (x : string) : clean x = true -> x <> "".
Proof. by destruct x. Qed.

Lemma hex_digit_no_space (c : ascii) : hex_digit c = true -> is_space c = false.
Proof.
  unfold hex_digit. simpl. rewrite !orb_true_iff, !Ascii.eqb_eq.
  intros H. repeat (destruct H as [H|H]; [by subst c|]). done.
Qed.

Lemma all_hex_no_space (x : string) : all_hex x = true -> no_space x = true.
Proof.
  induction x as [|c x IH]; [done|]. simpl.
  intros [Hc Hx]%andb_true_iff. by rewrite (hex_digit_no_space _ Hc), IH.
Qed.

Lemma hex_name_clean (x : string) : hex_name x = true -> clean x = true.
Proof. destruct x; [done|]. apply all_hex_no_space. Qed.

Lemma clean_line (x : string) : clean x = true -> line x = true.
Proof. destruct x; [done|]. apply no_space_no_newline. Qed.

Lemma line_no_newline (x : string) : line x = true -> no_newline x = true.
Proof. by destruct x. Qed.

Lemma line_nonempty (x : string) : line x = true -> x <> "".
Proof. by destruct x. Qed.

(** [TrimRight] after a text without newlines. *)
Lemma TrimRight_append (x t : string) :
  no_newline x = true ->
  TrimRight (x +:+ t) endl =
    match TrimRight t endl with
    | EmptyString => x
    | t' => x +:+ t'
    end.
Proof.
  induction x as [|c x IH]; intros Hx.
  - rewrite append_nil. by destruct (TrimRight t endl).
  - simpl in Hx. apply andb_true_iff in Hx as [Hc Hx]. apply negb_true_iff in Hc.
    rewrite append_cons. simpl TrimRight. rewrite (IH Hx).
    destruct (TrimRight t endl) as [|d t'] eqn:Et.
    + destruct x; [|done]. by rewrite Hc.
    + rewrite append_cons. by destruct x.
Qed.

Lemma TrimRight_newline (t : string) :
  TrimRight (endl +:+ t) endl =
    match TrimRight t endl with
    | EmptyString => EmptyString
    | t' => endl +:+ t'
    end.
Proof. unfold endl. rewrite append_cons, append_nil. simpl. by destruct (TrimRight t endl). Qed.

Lemma Split_line (x : string) : no_newline x = true -> Split x newline = [x].
Proof.
  induction x as [|c x IH]; [done|]. simpl.
  intros [Hc Hx]%andb_true_iff. apply negb_true_iff in Hc. by rewrite Hc, IH.
Qed.

Lemma Split_append (x t : string) :
  no_newline x = true -> Split (x +:+ endl +:+ t) newline = x :: Split t newline.
Proof.
  induction x as [|c x IH]; intros Hx.
  - unfold endl. rewrite append_nil, append_cons, append_nil. simpl. done.
  - simpl in Hx. apply andb_true_iff in Hx as [Hc Hx]. apply negb_true_iff in Hc.
    rewrite append_cons. simpl. by rewrite Hc, IH.
Qed.

(** What [splitLines] makes of the lines git printed. *)
Lemma splitLines_unlines (l : list string) :
  Forall (fun x => line x = true) l ->
  splitLines (TrimRight (unlines l) endl) = l.
Proof.
  induction 1 as [|x l Hx Hl IH]; [done|].
  simpl unlines.
  rewrite TrimRight_append by by apply line_no_newline.
  rewrite TrimRight_newline.
  destruct (TrimRight (unlines l) endl) as [|d t] eqn:Et.
  - simpl. unfold splitLines in IH |- *. simpl in IH. subst l.
    rewrite decide_False by by apply line_nonempty.
    by apply Split_line, line_no_newline.
  - change (endl +:+ String d t) with (String newline (String d t)).
    cbv beta iota.
    change (String newline (String d t)) with (endl +:+ String d t).
    assert (Hne : x +:+ endl +:+ String d t <> "").
    { destruct x; [done|]. by rewrite append_cons. }
    unfold splitLines. rewrite decide_False by done.
    rewrite Split_append by by apply line_no_newline.
    unfold splitLines in IH. rewrite decide_False in IH by done. by rewrite IH.
Qed.

Lemma TrimRight_line (x : string) :
  no_newline x = true -> TrimRight (unlines [x]) endl = x.
Proof.
  intros Hx. simpl. rewrite TrimRight_append by done. by rewrite TrimRight_newline.
Qed.

(** ** Association lists *)

Lemma has_key_assoc {V} (k : string) (l : list (string * V)) :
  has_key k l = true <-> exists v, assoc k l = Some v.
Proof. unfold has_key. destruct (assoc k l); naive_solver. Qed.

Lemma has_key_cons {V} (k k' : string) (v : V) (l : list (string * V)) :
  has_key k ((k', v) :: l) = String.eqb k' k || has_key k l.
Proof. unfold has_key. simpl. by destruct (String.eqb k' k). Qed.

(** ** Ancestry in the modelled history *)

Lemma is_ancestor_keys (cs : list (string * commit)) (a b : string) :
  is_ancestor cs a b = true -> has_key a cs = true /\ has_key b cs = true.
Proof.
  revert a b. induction cs as [|[c obj] older IH]; intros a b; simpl; [done|].
  rewrite !has_key_cons. destruct (String.eqb c b) eqn:Ecb.
  - apply String.eqb_eq in Ecb as ->. intros [H|H]%orb_true_iff.
    + apply String.eqb_eq in H as ->. by rewrite String.eqb_refl.
    + apply existsb_exists in H as (p & _ & Hp). apply IH in Hp as [Ha _].
      rewrite Ha. by rewrite orb_true_r.
  - intros H. apply IH in H as [Ha Hb]. by rewrite Ha, Hb, !orb_true_r.
Qed.

Lemma is_ancestor_refl (cs : list (string * commit)) (a : string) :
  has_key a cs = true -> is_ancestor cs a a = true.
Proof.
  induction cs as [|[c obj] older IH]; [done|]. simpl. rewrite has_key_cons.
  destruct (String.eqb c a) eqn:E; [by rewrite String.eqb_refl|]. exact IH.
Qed.

Lemma parent_older (c : string) (obj : commit) (older : list (string * commit))
    (p : string) :
  history_ok ((c, obj) :: older) = true -> p ∈ parents obj ->
  has_key p older = true /\ String.eqb c p = false.
Proof.
  simpl. intros [[Hc Hps]%andb_true_iff _]%andb_true_iff Hp.
  rewrite forallb_forall in Hps. apply list_elem_of_In in Hp.
  pose proof (Hps p Hp) as Hk. split; [done|].
  apply String.eqb_neq. intros ->. by rewrite Hk in Hc.
Qed.

Lemma parent_in_cons (c : string) (obj : commit) (older : list (string * commit))
    (p x : string) :
  String.eqb c x = false ->
  parent_in ((c, obj) :: older) p x <-> parent_in older p x.
Proof. intros H. unfold parent_in. simpl. by rewrite H. Qed.

Lemma parent_in_keys (cs : list (string * commit)) (p c : string) :
  history_ok cs = true -> parent_in cs p c ->
  has_key p cs = true /\ has_key c cs = true.
Proof.
  induction cs as [|[c0 obj0] older IH]; intros Hok (obj & Hc & Hp); [done|].
  rewrite !has_key_cons. simpl in Hc. destruct (String.eqb c0 c) eqn:E.
  - injection Hc as ->. destruct (parent_older _ _ _ _ Hok Hp) as [Hk _].
    by rewrite Hk, orb_true_r.
  - simpl in Hok. apply andb_true_iff in Hok as [_ Hok].
    destruct (IH Hok (ex_intro _ obj (conj Hc Hp))) as [H1 H2].
    by rewrite H1, H2, !orb_true_r.
Qed.

(** A child of an ancestor's descendant: ancestry extends by one parent
    link at the young end. *)
Lemma is_ancestor_step (cs : list (string * commit)) (a p c : string) :
  history_ok cs = true -> parent_in cs p c ->
  is_ancestor cs a p = true -> is_ancestor cs a c = true.
Proof.
  induction cs as [|[c0 obj0] older IH]; intros Hok (obj & Hc & Hp) Ha; [done|].
  simpl in Hc. simpl. destruct (String.eqb c0 c) eqn:E.
  - injection Hc as ->. destruct (parent_older _ _ _ _ Hok Hp) as [Hk Hne].
    simpl in Ha. rewrite Hne in Ha.
    apply orb_true_iff. right. apply existsb_exists. exists p.
    split; [by apply list_elem_of_In|done].
  - assert (Hok' : history_ok older = true).
    { simpl in Hok. by apply andb_true_iff in Hok as [_ Hok]. }
    assert (Hpk : has_key p older = true).
    { by destruct (parent_in_keys older p c Hok' (ex_intro _ obj (conj Hc Hp))). }
    assert (Hne : String.eqb c0 p = false).
    { apply String.eqb_neq. intros ->. simpl in Hok.
      apply andb_true_iff in Hok as [[Hc0 _]%andb_true_iff _]. by rewrite Hpk in Hc0. }
    simpl in Ha. rewrite Hne in Ha. apply IH; [done| |done]. by exists obj.
Qed.

Lemma strict_ancestor_is_ancestor (cs : list (string * commit)) (a b : string) :
  history_ok cs = true -> strict_ancestor cs a b -> is_ancestor cs a b = true.
Proof.
  intros Hok Htc.
  assert (Ha : has_key a cs = true).
  { destruct Htc as [x y H|x y z H _]; by destruct (parent_in_keys _ _ _ Hok H). }
  apply tc_rtc in Htc. revert b Htc. apply rtc_ind_r.
  - by apply is_ancestor_refl.
  - intros y z _ Hyz IH. by eapply is_ancestor_step.
Qed.

Lemma age_bound (cs : list (string * commit)) (x : string) : age cs x <= List.length cs.
Proof.
  induction cs as [|[c obj] older IH]; simpl; [lia|].
  destruct (String.eqb c x); lia.
Qed.

Lemma parent_is_older (cs : list (string * commit)) (p c : string) :
  history_ok cs = true -> parent_in cs p c -> age cs p < age cs c.
Proof.
  induction cs as [|[c0 obj0] older IH]; intros Hok (obj & Hc & Hp); [done|].
  simpl in Hc. simpl. destruct (String.eqb c0 c) eqn:E.
  - injection Hc as ->. destruct (parent_older _ _ _ _ Hok Hp) as [_ Hne].
    rewrite Hne. pose proof (age_bound older p). lia.
  - assert (Hok' : history_ok older = true).
    { simpl in Hok. by apply andb_true_iff in Hok as [_ Hok]. }
    assert (Hpk : has_key p older = true).
    { by destruct (parent_in_keys older p c Hok' (ex_intro _ obj (conj Hc Hp))). }
    assert (Hne : String.eqb c0 p = false).
    { apply String.eqb_neq. intros ->. simpl in Hok.
      apply andb_true_iff in Hok as [[Hc0 _]%andb_true_iff _]. by rewrite Hpk in Hc0. }
    rewrite Hne. apply IH; [done|]. by exists obj.
Qed.

Lemma strict_ancestor_is_older (cs : list (string * commit)) (a b : string) :
  history_ok cs = true -> strict_ancestor cs a b -> age cs a < age cs b.
Proof.
  intros Hok. induction 1 as [x y H|x y z H _ IH].
  - by apply parent_is_older.
  - pose proof (parent_is_older _ _ _ Hok H). lia.
Qed.

Lemma is_ancestor_not_younger (cs : list (string * commit)) (a b : string) :
  history_ok cs = true -> is_ancestor cs a b = true -> a = b \/ age cs a < age cs b.
Proof.
  revert a b. induction cs as [|[c obj] older IH]; intros a b Hok; [done|].
  assert (Hok' : history_ok older = true).
  { simpl in Hok. by apply andb_true_iff in Hok as [_ Hok]. }
  assert (Hc : has_key c older = false).
  { simpl in Hok. apply andb_true_iff in Hok as [[Hc _]%andb_true_iff _].
    by apply negb_true_iff in Hc. }
  simpl. destruct (String.eqb c b) eqn:Ecb.
  - intros [H|H]%orb_true_iff; [left; by apply String.eqb_eq|].
    apply existsb_exists in H as (p & _ & Hp).
    destruct (String.eqb c a) eqn:Eca.
    + left. apply String.eqb_eq in Ecb, Eca. congruence.
    + right. destruct (is_ancestor_keys _ _ _ Hp) as [_ Hpk].
      pose proof (age_bound older a). lia.
  - intros H. destruct (is_ancestor_keys _ _ _ H) as [Hak _].
    destruct (String.eqb c a) eqn:Eca.
    + apply String.eqb_eq in Eca as ->. congruence.
    + by apply IH.
Qed.

(** ** Package git over the modelled repository *)

Lemma model_NewRange (a b : string) (w : world repo) :
  (forall x, resolve (backend w) a = Some x -> clean x = true) ->
  (forall y, resolve (backend w) b = Some y -> clean y = true) ->
  NewRange git a b w =
    (match resolve (backend w) a, resolve (backend w) b with
     | Some x, Some y => Ok (mkRange x y)
     | _, _ => Err exit_status_1
     end, after w ["rev-parse"; "--quiet"; a; b] (backend w)).
Proof.
  intros Ha Hb. unfold NewRange, RevParse, bind, ret. rewrite execGit_eq.
  change (git (["rev-parse"; "--quiet"] ++ [a; b]) (backend w))
    with (git_rev_parse ["--quiet"; a; b] (backend w)).
  unfold git_rev_parse. simpl.
  destruct (resolve (backend w) a) as [x|]; [|done].
  destruct (resolve (backend w) b) as [y|]; [|done].
  cbn [ok fst snd status stdout prints].
  rewrite splitLines_unlines; [done|].
  repeat constructor; apply clean_line; auto.
Qed.

Lemma model_IsAncestor (r : Range) (w : world repo) :
  IsAncestor git r w =
    (match resolve (backend w) (A r), resolve (backend w) (B r) with
     | Some x, Some y => is_ancestor (commits (backend w)) x y
     | _, _ => false
     end, after w ["merge-base"; "--is-ancestor"; A r; B r] (backend w)).
Proof.
  unfold IsAncestor. rewrite Run_eq.
  change (git ["merge-base"; "--is-ancestor"; A r; B r] (backend w))
    with (git_merge_base ["--is-ancestor"; A r; B r] (backend w)).
  unfold git_merge_base. simpl.
  destruct (resolve (backend w) (A r)) as [x|]; [|done].
  destruct (resolve (backend w) (B r)) as [y|]; [|done].
  by destruct (is_ancestor (commits (backend w)) x y).
Qed.

Lemma forallb_assoc {V} (P : string * V -> bool) (l : list (string * V)) (k : string)
    (v : V) :
  forallb P l = true -> assoc k l = Some v -> P (k, v) = true.
Proof.
  induction l as [|[k' v'] l IH]; [done|]. simpl.
  intros [Hh Ht]%andb_true_iff. destruct (String.eqb k' k) eqn:E.
  - apply String.eqb_eq in E as ->. by intros [= ->].
  - by apply IH.
Qed.

Lemma forallb_has_key {V} (P : string * V -> bool) (l : list (string * V)) (k : string) :
  forallb P l = true -> has_key k l = true -> exists v, P (k, v) = true.
Proof.
  intros H [v Hv]%has_key_assoc. exists v. by eapply forallb_assoc.
Qed.

(** In a repository whose references are sound, a revision that resolves
    names a commit of the repository. *)
Lemma resolve_refs_ok (s : repo) (rev x : string) :
  refs_ok s = true -> resolve s rev = Some x ->
  has_key x (commits s) = true /\ hex_name x = true.
Proof.
  unfold refs_ok. intros [[Hh Ht]%andb_true_iff Hc]%andb_true_iff.
  assert (Hhex : has_key x (commits s) = true -> hex_name x = true).
  { intros Hk. by destruct (forallb_has_key _ _ _ Hc Hk) as [v Hv]. }
  unfold resolve. destruct (has_key rev (commits s)) eqn:E.
  - intros [= <-]. auto.
  - unfold lookup_ref. destruct (strip_prefix "refs/heads/" rev) as [b|].
    + intros H. pose proof (forallb_assoc _ _ _ _ Hh H) as Hk. simpl in Hk. auto.
    + intros H. pose proof (forallb_assoc _ _ _ _ Ht H) as Hk. simpl in Hk. auto.
Qed.

Lemma resolve_commit (s : repo) (x : string) :
  has_key x (commits s) = true -> resolve s x = Some x.
Proof. intros H. unfold resolve. by rewrite H. Qed.

(** C7. In a repository with a sound, cycle-free history, every Range that
    [NewRange] builds from two references satisfies: when its two commits are
    the same, [IsIdentical] and [IsAncestor] are both true; when the first is
    a strict ancestor of the second, [IsIdentical] is false, [IsAncestor] is
    true, and the Range of the references in the other order is built too and
    has [IsAncestor] false. *)
Theorem Range_identity_and_ancestry (a b : string) (w w' : world repo) (r : Range) :
  history_ok (commits (backend w)) = true ->
  refs_ok (backend w) = true ->
  NewRange git a b w = (Ok r, w') ->
  (A r = B r -> IsIdentical r = true /\ (IsAncestor git r w').1 = true)
  /\ (strict_ancestor (commits (backend w)) (A r) (B r) ->
      IsIdentical r = false
      /\ (IsAncestor git r w').1 = true
      /\ exists r' w'',
           NewRange git b a w' = (Ok r', w'')
           /\ r' = mkRange (B r) (A r) /\ (IsAncestor git r' w'').1 = false).
Proof.
  intros Hhist Hrefs Hrange.
  assert (Hclean : forall rev x, resolve (backend w) rev = Some x -> clean x = true).
  { intros rev x H. apply hex_name_clean. by destruct (resolve_refs_ok _ _ _ Hrefs H). }
  rewrite model_NewRange in Hrange by eauto.
  destruct (resolve (backend w) a) as [x|] eqn:Ea; [|done].
  destruct (resolve (backend w) b) as [y|] eqn:Eb; [|done].
  injection Hrange as <- <-. simpl.
  destruct (resolve_refs_ok _ _ _ Hrefs Ea) as [Hx _].
  destruct (resolve_refs_ok _ _ _ Hrefs Eb) as [Hy _].
  split.
  - intros <-. split; [unfold IsIdentical; by apply bool_decide_eq_true_2|].
    rewrite model_IsAncestor. simpl. rewrite resolve_commit by done.
    by apply is_ancestor_refl.
  - intros Hstrict.
    pose proof (strict_ancestor_is_older _ _ _ Hhist Hstrict) as Hage.
    split; [|split].
    + unfold IsIdentical. simpl. apply bool_decide_eq_false_2. intros ->. lia.
    + rewrite model_IsAncestor. simpl. rewrite !resolve_commit by done.
      by apply strict_ancestor_is_ancestor.
    + do 2 eexists. split; [|split; [reflexivity|]].
      { rewrite model_NewRange by (simpl; eauto). simpl. by rewrite Ea, Eb. }
      rewrite model_IsAncestor. simpl. rewrite !resolve_commit by done.
      apply not_true_is_false. intros Hrev.
      destruct (is_ancestor_not_younger _ _ _ Hhist Hrev) as [->|Hlt]; lia.
Qed.

(** ** Reading the configuration *)

Lemma no_space_append (a b : string) :
  no_space (a +:+ b) = no_space a && no_space b.
Proof.
  induction a as [|c a IH]; [done|]. rewrite append_cons. simpl.
  by rewrite IH, andb_assoc.
Qed.

Lemma re_blanks_rest_no_space (u : string) : no_space u = true -> re_blanks_rest u = None.
Proof.
  destruct u as [|c u]; [done|]. simpl.
  intros [Hc _]%andb_true_iff. apply negb_true_iff in Hc. by rewrite Hc.
Qed.

Lemma no_space_drop (n : nat) (u : string) :
  no_space u = true -> no_space (drop_bytes n u) = true.
Proof.
  revert u. induction n as [|n IH]; intros u; [done|].
  destruct u as [|c u]; [done|]. simpl. intros [_ Hu]%andb_true_iff. by apply IH.
Qed.

Lemma re_tail_no_space (u : string) : no_space u = true -> re_tail u = None.
Proof.
  intros H. unfold re_tail. destruct (HasPrefix u ".remote"); [|done].
  by apply re_blanks_rest_no_space, no_space_drop.
Qed.

Lemma re_any_tail_cons (c : ascii) (r : string) :
  re_any_tail (String c r) =
    match (if Ascii.eqb c newline then None else re_any_tail r) with
    | Some (g, v) => Some (String c g, v)
    | None =>
        match re_tail (String c r) with
        | Some v => Some (EmptyString, v)
        | None => None
        end
    end.
Proof. reflexivity. Qed.

Lemma re_any_tail_no_space (u : string) : no_space u = true -> re_any_tail u = None.
Proof.
  induction u as [|c u IH]; [done|]. intros H.
  rewrite re_any_tail_cons, (re_tail_no_space _ H).
  simpl in H. apply andb_true_iff in H as [_ H]. rewrite (IH H).
  by destruct (Ascii.eqb c newline).
Qed.

Lemma re_rest_clean (v : string) : clean v = true -> re_rest v = Some v.
Proof.
  destruct v as [|c v]; [done|]. intros H. unfold re_rest.
  by rewrite (no_space_no_newline _ H).
Qed.

Lemma re_any_tail_separator (v : string) :
  clean v = true -> re_any_tail (".remote " +:+ v) = Some ("", v).
Proof.
  intros Hv. pose proof (clean_no_space _ Hv) as Hs.
  change (".remote " +:+ v)
    with (String "." (String "r" (String "e" (String "m" (String "o" (String "t"
            (String "e" (String " " v)))))))).
  rewrite !re_any_tail_cons. rewrite (re_any_tail_no_space _ Hs).
  cbn [Ascii.eqb Bool.eqb newline].
  unfold re_tail at 1 2 3 4 5 6 7. simpl HasPrefix.
  cbv iota. unfold re_tail. simpl HasPrefix. cbv iota. simpl drop_bytes.
  simpl re_blanks_rest. rewrite (re_blanks_rest_no_space _ Hs).
  rewrite (re_rest_clean _ Hv). simpl. done.
Qed.

Lemma re_any_tail_name (n v : string) :
  no_space n = true -> clean v = true ->
  re_any_tail (n +:+ ".remote " +:+ v) = Some (n, v).
Proof.
  intros Hn Hv. induction n as [|c n IH].
  - rewrite append_nil. by apply re_any_tail_separator.
  - simpl in Hn. apply andb_true_iff in Hn as [Hc Hn].
    rewrite append_cons, re_any_tail_cons, (IH Hn).
    assert (Ascii.eqb c newline = false) as ->; [|done].
    apply Ascii.eqb_neq. intros ->. done.
Qed.

(** What [FindStringSubmatch] finds in a line that [git config] printed for
    a clean branch name and a clean remote name. *)
Lemma FindStringSubmatch_config_line (n v : string) :
  clean n = true -> clean v = true ->
  FindStringSubmatch_branch_remote ("branch." +:+ n +:+ ".remote " +:+ v) = Some (n, v).
Proof.
  intros Hn Hv. unfold FindStringSubmatch_branch_remote.
  unfold HasPrefix. rewrite prefix_append.
  change (drop_bytes 7 ("branch." +:+ n +:+ ".remote " +:+ v))
    with (n +:+ ".remote " +:+ v).
  destruct n as [|c n]; [done|]. rewrite append_cons.
  simpl in Hn. apply andb_true_iff in Hn as [Hc Hn].
  rewrite (re_any_tail_name _ _ Hn Hv).
  assert (Ascii.eqb c newline = false) as ->; [|done].
  apply Ascii.eqb_neq. intros ->. done.
Qed.

Lemma BranchRemotes_fold (entries : list (string * (string * string)))
    (m : gmap string string) (b : string) :
  Forall (fun e => clean e.1 = true /\ clean e.2.1 = true) entries ->
  foldl (fun res line =>
           match FindStringSubmatch_branch_remote line with
           | Some (name, remote) => <[name := remote]> res
           | None => res
           end) m (List.map config_line entries) !! b
  = match assoc_last b entries with
    | Some (r, _) => Some r
    | None => m !! b
    end.
Proof.
  intros H. revert m. induction H as [|[n [r mg]] entries [Hn Hr] _ IH]; intros m; [done|].
  simpl in Hn, Hr. cbn [List.map foldl assoc_last].
  change (config_line (n, (r, mg))) with ("branch." +:+ n +:+ ".remote " +:+ r).
  rewrite (FindStringSubmatch_config_line _ _ Hn Hr). rewrite IH.
  destruct (assoc_last b entries) as [[r' m']|]; [done|].
  destruct (String.eqb n b) eqn:E.
  - apply String.eqb_eq in E as ->. by rewrite lookup_insert_eq.
  - apply String.eqb_neq in E. by rewrite lookup_insert_ne.
Qed.

(** ** Well-formed repositories *)

Lemma names_ok_spec (s : repo) : names_ok s = true <-> names_ok_facts s.
Proof.
  unfold names_ok. rewrite !andb_true_iff. split.
  - intros [[[[[[H1 H2] H3] H4] H5] H6] H7]. split; try done.
    intros h Hh. by rewrite Hh in H7.
  - intros [H1 H2 H3 H4 H5 H6 H7]. repeat split; try done.
    destruct (HEAD s) as [h|]; [by apply H7|done].
Qed.

Lemma hex_not_ref (r : string) : hex_name ("refs/" +:+ r) = false.
Proof. reflexivity. Qed.

Lemma commits_not_refs (s : repo) (r : string) :
  forallb (fun c : string * commit => hex_name c.1) (commits s) = true ->
  has_key ("refs/" +:+ r) (commits s) = false.
Proof.
  intros H. apply not_true_is_false. intros Hk.
  destruct (forallb_has_key _ _ _ H Hk) as [v Hv].
  change (hex_name ("refs/" +:+ r) = true) in Hv.
  by rewrite hex_not_ref in Hv.
Qed.

Lemma resolve_head (s : repo) (b : string) :
  forallb (fun c : string * commit => hex_name c.1) (commits s) = true ->
  resolve s ("refs/heads/" +:+ b) = assoc b (heads s).
Proof.
  intros H. unfold resolve.
  change ("refs/heads/" +:+ b) with ("refs/" +:+ "heads/" +:+ b) at 1.
  rewrite (commits_not_refs _ _ H). unfold lookup_ref.
  by rewrite strip_prefix_append.
Qed.

Lemma lookup_ref_remote (s : repo) (r : string) :
  lookup_ref s ("refs/remotes/" +:+ r) = assoc ("refs/remotes/" +:+ r) (tracking s).
Proof. reflexivity. Qed.

Lemma resolve_remote (s : repo) (r : string) :
  forallb (fun c : string * commit => hex_name c.1) (commits s) = true ->
  resolve s ("refs/remotes/" +:+ r) = assoc ("refs/remotes/" +:+ r) (tracking s).
Proof.
  intros H. unfold resolve.
  change ("refs/remotes/" +:+ r) with ("refs/" +:+ "remotes/" +:+ r) at 1.
  by rewrite (commits_not_refs _ _ H).
Qed.

Lemma resolve_hex (s : repo) (rev x : string) :
  names_ok s = true -> resolve s rev = Some x -> hex_name x = true.
Proof.
  intros [H1 H2 H3 H4 H5 H6 H7]%names_ok_spec. unfold resolve.
  destruct (has_key rev (commits s)) eqn:E.
  - intros [= <-]. by destruct (forallb_has_key _ _ _ H6 E) as [v Hv].
  - unfold lookup_ref. destruct (strip_prefix "refs/heads/" rev) as [b|].
    + intros H. pose proof (forallb_assoc _ _ _ _ H2 H) as Hk. simpl in Hk.
      by apply andb_true_iff in Hk as [_ Hk].
    + intros H. exact (forallb_assoc _ _ _ _ H3 H).
Qed.

Lemma quiet_refl (w : world repo) : quiet w w.
Proof. repeat split. exists []. by rewrite app_nil_r. Qed.

Lemma quiet_trans (w1 w2 w3 : world repo) : quiet w1 w2 -> quiet w2 w3 -> quiet w1 w3.
Proof.
  intros (H1 & H2 & x & Hx & Fx) (H4 & H5 & y & Hy & Fy).
  split; [congruence|]. split; [congruence|].
  exists (x ++ y). rewrite Hy, Hx, app_assoc. split; [done|]. by apply Forall_app.
Qed.

Lemma quiet_after (w : world repo) (args : list string) :
  mutating args = false -> quiet w (after w args (backend w)).
Proof. intros H. repeat split. exists [args]. split; [done|]. by constructor. Qed.

Lemma quiet_step (w w1 : world repo) (args : list string) :
  quiet w w1 -> mutating args = false -> quiet w (after w1 args (backend w)).
Proof.
  intros Hq Hm. eapply quiet_trans; [exact Hq|].
  destruct Hq as [<- _]. by apply quiet_after.
Qed.

Ltac quiet_steps :=
  repeat first [ apply quiet_refl | assumption
               | apply quiet_step; [|reflexivity] ].

Lemma quiet_warning (w : world repo) (line : string) :
  quiet w {| backend := backend w; calls := calls w; out := out w;
             errout := errout w ++ [line] |}.
Proof. repeat split. exists []. by rewrite app_nil_r. Qed.

Ltac pure_query :=
  repeat match goal with
         | |- context [match ?x with _ => _ end] => destruct x
         | |- context [if ?x then _ else _] => destruct x
         end;
  try reflexivity.

(** Every process but the mutating ones and [fetch] leaves the repository as
    it is. *)
Lemma git_query (args : list string) (s : repo) :
  mutating args = false -> hd "" args <> "fetch" -> (git args s).2 = s.
Proof.
  destruct args as [|cmd rest]; [done|]. simpl hd. intros Hm Hf.
  unfold git, mutating in *.
  destruct (String.eqb cmd "remote") eqn:E1.
  { unfold git_remote. by pure_query. }
  destruct (String.eqb cmd "symbolic-ref") eqn:E2.
  { unfold git_symbolic_ref. by pure_query. }
  destruct (String.eqb cmd "show-ref") eqn:E3.
  { unfold git_show_ref. by pure_query. }
  destruct (String.eqb cmd "fetch") eqn:E4.
  { by apply String.eqb_eq in E4. }
  destruct (String.eqb cmd "config") eqn:E5.
  { unfold git_config. by pure_query. }
  destruct (String.eqb cmd "branch") eqn:E6.
  { unfold git_branch. destruct rest as [|f [|r [|]]]; try reflexivity.
    - by pure_query.
    - apply String.eqb_eq in E6 as ->. simpl in Hm. by rewrite Hm. }
  destruct (String.eqb cmd "rev-parse") eqn:E7.
  { unfold git_rev_parse. by pure_query. }
  destruct (String.eqb cmd "merge-base") eqn:E8.
  { unfold git_merge_base. by pure_query. }
  destruct (String.eqb cmd "merge") eqn:E9; [done|].
  destruct (String.eqb cmd "update-ref") eqn:E10; [done|].
  destruct (String.eqb cmd "checkout") eqn:E11; [done|].
  destruct (String.eqb cmd "commit-tree") eqn:E12.
  { unfold git_commit_tree. by pure_query. }
  destruct (String.eqb cmd "cherry") eqn:E13; [|done].
  unfold git_cherry. by pure_query.
Qed.

Lemma execGit_query (args : list string) (w : world repo) :
  mutating args = false -> hd "" args <> "fetch" ->
  execGit git args w =
    (match status (git args (backend w)).1 with
     | Some err => Err err
     | None => Ok (TrimRight (stdout (git args (backend w)).1) endl)
     end, after w args (backend w)).
Proof. intros Hm Hf. by rewrite execGit_eq, (git_query _ _ Hm Hf). Qed.

Lemma Run_query (args : list string) (w : world repo) :
  mutating args = false -> hd "" args <> "fetch" ->
  Run git args w =
    (match status (git args (backend w)).1 with
     | Some _ => false
     | None => true
     end, after w args (backend w)).
Proof. intros Hm Hf. by rewrite Run_eq, (git_query _ _ Hm Hf). Qed.

Lemma forallb_assoc_last {V} (P : string * V -> bool) (l : list (string * V))
    (k : string) (v : V) :
  forallb P l = true -> assoc_last k l = Some v -> P (k, v) = true.
Proof.
  induction l as [|[k' v'] l IH]; [done|]. simpl.
  intros [Hh Ht]%andb_true_iff. destruct (assoc_last k l) as [v0|] eqn:E.
  - intros [= ->]. by apply IH.
  - destruct (String.eqb k' k) eqn:E'; [|done].
    apply String.eqb_eq in E' as ->. by intros [= ->].
Qed.

Lemma upstream_shape (s : repo) (b ref : string) :
  names_ok s = true -> upstream s b = Some ref ->
  exists r, ref = "refs/remotes/" +:+ r /\ no_space r = true.
Proof.
  intros [_ _ _ _ Hc _ _]%names_ok_spec. unfold upstream.
  destruct (assoc_last b (config s)) as [[r m]|] eqn:E; [|done].
  pose proof (forallb_assoc_last _ _ _ _ Hc E) as H. simpl in H.
  apply andb_true_iff in H as [[_ Hr]%andb_true_iff Hm].
  destruct (has_key _ _); [|done]. intros [= <-].
  exists (r +:+ "/" +:+ m). split; [done|].
  rewrite !no_space_append, (clean_no_space _ Hr), (clean_no_space _ Hm). done.
Qed.

Lemma model_UpstreamRef (b : string) (w : world repo) :
  names_ok (backend w) = true ->
  UpstreamRef git b w =
    (match upstream (backend w) b with
     | Some ref => Ok ref
     | None => Err exit_status_1
     end, after w ["rev-parse"; "--symbolic-full-name"; b +:+ "@{upstream}"] (backend w)).
Proof.
  intros Hok. unfold UpstreamRef. rewrite execGit_query by done.
  change (git ["rev-parse"; "--symbolic-full-name"; b +:+ "@{upstream}"] (backend w))
    with (git_rev_parse ["--symbolic-full-name"; b +:+ "@{upstream}"] (backend w)).
  unfold git_rev_parse. cbn [String.eqb Ascii.eqb Bool.eqb].
  rewrite strip_suffix_append.
  destruct (upstream (backend w) b) as [ref|] eqn:E; [|done].
  destruct (upstream_shape _ _ _ Hok E) as (r & -> & Hr).
  cbn [ok fst snd status stdout prints]. rewrite TrimRight_line; [done|].
  apply no_space_no_newline. by rewrite no_space_append, Hr.
Qed.

Lemma model_HasRef (ref : string) (w : world repo) :
  HasRef git ref w =
    (match lookup_ref (backend w) ref with Some _ => true | None => false end,
     after w ["show-ref"; "--verify"; "--quiet"; ref] (backend w)).
Proof.
  unfold HasRef. rewrite Run_query by done.
  change (git ["show-ref"; "--verify"; "--quiet"; ref] (backend w))
    with (git_show_ref ["--verify"; "--quiet"; ref] (backend w)).
  unfold git_show_ref. cbn [String.eqb Ascii.eqb Bool.eqb andb].
  by destruct (lookup_ref (backend w) ref).
Qed.

(** ** The classifier over the modelled repository *)

Lemma model_resolve_counterpart (e : env) (b : string) (w : world repo) :
  names_ok (backend w) = true ->
  exists w1, resolve_counterpart git e b w = (m_counterpart e (backend w) b, w1)
             /\ quiet w w1.
Proof.
  intros Hok. unfold resolve_counterpart, m_counterpart, bind, ret. case_decide.
  - rewrite model_UpstreamRef by done. eexists. split.
    + by destruct (upstream (backend w) b).
    + by apply quiet_after.
  - rewrite model_HasRef.
    change ("refs/remotes/" +:+ remote e +:+ "/" +:+ b)
      with ("refs/remotes/" +:+ (remote e +:+ "/" +:+ b)).
    rewrite lookup_ref_remote. unfold has_key. eexists. split.
    + by destruct (assoc _ (tracking (backend w))).
    + by apply quiet_after.
Qed.

Lemma model_NewRange_ok (a b : string) (w : world repo) :
  names_ok (backend w) = true ->
  NewRange git a b w =
    (m_range (backend w) a b, after w ["rev-parse"; "--quiet"; a; b] (backend w)).
Proof.
  intros Hok. apply model_NewRange; intros x Hx;
    by apply hex_name_clean, (resolve_hex _ _ _ Hok Hx).
Qed.

Lemma execGit_answer (args : list string) (w : world repo) :
  mutating args = false -> hd "" args <> "fetch" ->
  execGit git args w = (answer (backend w) args, after w args (backend w)).
Proof. apply execGit_query. Qed.

Lemma model_isSquashMerged (l t n : string) (w : world repo) :
  exists w1, isSquashMerged git l t n w = (m_squashed (backend w) l t n, w1)
             /\ quiet w w1.
Proof.
  unfold m_squashed, isSquashMerged, bind, ret.
  unfold MergeBase, TreeHash, CommitTree, Cherry.
  rewrite execGit_answer by done.
  destruct (answer (backend w) ["merge-base"; t; l]) as [an|].
  2:{ eexists. split; [reflexivity|]. quiet_steps. }
  rewrite execGit_answer by done. cbn [backend after].
  destruct (answer (backend w) ["rev-parse"; l +:+ "^{tree}"]) as [tr|].
  2:{ eexists. split; [reflexivity|]. quiet_steps. }
  rewrite execGit_answer by done. cbn [backend after].
  destruct (answer (backend w) ["commit-tree"; tr; "-p"; an; "-m"; _]) as [dg|].
  2:{ eexists. split; [reflexivity|]. quiet_steps. }
  rewrite execGit_answer by done. cbn [backend after].
  destruct (answer (backend w) ["cherry"; t; dg]);
    (eexists; split; [reflexivity|]; quiet_steps).
Qed.

(** One iteration of the loop over the modelled repository: the classifier
    decides without touching anything, then the verdict is applied. *)
Lemma model_sync_branch (e : env) (cb b : string) (w : world repo) :
  names_ok (backend w) = true ->
  exists w1,
    quiet w w1 /\
    sync_branch git e cb b w =
      match m_decision e (backend w) b with
      | Skip => (Continue cb, w1)
      | Broken err => (ReturnErr err, w1)
      | Decided ref v => apply_verdict git e cb b ref v w1
      end.
Proof.
  intros Hok. unfold sync_branch, m_decision. unfold bind at 1.
  destruct (model_resolve_counterpart e b w Hok) as (w0 & -> & Hq0).
  assert (Hb : backend w0 = backend w) by apply Hq0.
  assert (Hok0 : names_ok (backend w0) = true) by by rewrite Hb.
  destruct (m_counterpart e (backend w) b) as [ref gone].
  case_decide.
  - unfold decide_resolved, bind, ret. rewrite model_NewRange_ok by done.
    rewrite !Hb. destruct (m_range (backend w) _ ref) as [r|err].
    + destruct (IsIdentical r).
      * eexists. split; [|reflexivity]. quiet_steps.
      * rewrite model_IsAncestor. cbn [backend after]. fold (m_ancestor (backend w) r).
        destruct (m_ancestor (backend w) r);
          (eexists; split; [|reflexivity]; quiet_steps).
    + eexists. split; [|reflexivity]. quiet_steps.
  - destruct gone; [|by exists w0].
    unfold decide_gone, bind, ret. rewrite model_NewRange_ok by done.
    rewrite !Hb. destruct (m_range (backend w) _ (defaultRef e)) as [r|err].
    + rewrite model_IsAncestor. cbn [backend after]. fold (m_ancestor (backend w) r).
      destruct (m_ancestor (backend w) r); cbn [negb orb].
      * eexists. split; [|reflexivity]. quiet_steps.
      * destruct (model_isSquashMerged ("refs/heads/" +:+ b) (defaultRef e) b
                    (after (after w0 ["rev-parse"; "--quiet"; "refs/heads/" +:+ b; defaultRef e]
                              (backend w))
                       ["merge-base"; "--is-ancestor"; A r; B r] (backend w)))
          as (w2 & -> & Hq2). cbn [backend after].
        destruct (m_squashed (backend w) _ _ b);
          (eexists; split; [|reflexivity]);
          (eapply quiet_trans; [|exact Hq2]); quiet_steps.
    + eexists. split; [|reflexivity]. quiet_steps.
Qed.

(** ** Rebinding and removing keys *)

Section Keys.

Context {V : Type}.
Implicit Types (l : list (string * V)) (k x : string) (v : V).

Lemma assoc_set_key_eq k v l : assoc k (set_key k v l) = Some v.
Proof.
  unfold set_key. destruct (has_key k l) eqn:E.
  - induction l as [|[k' v'] l IH]; [done|].
    rewrite has_key_cons in E. simpl. destruct (String.eqb k' k) eqn:E'.
    + simpl. by rewrite String.eqb_refl.
    + simpl. rewrite E'. by apply IH.
  - unfold has_key in E. induction l as [|[k' v'] l IH]; simpl.
    + by rewrite String.eqb_refl.
    + simpl in E. destruct (String.eqb k' k); [done|]. by apply IH.
Qed.

Lemma assoc_set_key_ne k x v l : x <> k -> assoc x (set_key k v l) = assoc x l.
Proof.
  intros Hne. unfold set_key. destruct (has_key k l).
  - induction l as [|[k' v'] l IH]; [done|]. simpl.
    destruct (String.eqb k' k) eqn:E'.
    + apply String.eqb_eq in E' as ->. simpl.
      assert (String.eqb k x = false) as -> by (apply String.eqb_neq; congruence).
      exact IH.
    + simpl. destruct (String.eqb k' x); [done|exact IH].
  - induction l as [|[k' v'] l IH]; simpl.
    + by assert (String.eqb k x = false) as -> by (apply String.eqb_neq; congruence).
    + destruct (String.eqb k' x); [done|exact IH].
Qed.

Lemma keys_set_key k v l :
  has_key k l = true -> List.map fst (set_key k v l) = List.map fst l.
Proof.
  intros H. unfold set_key. rewrite H. clear H.
  induction l as [|[k' v'] l IH]; [done|]. simpl. rewrite IH.
  destruct (String.eqb k' k) eqn:E; [|done]. by apply String.eqb_eq in E as ->.
Qed.

Lemma has_key_keys x l : has_key x l = existsb (String.eqb x) (List.map fst l).
Proof.
  induction l as [|[k' v'] l IH]; [done|]. rewrite has_key_cons. simpl.
  by rewrite IH, (String.eqb_sym k' x).
Qed.

Lemma forallb_set_key (P : string * V -> bool) k v l :
  P (k, v) = true -> forallb P l = true -> forallb P (set_key k v l) = true.
Proof.
  intros Hk Hl. unfold set_key. destruct (has_key k l).
  - induction l as [|[k' v'] l IH]; [done|]. simpl in *.
    apply andb_true_iff in Hl as [H1 H2]. rewrite (IH H2), andb_true_r.
    by destruct (String.eqb k' k).
  - rewrite forallb_app, Hl. simpl. by rewrite Hk.
Qed.

Lemma assoc_remove_key_eq k l : assoc k (remove_key k l) = None.
Proof.
  induction l as [|[k' v'] l IH]; [done|]. unfold remove_key in *. simpl.
  destruct (String.eqb k' k) eqn:E; simpl; [done|]. by rewrite E.
Qed.

Lemma assoc_remove_key_ne k x l : x <> k -> assoc x (remove_key k l) = assoc x l.
Proof.
  intros Hne. induction l as [|[k' v'] l IH]; [done|]. unfold remove_key in *. simpl.
  destruct (String.eqb k' k) eqn:E; simpl.
  - apply String.eqb_eq in E as ->. rewrite IH.
    assert (String.eqb k x = false) as Hkx by (apply String.eqb_neq; congruence).
    by rewrite Hkx.
  - destruct (String.eqb k' x); [done|exact IH].
Qed.

Lemma assoc_last_remove_key_ne k x l :
  x <> k -> assoc_last x (remove_key k l) = assoc_last x l.
Proof.
  intros Hne. induction l as [|[k' v'] l IH]; [done|]. unfold remove_key in *. simpl.
  destruct (String.eqb k' k) eqn:E; simpl.
  - apply String.eqb_eq in E as ->. rewrite IH.
    assert (String.eqb k x = false) as Hkx by (apply String.eqb_neq; congruence).
    rewrite Hkx. by destruct (assoc_last x l).
  - by rewrite IH.
Qed.

Lemma forallb_remove_key (P : string * V -> bool) k l :
  forallb P l = true -> forallb P (remove_key k l) = true.
Proof.
  intros H. apply forallb_forall. intros x [Hx _]%filter_In.
  rewrite forallb_forall in H. by apply H.
Qed.

Lemma keys_remove_key k l :
  List.map fst (remove_key k l)
  = List.filter (fun x => negb (String.eqb x k)) (List.map fst l).
Proof.
  induction l as [|[k' v'] l IH]; [done|]. unfold remove_key in *. simpl.
  destruct (String.eqb k' k); simpl; by rewrite IH.
Qed.

End Keys.

Lemma distinct_filter (P : string -> bool) (l : list string) :
  distinct l = true -> distinct (List.filter P l) = true.
Proof.
  induction l as [|x l IH]; [done|]. simpl.
  intros [Hx Hl]%andb_true_iff. destruct (P x); [|by apply IH].
  simpl. rewrite (IH Hl), andb_true_r.
  apply negb_true_iff, not_true_is_false. intros (y & Hy & Hxy)%existsb_exists.
  apply filter_In in Hy as [Hy _].
  apply negb_true_iff in Hx. apply not_true_iff_false in Hx. apply Hx.
  apply existsb_exists. eauto.
Qed.

(** ** Mutations keep the repository well formed *)

Lemma names_ok_set_head (s : repo) (b c : string) :
  names_ok s = true -> has_key b (heads s) = true -> hex_name c = true ->
  names_ok (with_heads s (set_key b c (heads s))) = true.
Proof.
  intros [H1 H2 H3 H4 H5 H6 H7]%names_ok_spec Hb Hc. apply names_ok_spec.
  split; try done; simpl.
  - by rewrite keys_set_key.
  - apply forallb_set_key; [|done]. simpl. rewrite Hc, andb_true_r.
    destruct (forallb_has_key _ _ _ H2 Hb) as [v Hv]. simpl in Hv.
    by apply andb_true_iff in Hv as [Hv _].
Qed.

Lemma names_ok_checkout (s : repo) (d : string) :
  names_ok s = true -> has_key d (heads s) = true ->
  names_ok (with_HEAD s (Some d)) = true.
Proof.
  intros [H1 H2 H3 H4 H5 H6 H7]%names_ok_spec Hd. apply names_ok_spec.
  split; try done; simpl. intros h [= <-].
  destruct (forallb_has_key _ _ _ H2 Hd) as [v Hv]. simpl in Hv.
  by apply andb_true_iff in Hv as [Hv _].
Qed.

Lemma names_ok_without_branch (s : repo) (b : string) :
  names_ok s = true -> names_ok (without_branch s b) = true.
Proof.
  intros [H1 H2 H3 H4 H5 H6 H7]%names_ok_spec. apply names_ok_spec.
  split; try done; simpl.
  - rewrite keys_remove_key. by apply distinct_filter.
  - by apply forallb_remove_key.
  - by apply forallb_remove_key.
Qed.

Lemma names_ok_fetch (s : repo) (r : string) :
  names_ok s = true -> names_ok (with_tracking s (fetched s r)) = true.
Proof.
  intros [H1 H2 H3 H4 H5 H6 H7]%names_ok_spec. apply names_ok_spec.
  split; try done; simpl. unfold fetched. rewrite forallb_app. apply andb_true_iff. split.
  - destruct (assoc r (served s)) as [bs|] eqn:E; [|done]. simpl.
    pose proof (forallb_assoc _ _ _ _ H4 E) as Hbs. simpl in Hbs.
    rewrite forallb_forall in Hbs. apply forallb_forall.
    intros x (y & <- & Hy)%in_map_iff. simpl. by apply Hbs.
  - apply forallb_forall. intros x [Hx _]%filter_In.
    rewrite forallb_forall in H3. by apply H3.
Qed.

(** ** What a verdict does to the modelled repository *)

Lemma git_update_ref_head (s : repo) (b target : string) :
  git ["update-ref"; "refs/heads/" +:+ b; target] s =
    match resolve s target with
    | Some c => (prints "", with_heads s (set_key b c (heads s)))
    | None => ko s
    end.
Proof.
  change (git ["update-ref"; "refs/heads/" +:+ b; target] s)
    with (git_update_ref ["refs/heads/" +:+ b; target] s).
  unfold git_update_ref. by rewrite strip_prefix_append.
Qed.

Lemma model_apply_quiet (e : env) (cb b ref : string) (v : SyncVerdict)
    (w : world repo) :
  match v with FastForward _ | Deleted _ => False | _ => True end ->
  exists w', apply_verdict git e cb b ref v w = (Continue cb, w') /\ quiet w w'.
Proof.
  destruct v; try done; intros _; unfold apply_verdict, bind, ret, Fprintf_stderr;
    eexists; (split; [reflexivity|]).
  - apply quiet_refl.
  - apply quiet_warning.
  - apply quiet_warning.
Qed.

Lemma model_apply_fast_forward (e : env) (cb cb' b ref from : string)
    (w w' : world repo) :
  cb = cur (backend w) ->
  apply_verdict git e cb b ref (FastForward from) w = (Continue cb', w') ->
  exists c,
    resolve (backend w) ref = Some c /\
    backend w' = with_heads (backend w) (set_key b c (heads (backend w))) /\
    cb' = cb.
Proof.
  intros Hcb. unfold apply_verdict. case_decide as Hb.
  - unfold MergeFFOnly. unfold bind at 1. unfold bind at 1.
    destruct (git ["merge"; "--ff-only"; "--quiet"; ref] (backend w)) as [c s'] eqn:E.
    rewrite (mutation_after _ _ _ _ _ E). unfold ret at 1.
    destruct (status c) as [err|] eqn:Hst; [done|]. simpl.
    intros H.
    assert (Hw : backend w' = s' /\ cb' = cb).
    { destruct (first7 from); unfold bind, ret, Fprintf_stdout in H; [|done].
      by injection H as <- <-. }
    destruct Hw as [-> ->]. clear H.
    change (git ["merge"; "--ff-only"; "--quiet"; ref] (backend w))
      with (git_merge ["--ff-only"; "--quiet"; ref] (backend w)) in E.
    unfold git_merge in E. cbn [String.eqb Ascii.eqb Bool.eqb andb] in E.
    unfold cur in Hcb. destruct (HEAD (backend w)) as [h|] eqn:Eh.
    2:{ injection E as <- <-. done. }
    simpl in Hcb. subst h. subst b.
    destruct (resolve (backend w) ref) as [c0|] eqn:Er.
    2:{ injection E as <- <-. done. }
    destruct (assoc cb (heads (backend w))) as [a|] eqn:Ea.
    2:{ injection E as <- <-. done. }
    destruct (is_ancestor _ a c0).
    2:{ injection E as <- <-. done. }
    injection E as <- <-. by exists c0.
  - unfold UpdateRef. unfold bind at 1. unfold bind at 1.
    destruct (git ["update-ref"; "refs/heads/" +:+ b; ref] (backend w)) as [c s'] eqn:E.
    rewrite (mutation_after _ _ _ _ _ E). unfold ret at 1.
    destruct (status c) as [err|] eqn:Hst; [done|]. simpl.
    intros H.
    assert (Hw : backend w' = s' /\ cb' = cb).
    { destruct (first7 from) eqn:E7; unfold bind, ret, Fprintf_stdout in H; [|done].
      by injection H as <- <-. }
    destruct Hw as [-> ->].
    rewrite git_update_ref_head in E.
    destruct (resolve (backend w) ref) as [c0|] eqn:Er.
    2:{ injection E as <- <-. done. }
    injection E as <- <-. by exists c0.
Qed.

Lemma has_key_remove_key {V} (k x : string) (l : list (string * V)) :
  has_key x (remove_key k l) = negb (String.eqb x k) && has_key x l.
Proof.
  unfold has_key. destruct (String.eqb x k) eqn:E.
  - apply String.eqb_eq in E as ->. by rewrite assoc_remove_key_eq.
  - apply String.eqb_neq in E. by rewrite assoc_remove_key_ne.
Qed.

Lemma model_apply_deleted (e : env) (cb cb' b ref from : string)
    (w w' : world repo) :
  cb = cur (backend w) ->
  apply_verdict git e cb b ref (Deleted from) w = (Continue cb', w') ->
  exists h,
    backend w' = without_branch (with_HEAD (backend w) h) b /\
    cb' = cur (backend w') /\
    (h = HEAD (backend w) \/
     (h = Some (defaultBranch e) /\
      has_key (defaultBranch e) (heads (backend w)) = true)).
Proof.
  intros Hcb. unfold apply_verdict.
  assert (Hdel : forall (w1 : world repo) cb1,
             cb1 = cur (backend w1) ->
             bind (DeleteBranch git b)
               (fun m => match m with
                         | Some err => ret (ReturnErr (Errorf_w ("failed to delete " +:+ b +:+ ": ") err))
                         | None =>
                             match first7 from with
                             | Some short =>
                                 bind (Fprintf_stdout
                                         (red (pal e) +:+ "Deleted branch " +:+ brightRed (pal e)
                                          +:+ b +:+ reset (pal e) +:+ " (was " +:+ short +:+ ")."
                                          +:+ endl))
                                      (fun _ => ret (Continue cb1))
                             | None => ret Panic
                             end
                         end) w1 = (Continue cb', w') ->
             backend w' = without_branch (backend w1) b /\ cb' = cur (backend w')).
  { intros w1 cb1 Hcb1. unfold DeleteBranch. unfold bind at 1.
    destruct (git ["branch"; "-D"; b] (backend w1)) as [c s'] eqn:E.
    rewrite (mutation_after _ _ _ _ _ E).
    destruct (status c) as [err|] eqn:Hst; unfold ret at 1; [done|].
    intros H.
    assert (Hw : backend w' = s' /\ cb' = cb1).
    { destruct (first7 from) eqn:E7; unfold bind, ret, Fprintf_stdout in H; [|done].
      by injection H as <- <-. }
    destruct Hw as [-> ->].
    change (git ["branch"; "-D"; b] (backend w1))
      with (git_branch ["-D"; b] (backend w1)) in E.
    unfold git_branch in E. cbn [String.eqb Ascii.eqb Bool.eqb] in E.
    destruct (assoc b (heads (backend w1))) as [c0|].
    2:{ injection E as <- <-. done. }
    destruct (bool_decide _).
    { injection E as <- <-. done. }
    injection E as <- <-. done. }
  case_decide as Hb.
  - unfold Checkout. unfold bind at 1. unfold bind at 1.
    destruct (git ["checkout"; "--quiet"; defaultBranch e] (backend w)) as [c s'] eqn:E.
    rewrite (mutation_after _ _ _ _ _ E).
    destruct (status c) as [err|] eqn:Hst; unfold ret at 1; [done|].
    change (git ["checkout"; "--quiet"; defaultBranch e] (backend w))
      with (git_checkout ["--quiet"; defaultBranch e] (backend w)) in E.
    unfold git_checkout in E. cbn [String.eqb Ascii.eqb Bool.eqb andb] in E.
    destruct (has_key (defaultBranch e) (heads (backend w))) eqn:Ek.
    2:{ injection E as <- <-. done. }
    injection E as <- <-. intros H. apply Hdel in H as [H1 H2]; [|done].
    exists (Some (defaultBranch e)). auto.
  - unfold bind at 1. unfold ret at 1. intros H.
    apply Hdel in H as [H1 H2]; [|done].
    exists (HEAD (backend w)). split; [|by auto].
    rewrite H1. by destruct (backend w).
Qed.

(** ** What a branch's decision depends on *)

Lemma same_base_refl (s : repo) : same_base s s.
Proof. by repeat split. Qed.

Lemma same_base_trans (s1 s2 s3 : repo) :
  same_base s1 s2 -> same_base s2 s3 -> same_base s1 s3.
Proof. unfold same_base. intuition congruence. Qed.

Lemma hex_not_head (x : string) :
  hex_name x = true -> strip_prefix "refs/heads/" x = None.
Proof.
  destruct x as [|c x]; [done|]. cbn [hex_name all_hex strip_prefix].
  intros [Hc _]%andb_true_iff. destruct (Ascii.eqb "r" c) eqn:E; [|done].
  apply Ascii.eqb_eq in E. subst c. done.
Qed.

Lemma resolve_frame_head (s s' : repo) (b : string) :
  names_ok s = true -> same_base s s' ->
  assoc b (heads s') = assoc b (heads s) ->
  resolve s' ("refs/heads/" +:+ b) = resolve s ("refs/heads/" +:+ b).
Proof.
  intros [_ _ _ _ _ Hc _]%names_ok_spec (_ & _ & _ & _ & Hcs & _) Hb.
  rewrite !resolve_head by (by rewrite ?Hcs). done.
Qed.

Lemma resolve_frame_remote (s s' : repo) (r : string) :
  names_ok s = true -> same_base s s' ->
  resolve s' ("refs/remotes/" +:+ r) = resolve s ("refs/remotes/" +:+ r).
Proof.
  intros [_ _ _ _ _ Hc _]%names_ok_spec (_ & _ & _ & Ht & Hcs & _).
  rewrite !resolve_remote by (by rewrite ?Hcs). by rewrite Ht.
Qed.

Lemma resolve_frame_hex (s s' : repo) (x : string) :
  hex_name x = true -> same_base s s' -> resolve s' x = resolve s x.
Proof.
  intros Hx (_ & _ & _ & Ht & Hcs & _). unfold resolve, lookup_ref.
  by rewrite (hex_not_head _ Hx), Ht, Hcs.
Qed.

Lemma upstream_frame (s s' : repo) (b : string) :
  same_base s s' -> assoc_last b (config s') = assoc_last b (config s) ->
  upstream s' b = upstream s b.
Proof. intros (_ & _ & _ & Ht & _) Hc. unfold upstream. by rewrite Hc, Ht. Qed.

Lemma m_counterpart_shape (e : env) (s : repo) (b ref : string) (gone : bool) :
  names_ok s = true -> m_counterpart e s b = (ref, gone) -> ref <> "" ->
  exists r, ref = "refs/remotes/" +:+ r.
Proof.
  intros Hok. unfold m_counterpart. case_decide.
  - destruct (upstream s b) as [u|] eqn:E; intros [= <- <-]; [|done].
    intros _. destruct (upstream_shape _ _ _ Hok E) as (r & -> & _). by exists r.
  - destruct (has_key _ _); intros [= <- <-]; [|done]. intros _.
    by exists (remote e +:+ "/" +:+ b).
Qed.

Lemma m_counterpart_frame (e e' : env) (s s' : repo) (b : string) :
  same_base s s' -> assoc_last b (config s') = assoc_last b (config s) ->
  remote e' = remote e ->
  tracked_remote (branchRemotes e') b = tracked_remote (branchRemotes e) b ->
  m_counterpart e' s' b = m_counterpart e s b.
Proof.
  intros Hbase Hc Hr Ht. unfold m_counterpart.
  rewrite Hr, Ht, (upstream_frame _ _ _ Hbase Hc).
  destruct Hbase as (_ & _ & _ & -> & _). done.
Qed.

Lemma answer_tree (s : repo) (b : string) :
  answer s ["rev-parse"; ("refs/heads/" +:+ b) +:+ "^{tree}"] =
    match resolve s ("refs/heads/" +:+ b) with
    | Some c =>
        match assoc c (commits s) with
        | Some obj => Ok (TrimRight (unlines [tree obj]) endl)
        | None => Err exit_status_1
        end
    | None => Err exit_status_1
    end.
Proof.
  unfold answer.
  change (git ["rev-parse"; ("refs/heads/" +:+ b) +:+ "^{tree}"] s)
    with (git_rev_parse [("refs/heads/" +:+ b) +:+ "^{tree}"] s).
  unfold git_rev_parse.
  assert (String.eqb (("refs/heads/" +:+ b) +:+ "^{tree}") "--quiet" = false) as ->.
  { by rewrite append_assoc. }
  assert (String.eqb (("refs/heads/" +:+ b) +:+ "^{tree}") "--symbolic-full-name" = false)
    as ->.
  { by rewrite append_assoc. }
  rewrite strip_suffix_append.
  destruct (resolve s _) as [c|]; [|done]. by destruct (assoc c (commits s)).
Qed.

Lemma m_squashed_frame (s s' : repo) (b t name : string) :
  same_base s s' ->
  resolve s' ("refs/heads/" +:+ b) = resolve s ("refs/heads/" +:+ b) ->
  resolve s' t = resolve s t ->
  m_squashed s' ("refs/heads/" +:+ b) t name = m_squashed s ("refs/heads/" +:+ b) t name.
Proof.
  intros (_ & _ & _ & _ & Hcs & Hw & Hch) Hl Ht. unfold m_squashed.
  assert (H1 : answer s' ["merge-base"; t; "refs/heads/" +:+ b]
               = answer s ["merge-base"; t; "refs/heads/" +:+ b]).
  { unfold answer.
    change (git ["merge-base"; t; "refs/heads/" +:+ b] s')
      with (git_merge_base [t; "refs/heads/" +:+ b] s').
    change (git ["merge-base"; t; "refs/heads/" +:+ b] s)
      with (git_merge_base [t; "refs/heads/" +:+ b] s).
    unfold git_merge_base. rewrite Hl, Ht, Hcs.
    destruct (resolve s t); [|done]. destruct (resolve s _); [|done].
    by destruct (merge_base_of _ _ _). }
  rewrite H1. destruct (answer s ["merge-base"; t; _]) as [an|]; [|done].
  rewrite !answer_tree, Hl, Hcs.
  destruct (match resolve s _ with Some _ => _ | None => _ end) as [tr|]; [|done].
  assert (H3 : forall m, answer s' ["commit-tree"; tr; "-p"; an; "-m"; m]
                         = answer s ["commit-tree"; tr; "-p"; an; "-m"; m]).
  { intros m. unfold answer.
    change (git ["commit-tree"; tr; "-p"; an; "-m"; m] s')
      with (git_commit_tree [tr; "-p"; an; "-m"; m] s').
    change (git ["commit-tree"; tr; "-p"; an; "-m"; m] s)
      with (git_commit_tree [tr; "-p"; an; "-m"; m] s).
    unfold git_commit_tree. cbn [String.eqb Ascii.eqb Bool.eqb andb]. rewrite Hw.
    by destruct (written s tr an m). }
  rewrite H3. destruct (answer s ["commit-tree"; _; _; _; _; _]) as [dg|]; [|done].
  assert (H4 : answer s' ["cherry"; t; dg] = answer s ["cherry"; t; dg]).
  { unfold answer.
    change (git ["cherry"; t; dg] s') with (git_cherry [t; dg] s').
    change (git ["cherry"; t; dg] s) with (git_cherry [t; dg] s).
    unfold git_cherry. rewrite Ht, Hch.
    destruct (resolve s t); [|done]. by destruct (cherry_marks s _ _). }
  by rewrite H4.
Qed.

Lemma m_range_hex (s : repo) (a b : string) (r : Range) :
  names_ok s = true -> m_range s a b = Ok r ->
  resolve s a = Some (A r) /\ resolve s b = Some (B r) /\
  hex_name (A r) = true /\ hex_name (B r) = true.
Proof.
  intros Hok. unfold m_range.
  destruct (resolve s a) as [x|] eqn:Ea; [|done].
  destruct (resolve s b) as [y|] eqn:Eb; [|done].
  intros [= <-]. simpl. repeat split; try done; by eapply resolve_hex.
Qed.

Lemma m_ancestor_frame (s s' : repo) (r : Range) :
  hex_name (A r) = true -> hex_name (B r) = true -> same_base s s' ->
  m_ancestor s' r = m_ancestor s r.
Proof.
  intros Ha Hb Hbase. unfold m_ancestor.
  rewrite (resolve_frame_hex s s' _ Ha Hbase), (resolve_frame_hex s s' _ Hb Hbase).
  destruct Hbase as (_ & _ & _ & _ & -> & _). done.
Qed.

(** The decision for a branch looks at the branch, its configuration, the
    remote-tracking references and the commits, and at nothing else. *)
Lemma m_decision_frame (e e' : env) (s s' : repo) (b : string) :
  names_ok s = true -> same_base s s' ->
  assoc b (heads s') = assoc b (heads s) ->
  assoc_last b (config s') = assoc_last b (config s) ->
  remote e' = remote e -> defaultRef e' = defaultRef e ->
  (exists r, defaultRef e = "refs/remotes/" +:+ r) ->
  tracked_remote (branchRemotes e') b = tracked_remote (branchRemotes e) b ->
  m_decision e' s' b = m_decision e s b.
Proof.
  intros Hok Hbase Hh Hc Hr Hd (dr & Hdr) Ht. unfold m_decision.
  rewrite (m_counterpart_frame e e' s s' b Hbase Hc Hr Ht).
  destruct (m_counterpart e s b) as [ref gone] eqn:Ecp.
  pose proof (resolve_frame_head s s' b Hok Hbase Hh) as Hl.
  case_decide as Hne.
  - destruct (m_counterpart_shape _ _ _ _ _ Hok Ecp Hne) as (rr & ->).
    unfold m_range at 1. rewrite Hl, (resolve_frame_remote s s' rr Hok Hbase).
    fold (m_range s ("refs/heads/" +:+ b) ("refs/remotes/" +:+ rr)).
    destruct (m_range s _ _) as [r|err] eqn:Er; [|done].
    destruct (m_range_hex _ _ _ _ Hok Er) as (_ & _ & Ha & Hb).
    by rewrite (m_ancestor_frame s s' r Ha Hb Hbase).
  - destruct gone; [|done]. rewrite Hd, Hdr.
    unfold m_range at 1. rewrite Hl, (resolve_frame_remote s s' dr Hok Hbase).
    fold (m_range s ("refs/heads/" +:+ b) ("refs/remotes/" +:+ dr)).
    destruct (m_range s _ _) as [r|err] eqn:Er; [|done].
    destruct (m_range_hex _ _ _ _ Hok Er) as (_ & _ & Ha & Hb).
    rewrite (m_ancestor_frame s s' r Ha Hb Hbase).
    rewrite (m_squashed_frame s s' b _ b Hbase Hl (resolve_frame_remote s s' dr Hok Hbase)).
    done.
Qed.

(** ** Branches that a run leaves alone *)

Lemma settled_quiet (e : env) (cb b : string) (w : world repo) :
  names_ok (backend w) = true -> settled e (backend w) b ->
  exists w', sync_branch git e cb b w = (Continue cb, w') /\ quiet w w'.
Proof.
  intros Hok Hs. destruct (model_sync_branch e cb b w Hok) as (w1 & Hq & ->).
  unfold settled in Hs. destruct (m_decision e (backend w) b) as [|err|ref v].
  - by exists w1.
  - done.
  - destruct (model_apply_quiet e cb b ref v w1) as (w' & -> & Hq').
    { by destruct v. }
    exists w'. split; [done|]. by eapply quiet_trans.
Qed.

Lemma step_facts_refl (b : string) (s : repo) : names_ok s = true -> step_facts b s s.
Proof. intros H. by split. Qed.

Lemma m_decision_resolved (e : env) (s : repo) (b ref : string) (v : SyncVerdict) :
  names_ok s = true -> m_decision e s b = Decided ref v ->
  has_key b (heads s) = true /\
  (forall from, v = FastForward from ->
     exists r gone, m_counterpart e s b = ("refs/remotes/" +:+ r, gone)
                    /\ ref = "refs/remotes/" +:+ r).
Proof.
  intros Hok. pose proof Hok as [_ _ _ _ _ Hc _]%names_ok_spec.
  unfold m_decision.
  destruct (m_counterpart e s b) as [ref0 gone] eqn:Ecp. case_decide as Hne.
  - destruct (m_range s _ ref0) as [r|err] eqn:Er; [|done].
    intros [= <- <-]. destruct (m_range_hex _ _ _ _ Hok Er) as (Hl & _).
    rewrite resolve_head in Hl by done. split.
    + unfold has_key. by rewrite Hl.
    + intros from _. destruct (m_counterpart_shape _ _ _ _ _ Hok Ecp Hne) as (rr & ->).
      by exists rr, gone.
  - destruct gone; [|done].
    destruct (m_range s _ (defaultRef e)) as [r|err] eqn:Er; [|done].
    intros [= <- <-]. destruct (m_range_hex _ _ _ _ Hok Er) as (Hl & _).
    rewrite resolve_head in Hl by done. split.
    + unfold has_key. by rewrite Hl.
    + intros from. by destruct (_ || _).
Qed.

Lemma with_HEAD_same (s : repo) : with_HEAD s (HEAD s) = s.
Proof. by destruct s. Qed.

(** One iteration over the modelled repository that reaches the end of the
    loop body leaves a well-formed repository in which the branch is gone or
    settled, and touched nothing that another branch's decision looks at. *)
Lemma model_step (e : env) (cb cb' b : string) (w w' : world repo) :
  names_ok (backend w) = true -> cb = cur (backend w) ->
  sync_branch git e cb b w = (Continue cb', w') ->
  step_facts b (backend w) (backend w') /\ cb' = cur (backend w') /\
  (has_key b (heads (backend w')) = false \/ settled e (backend w') b).
Proof.
  intros Hok Hcb. destruct (model_sync_branch e cb b w Hok) as (w1 & Hq & ->).
  assert (Hb1 : backend w1 = backend w) by apply Hq.
  destruct (m_decision e (backend w) b) as [|err|ref v] eqn:Ed.
  - intros [= <- <-]. rewrite Hb1. split; [by apply step_facts_refl|].
    split; [done|]. right. unfold settled. by rewrite Ed.
  - done.
  - destruct (m_decision_resolved _ _ _ _ _ Hok Ed) as [Hkey Hff].
    destruct v as [|from| |from|].
    + destruct (model_apply_quiet e cb b ref UpToDate w1 I) as (w2 & -> & Hq2).
      intros [= <- <-]. destruct Hq2 as [-> _]. rewrite Hb1.
      split; [by apply step_facts_refl|]. split; [done|].
      right. unfold settled. by rewrite Ed.
    + intros H. apply model_apply_fast_forward in H as (c & Hc & Hs' & ->);
        [|by rewrite Hb1].
      rewrite Hb1 in Hc, Hs'. rewrite Hs'.
      pose proof (resolve_hex _ _ _ Hok Hc) as Hhex.
      pose proof (names_ok_set_head _ b c Hok Hkey Hhex) as Hok'.
      assert (Hbase : same_base (backend w)
                        (with_heads (backend w) (set_key b c (heads (backend w)))))
        by by repeat split.
      split; [|split].
      * split; try done.
        -- intros x Hx. simpl. by apply assoc_set_key_ne.
        -- intros x. simpl. by rewrite !has_key_keys, keys_set_key.
      * done.
      * right. destruct (Hff from eq_refl) as (r & gone & Ecp & ->).
        unfold settled, m_decision.
        rewrite (m_counterpart_frame e e _ _ b Hbase eq_refl eq_refl eq_refl), Ecp.
        rewrite decide_True by (by apply append_nonempty).
        unfold m_range.
        pose proof Hok' as [_ _ _ _ _ Hcs' _]%names_ok_spec.
        rewrite resolve_head by done. simpl heads. rewrite assoc_set_key_eq.
        rewrite (resolve_frame_remote _ _ r Hok Hbase), Hc.
        unfold IsIdentical. simpl. by rewrite bool_decide_eq_true_2.
    + destruct (model_apply_quiet e cb b ref UnpushedWarning w1 I) as (w2 & -> & Hq2).
      intros [= <- <-]. destruct Hq2 as [-> _]. rewrite Hb1.
      split; [by apply step_facts_refl|]. split; [done|].
      right. unfold settled. by rewrite Ed.
    + intros H. apply model_apply_deleted in H as (h & Hs' & -> & Hh);
        [|by rewrite Hb1].
      rewrite Hb1 in Hs', Hh. rewrite Hs'.
      assert (Hokh : names_ok (with_HEAD (backend w) h) = true).
      { destruct Hh as [->|[-> Hd]]; [by rewrite with_HEAD_same|].
        by apply names_ok_checkout. }
      split; [|split].
      * split.
        -- by apply names_ok_without_branch.
        -- by repeat split.
        -- intros x Hx. simpl. by apply assoc_remove_key_ne.
        -- intros x. simpl. rewrite has_key_remove_key.
           by intros [_ ?]%andb_true_iff.
        -- intros x Hx. simpl. apply assoc_last_remove_key_ne.
           destruct Hx as [Hx|Hx]; [done|]. simpl in Hx.
           rewrite has_key_remove_key in Hx. apply andb_true_iff in Hx as [Hx _].
           apply negb_true_iff in Hx. by apply String.eqb_neq.
      * done.
      * left. simpl. rewrite has_key_remove_key. by rewrite String.eqb_refl.
    + destruct (model_apply_quiet e cb b ref NotMergedWarning w1 I) as (w2 & -> & Hq2).
      intros [= <- <-]. destruct Hq2 as [-> _]. rewrite Hb1.
      split; [by apply step_facts_refl|]. split; [done|].
      right. unfold settled. by rewrite Ed.
Qed.

(** ** The loop over the modelled repository *)

Lemma loop_settles (e : env) (cb cb' : string) (bs : list string) (w w' : world repo) :
  runs_through git e cb w bs cb' w' ->
  (exists r, defaultRef e = "refs/remotes/" +:+ r) ->
  names_ok (backend w) = true -> cb = cur (backend w) ->
  names_ok (backend w') = true /\ cb' = cur (backend w') /\
  same_base (backend w) (backend w') /\
  (forall x, x ∉ bs -> assoc x (heads (backend w')) = assoc x (heads (backend w))) /\
  (forall x, has_key x (heads (backend w')) = true ->
             has_key x (heads (backend w)) = true) /\
  (forall x, x ∉ bs \/ has_key x (heads (backend w')) = true ->
             assoc_last x (config (backend w')) = assoc_last x (config (backend w))) /\
  (forall x, x ∈ bs ->
             has_key x (heads (backend w')) = false \/ settled e (backend w') x).
Proof.
  intros Hrun Hdef.
  induction Hrun as [cb w|cb cb1 cb2 b rest w w1 w2 Hstep Hrest IH]; intros Hok Hcb.
  - repeat split; try done. intros x Hx. inversion Hx.
  - destruct (model_step e cb cb1 b w w1 Hok Hcb Hstep) as ([Hok1 Hb1 Hh1 Hk1 Hc1] & Hcb1 & Hs1).
    destruct (IH Hok1 Hcb1) as (Hok2 & Hcb2 & Hb2 & Hh2 & Hk2 & Hc2 & Hs2).
    split; [done|]. split; [done|]. split; [by eapply same_base_trans|].
    split; [|split; [|split]].
    + intros x [Hx Hxr]%not_elem_of_cons. rewrite Hh2 by done. by apply Hh1.
    + intros x Hx. by apply Hk1, Hk2.
    + intros x Hx. rewrite Hc2.
      * apply Hc1. destruct Hx as [[Hx _]%not_elem_of_cons|Hx]; [by left|].
        right. by apply Hk2.
      * destruct Hx as [[_ Hx]%not_elem_of_cons|Hx]; [by left|by right].
    + intros x Hx. destruct (decide (x ∈ rest)) as [Hin|Hnin]; [by apply Hs2|].
      apply elem_of_cons in Hx as [->|Hx]; [|done].
      destruct Hs1 as [Habs|Hset].
      * left. apply not_true_is_false. intros Hk. apply Hk2 in Hk. congruence.
      * right. unfold settled in *.
        rewrite (m_decision_frame e e (backend w1) (backend w2) b); try done.
        -- by apply Hh2.
        -- apply Hc2. by left.
Qed.

Lemma loop_quiet (e : env) (cb : string) (bs : list string) (w : world repo) :
  names_ok (backend w) = true ->
  (forall x, x ∈ bs -> settled e (backend w) x) ->
  exists w', sync_loop git e cb bs w = (Returned None, w') /\ quiet w w'.
Proof.
  revert w. induction bs as [|b bs IH]; intros w Hok Hs.
  - exists w. split; [done|]. apply quiet_refl.
  - destruct (settled_quiet e cb b w Hok) as (w1 & Hstep & Hq1).
    { apply Hs. by left. }
    assert (Hb : backend w1 = backend w) by apply Hq1.
    destruct (IH w1) as (w2 & Hloop & Hq2).
    { by rewrite Hb. }
    { intros x Hx. rewrite Hb. apply Hs. by right. }
    exists w2. split; [|by eapply quiet_trans].
    simpl. unfold bind. by rewrite Hstep.
Qed.

(** ** The steps of [sync] before the loop *)

Lemma no_newline_append (a b : string) :
  no_newline a = true -> no_newline b = true -> no_newline (a +:+ b) = true.
Proof.
  induction a as [|c a IH]; [done|]. rewrite append_cons. simpl.
  intros [Hc Ha]%andb_true_iff Hb. by rewrite Hc, IH.
Qed.

Lemma model_MainRemote (w : world repo) :
  MainRemote git w = (main_remote (remotes (backend w)), after w ["remote"] (backend w)).
Proof.
  unfold MainRemote, bind, ret. rewrite execGit_answer by done.
  unfold answer, main_remote.
  change (git ["remote"] (backend w)) with (ok (backend w) (unlines (remotes (backend w)))).
  cbn [ok fst snd status stdout prints].
  destruct (splitLines _) as [|first rest]; [done|]. by destruct (List.find _ _).
Qed.

Lemma model_DefaultBranch (r : string) (w : world repo) :
  exists w1, DefaultBranch git r w = (default_branch (backend w) r, w1) /\ quiet w w1.
Proof.
  unfold DefaultBranch, default_branch, bind, ret. rewrite execGit_answer by done.
  destruct (answer (backend w) _) as [o|err].
  { eexists. split; [reflexivity|]. quiet_steps. }
  rewrite model_HasRef. cbn [backend after]. fold (probe (backend w) ("refs/remotes/" +:+ r +:+ "/main")).
  destruct (probe (backend w) _).
  { eexists. split; [reflexivity|]. quiet_steps. }
  rewrite model_HasRef. cbn [backend after].
  fold (probe (backend w) ("refs/remotes/" +:+ r +:+ "/master")).
  destruct (probe (backend w) _); (eexists; split; [reflexivity|]; quiet_steps).
Qed.

Lemma model_CurrentBranch (w : world repo) :
  names_ok (backend w) = true ->
  CurrentBranch git w =
    (match HEAD (backend w) with
     | Some h => Ok h
     | None => Err (errors_New "not on any branch")
     end, after w ["symbolic-ref"; "--short"; "HEAD"] (backend w)).
Proof.
  intros [_ _ _ _ _ _ Hh]%names_ok_spec.
  unfold CurrentBranch, bind, ret. rewrite execGit_answer by done. unfold answer.
  change (git ["symbolic-ref"; "--short"; "HEAD"] (backend w))
    with (match HEAD (backend w) with
          | Some b => ok (backend w) (unlines [b])
          | None => ko (backend w)
          end).
  destruct (HEAD (backend w)) as [h|]; [|done].
  cbn [ok fst snd status stdout prints].
  rewrite TrimRight_line; [done|]. by apply no_space_no_newline, clean_no_space, Hh.
Qed.

Lemma model_Fetch (r : string) (w : world repo) :
  Fetch git r w =
    if existsb (String.eqb r) (remotes (backend w))
    then (None, after w ["fetch"; "--prune"; "--quiet"; "--progress"; r]
                  (with_tracking (backend w) (fetched (backend w) r)))
    else (Some exit_status_1,
          after w ["fetch"; "--prune"; "--quiet"; "--progress"; r] (backend w)).
Proof.
  unfold Fetch, Spawn, bind, ret. rewrite exec_Command_eq.
  change (git ["fetch"; "--prune"; "--quiet"; "--progress"; r] (backend w))
    with (git_fetch ["--prune"; "--quiet"; "--progress"; r] (backend w)).
  unfold git_fetch. cbn [String.eqb Ascii.eqb Bool.eqb andb].
  by destruct (existsb (String.eqb r) (remotes (backend w))).
Qed.

Lemma model_BranchRemotes (w : world repo) :
  names_ok (backend w) = true ->
  exists m,
    BranchRemotes git w
    = (m, after w ["config"; "--get-regexp"; "^branch\..*\.remote$"] (backend w))
    /\ forall b, tracked_remote m b = config_remote (backend w) b.
Proof.
  intros [_ _ _ _ Hc _ _]%names_ok_spec.
  unfold BranchRemotes, bind, ret. rewrite execGit_answer by done. unfold answer.
  change (git ["config"; "--get-regexp"; "^branch\..*\.remote$"] (backend w))
    with (ok (backend w) (unlines (List.map config_line (config (backend w))))).
  cbn [ok fst snd status stdout prints].
  assert (Hclean : Forall (fun e : string * (string * string) =>
                             clean e.1 = true /\ clean e.2.1 = true) (config (backend w))).
  { apply Forall_forall. intros x Hx. rewrite forallb_forall in Hc.
    apply list_elem_of_In in Hx. apply Hc in Hx.
    apply andb_true_iff in Hx as [[? ?]%andb_true_iff _]. done. }
  rewrite splitLines_unlines.
  2:{ apply Forall_forall. intros x (y & -> & Hy)%list_elem_of_fmap.
      rewrite Forall_forall in Hclean. destruct (Hclean y Hy) as [H1 H2].
      unfold config_line.
      change (no_newline ("branch." +:+ y.1 +:+ ".remote " +:+ y.2.1) = true).
      apply no_newline_append; [done|].
      apply no_newline_append; [by apply no_space_no_newline, clean_no_space|].
      apply no_newline_append; [done|].
      by apply no_space_no_newline, clean_no_space. }
  eexists. split; [reflexivity|]. intros b. unfold tracked_remote, config_remote.
  rewrite (BranchRemotes_fold _ ∅ b Hclean), lookup_empty.
  by destruct (assoc_last b _) as [[r m]|].
Qed.

Lemma model_LocalBranches (w : world repo) :
  names_ok (backend w) = true ->
  LocalBranches git w =
    (Ok (List.map fst (heads (backend w))),
     after w ["branch"; "--format=%(refname:short)"] (backend w)).
Proof.
  intros [_ Hh _ _ _ _ _]%names_ok_spec.
  unfold LocalBranches, bind, ret. rewrite execGit_answer by done. unfold answer.
  change (git ["branch"; "--format=%(refname:short)"] (backend w))
    with (ok (backend w) (unlines (List.map fst (heads (backend w))))).
  cbn [ok fst snd status stdout prints].
  rewrite splitLines_unlines; [done|].
  apply Forall_forall. intros x (y & -> & Hy)%list_elem_of_fmap.
  rewrite forallb_forall in Hh. apply list_elem_of_In in Hy. apply Hh in Hy.
  apply andb_true_iff in Hy as [Hy _]. by apply clean_line.
Qed.

Lemma filter_filter_same {X} (P : X -> bool) (l : list X) :
  List.filter P (List.filter P l) = List.filter P l.
Proof.
  induction l as [|x l IH]; [done|]. simpl. destruct (P x) eqn:E; [|done].
  simpl. by rewrite E, IH.
Qed.

(** A second fetch from a remote that serves the same branches changes
    nothing. *)
Lemma fetched_again (s : repo) (r : string) :
  fetched (with_tracking s (fetched s r)) r = fetched s r.
Proof.
  unfold fetched. simpl. f_equal.
  rewrite List.filter_app, filter_filter_same.
  match goal with |- ?l ++ _ = _ => assert (l = []) as -> end; [|done].
  induction (default [] (assoc r (served s))) as [|[b c] l IH]; [done|].
  cbn [List.map List.filter fst snd].
  assert (String.prefix ("refs/remotes/" +:+ r +:+ "/")
            ("refs/remotes/" +:+ r +:+ "/" +:+ b) = true) as ->; [|exact IH].
  replace ("refs/remotes/" +:+ r +:+ "/" +:+ b)
    with (("refs/remotes/" +:+ r +:+ "/") +:+ b) by (by rewrite !append_assoc).
  apply prefix_append.
Qed.

Lemma with_tracking_same (s : repo) : with_tracking s (tracking s) = s.
Proof. by destruct s. Qed.

Lemma has_key_elem {V} (x : string) (l : list (string * V)) :
  has_key x l = true <-> x ∈ List.map fst l.
Proof.
  rewrite has_key_keys. split.
  - intros (y & Hy & ->%String.eqb_eq)%existsb_exists. by apply list_elem_of_In.
  - intros Hx. apply existsb_exists. exists x. split; [by apply list_elem_of_In|].
    apply String.eqb_refl.
Qed.

(** C8, as the program has it.  After a run that completed on a well-formed
    repository, a second run with nothing changed in between, and with the
    default branch resolving to the same name, completes too, leaves the
    repository as it is, writes no update or delete line and runs no mutating
    process: every remaining branch is up to date, skipped, or warned about
    again. *)
Theorem second_run_changes_nothing (useColor : bool) (w0 w1 : world repo) :
  names_ok (backend w0) = true ->
  sync git useColor w0 = (Returned None, w1) ->
  (forall r, (MainRemote git w0).1 = Ok r ->
             (DefaultBranch git r w1).1 = (DefaultBranch git r w0).1) ->
  exists w2, sync git useColor w1 = (Returned None, w2) /\ quiet w1 w2.
Proof.
  intros Hok0 Hrun1 Hdefault.
  (* the first run *)
  unfold sync in Hrun1. unfold bind at 1 in Hrun1.
  rewrite model_MainRemote in Hrun1.
  specialize (Hdefault) as Hdef. rewrite model_MainRemote in Hdef. simpl in Hdef.
  destruct (main_remote (remotes (backend w0))) as [r|err] eqn:Er; [|done].
  specialize (Hdef r eq_refl).
  unfold bind at 1 in Hrun1.
  destruct (model_DefaultBranch r (after w0 ["remote"] (backend w0))) as (wa & Ha & Hqa).
  rewrite Ha in Hrun1. cbn [backend after] in Hrun1.
  assert (Hba : backend wa = backend w0) by apply Hqa.
  unfold bind at 1 in Hrun1. rewrite model_CurrentBranch in Hrun1 by by rewrite Hba.
  unfold bind at 1 in Hrun1. rewrite model_Fetch in Hrun1. cbn [backend after] in Hrun1.
  rewrite Hba in Hrun1.
  destruct (existsb (String.eqb r) (remotes (backend w0))) eqn:Eremote; [|done].
  set (s1 := with_tracking (backend w0) (fetched (backend w0) r)) in *.
  assert (Hok1 : names_ok s1 = true) by by apply names_ok_fetch.
  unfold bind at 1 in Hrun1.
  match type of Hrun1 with
  | context [BranchRemotes git ?w] =>
      destruct (model_BranchRemotes w Hok1) as (m1 & Hm1 & Htr1); rewrite Hm1 in Hrun1
  end.
  cbn [backend after] in Hrun1. unfold bind at 1 in Hrun1.
  rewrite model_LocalBranches in Hrun1 by done. cbn [backend after] in Hrun1.
  set (e1 := Env (palette_of useColor) r (default_branch (backend w0) r)
                 ("refs/remotes/" +:+ r +:+ "/" +:+ default_branch (backend w0) r) m1) in *.
  apply sync_loop_completes in Hrun1 as (cb' & Hloop1).
  apply loop_settles in Hloop1 as (Hok' & _ & Hbase & _ & Hkeys & Hcfg & Hsettled).
  2:{ by exists (r +:+ "/" +:+ default_branch (backend w0) r). }
  2:{ done. }
  2:{ cbn [backend after]. unfold cur, s1. simpl. by destruct (HEAD (backend w0)). }
  cbn [backend after] in Hok', Hbase, Hkeys, Hcfg, Hsettled.
  set (s' := backend w1) in *.
  destruct Hbase as (Hrem & Hrh & Hsv & Htk & Hcs & Hwr & Hch).
  (* the second run *)
  unfold sync. unfold bind at 1. rewrite model_MainRemote.
  fold s'. rewrite Hrem. change (remotes s1) with (remotes (backend w0)). rewrite Er.
  unfold bind at 1.
  destruct (model_DefaultBranch r (after w1 ["remote"] s')) as (wb & Hb & Hqb).
  rewrite Hb. cbn [backend after].
  assert (Hbb : backend wb = s') by apply Hqb.
  assert (Hd : default_branch s' r = default_branch (backend w0) r).
  { destruct (model_DefaultBranch r w1) as (? & H1 & _).
    destruct (model_DefaultBranch r w0) as (? & H0 & _).
    rewrite H1, H0 in Hdef. exact Hdef. }
  rewrite Hd.
  unfold bind at 1. rewrite model_CurrentBranch by by rewrite Hbb.
  unfold bind at 1. rewrite model_Fetch. cbn [backend after]. rewrite Hbb.
  rewrite Hrem. change (remotes s1) with (remotes (backend w0)). rewrite Eremote.
  assert (Hfetch : with_tracking s' (fetched s' r) = s').
  { assert (fetched s' r = tracking s') as ->; [|apply with_tracking_same].
    transitivity (fetched s1 r).
    - unfold fetched. by rewrite Htk, Hsv.
    - rewrite Htk. apply fetched_again. }
  rewrite Hfetch.
  unfold bind at 1.
  match goal with
  | |- context [BranchRemotes git ?w] =>
      destruct (model_BranchRemotes w Hok') as (m2 & Hm2 & Htr2); rewrite Hm2
  end.
  cbn [backend after]. unfold bind at 1.
  rewrite model_LocalBranches by done. cbn [backend after].
  set (e2 := Env (palette_of useColor) r (default_branch (backend w0) r)
                 ("refs/remotes/" +:+ r +:+ "/" +:+ default_branch (backend w0) r) m2).
  match goal with
  | |- context [sync_loop git e2 ?cb ?bs ?w] =>
      destruct (loop_quiet e2 cb bs w) as (w2 & Hloop2 & Hq2)
  end.
  { done. }
  { cbn [backend after]. intros x Hx. apply has_key_elem in Hx.
    destruct (Hsettled x) as [Habs|Hset].
    - apply has_key_elem. by apply Hkeys.
    - congruence.
    - unfold settled in *.
      rewrite (m_decision_frame e1 e2 s' s' x); try done.
      + exists (r +:+ "/" +:+ default_branch (backend w0) r). done.
      + cbn [branchRemotes e1 e2]. rewrite Htr1, Htr2. cbn [backend after].
        unfold config_remote.
        rewrite (Hcfg x) by by right. done. }
  exists w2. split; [exact Hloop2|].
  eapply quiet_trans; [|exact Hq2].
  do 4 (apply quiet_step; [|done]).
  eapply quiet_trans; [|exact Hqb].
  quiet_steps.
Qed.

(** * Further properties *)

(** ** The command line *)

Lemma parseArgs_from_flags (v : bool) (args : list string) :
  Forall (fun a => a = "--verbose" \/ a = "-v") args ->
  parseArgs_from v args = (v || bool_decide (args <> []), None).
Proof.
  revert v. induction args as [|a args IH]; intros v Hall.
  - simpl. by rewrite orb_false_r.
  - apply Forall_cons in Hall as [Ha Hall]. simpl.
    assert (bool_decide (a = "--verbose") || bool_decide (a = "-v") = true) as ->.
    { destruct Ha as [-> | ->]; done. }
    rewrite IH by done. simpl. by rewrite orb_true_r.
Qed.

(** [parseArgs] accepts exactly the argument lists made of [--verbose] and
    [-v], and then reports verbose when there is at least one argument. *)
Theorem parseArgs_accepts (args : list string) :
  ((parseArgs args).2 = None <-> Forall (fun a => a = "--verbose" \/ a = "-v") args)
  /\ ((parseArgs args).2 = None -> (parseArgs args).1 = bool_decide (args <> [])).
Proof.
  assert (Hback : forall v, (parseArgs_from v args).2 = None ->
                            Forall (fun a => a = "--verbose" \/ a = "-v") args).
  { induction args as [|a args IH]; intros v H; [constructor|].
    simpl in H.
    destruct (bool_decide (a = "--verbose") || bool_decide (a = "-v")) eqn:E.
    - constructor; [|by eapply IH].
      apply orb_true_iff in E as [E|E]; apply bool_decide_eq_true_1 in E; auto.
    - by destruct (bool_decide (a = "--help") || bool_decide (a = "-h")). }
  unfold parseArgs. split; [split|].
  - apply Hback.
  - intros H. by rewrite parseArgs_from_flags.
  - intros H. apply Hback in H. by rewrite parseArgs_from_flags.
Qed.

Lemma parseArgs_from_offender (v : bool) (before rest : list string) (arg : string) :
  Forall (fun a => a = "--verbose" \/ a = "-v") before ->
  arg <> "--verbose" -> arg <> "-v" ->
  parseArgs_from v (before ++ arg :: rest)
  = (false, Some (if bool_decide (arg = "--help" \/ arg = "-h") then errHelp
                  else errors_New ("unknown argument: " +:+ arg))).
Proof.
  intros Hflags Hv1 Hv2. revert v.
  induction before as [|a before IH]; intros v.
  - simpl. rewrite !bool_decide_eq_false_2 by done. simpl.
    destruct (decide (arg = "--help")) as [H1|H1].
    { rewrite (bool_decide_eq_true_2 (arg = "--help")) by done.
      by rewrite (bool_decide_eq_true_2 (_ \/ _)) by (by left). }
    rewrite (bool_decide_eq_false_2 (arg = "--help")) by done.
    destruct (decide (arg = "-h")) as [H2|H2].
    { rewrite (bool_decide_eq_true_2 (arg = "-h")) by done.
      by rewrite (bool_decide_eq_true_2 (_ \/ _)) by (by right). }
    rewrite (bool_decide_eq_false_2 (arg = "-h")) by done.
    by rewrite (bool_decide_eq_false_2 (_ \/ _)) by (by intros [?|?]).
  - apply Forall_cons in Hflags as [Ha Hflags]. simpl.
    assert (bool_decide (a = "--verbose") || bool_decide (a = "-v") = true) as ->.
    { destruct Ha as [-> | ->]; done. }
    by apply IH.
Qed.

(** The first argument that is not a verbose flag decides the failure of
    [parseArgs]: a help flag gives [errHelp], anything else is reported as an
    unknown argument; what follows it is not read, and verbose is reported
    false whatever came before. *)
Theorem parseArgs_first_offender (before rest : list string) (arg : string) :
  Forall (fun a => a = "--verbose" \/ a = "-v") before ->
  arg <> "--verbose" -> arg <> "-v" ->
  parseArgs (before ++ arg :: rest)
  = (false, Some (if bool_decide (arg = "--help" \/ arg = "-h") then errHelp
                  else errors_New ("unknown argument: " +:+ arg))).
Proof. apply parseArgs_from_offender. Qed.

(** ** Reading the output of a process *)

Lemma append_endl_nonempty (x : string) : x +:+ endl <> "".
Proof. by destruct x. Qed.

Lemma TrimRight_newlines (n : nat) : TrimRight (newlines n) endl = "".
Proof. induction n as [|n IH]; [done|]. simpl. by rewrite IH. Qed.

Lemma TrimRight_splits (s : string) :
  exists n, s = TrimRight s endl +:+ newlines n
            /\ forall x, TrimRight s endl <> x +:+ endl.
Proof.
  induction s as [|c r (n & Hr & Hend)].
  - exists 0. split; [done|]. intros x H. by destruct x.
  - cbn [TrimRight]. destruct (TrimRight r endl) as [|d r'] eqn:E.
    + cbn [in_cutset endl]. rewrite orb_false_r.
      destruct (Ascii.eqb c newline) eqn:Ec.
      * apply Ascii.eqb_eq in Ec as ->. exists (S n). split.
        -- simpl. by rewrite Hr at 1.
        -- intros x H. by destruct x.
      * exists n. split.
        -- rewrite append_cons, append_nil. by rewrite Hr at 1.
        -- intros [|a x] H.
           ++ injection H as ->. by rewrite Ascii.eqb_refl in Ec.
           ++ rewrite append_cons in H. injection H as _ H. by destruct x.
    + exists n. split.
      * rewrite append_cons. by rewrite Hr at 1.
      * intros [|a x] H; [done|].
        rewrite append_cons in H. injection H as _ H. by apply (Hend x).
Qed.

Lemma Split_nonempty (s : string) : Split s newline <> [].
Proof.
  destruct s as [|c r]; [done|]. simpl.
  destruct (Ascii.eqb c newline); [done|]. by destruct (Split r newline).
Qed.

Lemma concat_cons (sep x y : string) (l : list string) :
  String.concat sep (x :: y :: l) = x +:+ sep +:+ String.concat sep (y :: l).
Proof. reflexivity. Qed.

Lemma Split_joins_back (s : string) :
  String.concat endl (Split s newline) = s
  /\ Forall (fun x => no_newline x = true) (Split s newline).
Proof.
  induction s as [|c r [IHc IHn]]; [by repeat constructor|].
  pose proof (Split_nonempty r) as Hne. simpl.
  destruct (Ascii.eqb c newline) eqn:Ec.
  - apply Ascii.eqb_eq in Ec as ->. split; [|by constructor].
    destruct (Split r newline) as [|y ys]; [done|].
    rewrite concat_cons, append_nil. unfold endl at 1.
    rewrite append_cons, append_nil. by rewrite IHc.
  - destruct (Split r newline) as [|y ys]; [done|].
    apply Forall_cons in IHn as [Hy Hys]. split.
    + rewrite <- IHc. destruct ys; [done|]. by rewrite !concat_cons, append_cons.
    + constructor; [|done]. simpl. by rewrite Ec, Hy.
Qed.

(** [splitLines] cuts a text at its newlines and at nothing else: joining the
    pieces with newlines gives the text back and no piece holds a newline.
    The empty text, and only the empty text, has no line at all. *)
Theorem splitLines_joins_back (s : string) :
  String.concat endl (splitLines s) = s
  /\ Forall (fun x => no_newline x = true) (splitLines s)
  /\ (splitLines s = [] <-> s = "").
Proof.
  unfold splitLines. case_decide as Hs.
  - subst s. by repeat split.
  - destruct (Split_joins_back s) as [Hc Hn]. split; [done|]. split; [done|].
    split; [|done]. intros H. by destruct (Split_nonempty s).
Qed.

Section Reading.

Context {S : Type}.
Variable git_proc : list string -> S -> completed * S.

(** [execGit] hands back the standard output of a successful process without
    its trailing newlines, all of them and nothing else; the error of a
    failed process comes back as it is. *)
Theorem execGit_returns_trimmed_output (args : list string) (w : world S) :
  let c := (git_proc args (backend w)).1 in
  match (execGit git_proc args w).1 with
  | Ok o => status c = None
            /\ (exists n, stdout c = o +:+ newlines n)
            /\ forall x, o <> x +:+ endl
  | Err err => status c = Some err
  end.
Proof.
  intros c. rewrite execGit_eq. simpl. fold c.
  destruct (status c) as [err|]; [done|].
  destruct (TrimRight_splits (stdout c)) as (n & Hn & Hend).
  split; [done|]. split; [by exists n|done].
Qed.

(** [LocalBranches] reads back the names that [git branch] printed one per
    line, in their order; an empty listing gives no branch. *)
Theorem LocalBranches_reads_the_listing (names : list string) (w : world S) (s' : S) :
  Forall (fun x => line x = true) names ->
  git_proc ["branch"; "--format=%(refname:short)"] (backend w)
  = (prints (unlines names), s') ->
  LocalBranches git_proc w
  = (Ok names, after w ["branch"; "--format=%(refname:short)"] s').
Proof.
  intros Hnames Hgit. unfold LocalBranches, bind, ret.
  rewrite (execGit_after git_proc _ _ _ _ Hgit). simpl.
  by rewrite splitLines_unlines.
Qed.

(** [NewRange] builds a Range exactly when [git rev-parse] succeeds and
    prints two lines, the second of them not empty, followed by newlines
    only; the Range holds the two lines in their order. *)
Theorem NewRange_needs_two_lines (a b : string) (w : world S) (r : Range) :
  let c := (git_proc ["rev-parse"; "--quiet"; a; b] (backend w)).1 in
  (NewRange git_proc a b w).1 = Ok r
  <-> status c = None
      /\ no_newline (A r) = true /\ no_newline (B r) = true /\ B r <> ""
      /\ exists n, stdout c = A r +:+ endl +:+ B r +:+ newlines n.
Proof.
  intros c. unfold NewRange, RevParse, bind, ret. rewrite execGit_eq.
  change (["rev-parse"; "--quiet"] ++ [a; b]) with ["rev-parse"; "--quiet"; a; b].
  fold c. destruct r as [x y]. cbn [A B]. split.
  - destruct (status c) as [err|]; [done|]. cbn [fst].
    destruct (TrimRight_splits (stdout c)) as (n & Hn & Hend).
    destruct (splitLines_joins_back (TrimRight (stdout c) endl)) as (Hjoin & Hlines & _).
    destruct (splitLines (TrimRight (stdout c) endl)) as [|x' [|y' [|z l]]]; try done.
    intros [= -> ->]. rewrite concat_cons in Hjoin. cbn [String.concat] in Hjoin.
    apply Forall_cons in Hlines as [Hx Hlines]. apply Forall_cons in Hlines as [Hy _].
    repeat split; try done.
    + intros ->. apply (Hend x). by rewrite <- Hjoin.
    + exists n. rewrite Hn at 1. by rewrite <- Hjoin, !append_assoc.
  - intros (Hst & Hx & Hy & Hne & n & Hout). rewrite Hst, Hout. cbn [fst].
    assert (TrimRight (x +:+ endl +:+ y +:+ newlines n) endl = x +:+ endl +:+ y) as ->.
    { rewrite TrimRight_append by done. rewrite TrimRight_newline.
      rewrite TrimRight_append by done. rewrite TrimRight_newlines.
      destruct y; [done|]. done. }
    unfold splitLines. rewrite decide_False by (by destruct x).
    rewrite Split_append by done. by rewrite Split_line.
Qed.

End Reading.

(** ** The lines of the branch configuration *)

Lemma prefix_drop_bytes (p s : string) :
  String.prefix p s = true -> s = p +:+ drop_bytes (String.length p) s.
Proof.
  revert s. induction p as [|c p IH]; intros s H; [done|].
  destruct s as [|d s]; [done|]. simpl in H.
  destruct (ascii_dec c d) as [->|]; [|done].
  rewrite append_cons. simpl. by rewrite <- IH.
Qed.

Lemma re_rest_sound (s v : string) :
  re_rest s = Some v -> v = s /\ s <> "" /\ no_newline s = true.
Proof.
  destruct s as [|c s]; [done|]. unfold re_rest.
  destruct (no_newline (String c s)) eqn:E; [|done]. by intros [= <-].
Qed.

Lemma re_blanks_rest_sound (s v : string) :
  re_blanks_rest s = Some v ->
  exists bl, s = bl +:+ v /\ bl <> "" /\ blanks_only bl = true
             /\ v <> "" /\ no_newline v = true.
Proof.
  revert v. induction s as [|c r IH]; intros v; [done|]. simpl.
  destruct (is_space c) eqn:Ec; [|done].
  destruct (re_blanks_rest r) as [v'|] eqn:E.
  - intros [= ->]. destruct (IH v eq_refl) as (bl & -> & _ & Hbl & Hv).
    exists (String c bl). repeat split; try done; try apply Hv.
    simpl. by rewrite Ec, Hbl.
  - intros (-> & Hne & Hnl)%re_rest_sound.
    exists (String c ""). repeat split; try done. simpl. by rewrite Ec.
Qed.

Lemma re_tail_sound (s v : string) :
  re_tail s = Some v ->
  exists bl, s = ".remote" +:+ bl +:+ v /\ bl <> "" /\ blanks_only bl = true
             /\ v <> "" /\ no_newline v = true.
Proof.
  unfold re_tail, HasPrefix. destruct (String.prefix ".remote" s) eqn:E; [|done].
  intros (bl & Hs & H)%re_blanks_rest_sound. exists bl. split; [|done].
  rewrite <- Hs. by apply (prefix_drop_bytes ".remote").
Qed.

Lemma re_any_tail_sound (s g v : string) :
  re_any_tail s = Some (g, v) ->
  no_newline g = true /\
  exists bl, s = g +:+ ".remote" +:+ bl +:+ v /\ bl <> "" /\ blanks_only bl = true
             /\ v <> "" /\ no_newline v = true.
Proof.
  revert g. induction s as [|c r IH]; intros g; [done|].
  rewrite re_any_tail_cons.
  destruct (Ascii.eqb c newline) eqn:Ec.
  - destruct (re_tail (String c r)) as [v'|] eqn:E; [|done].
    intros [= <- <-]. split; [done|]. by apply re_tail_sound.
  - destruct (re_any_tail r) as [[g' v']|] eqn:E.
    + intros [= <- <-]. destruct (IH g' eq_refl) as (Hg & bl & -> & H).
      split; [simpl; by rewrite Ec, Hg|]. exists bl. by rewrite append_cons.
    + destruct (re_tail (String c r)) as [v'|] eqn:E'; [|done].
      intros [= <- <-]. split; [done|]. by apply re_tail_sound.
Qed.

Lemma re_blanks_rest_complete (bl v : string) :
  bl <> "" -> blanks_only bl = true -> v <> "" -> no_newline v = true ->
  is_Some (re_blanks_rest (bl +:+ v)).
Proof.
  intros Hne Hbl Hv Hnl. induction bl as [|c bl IH]; [done|].
  rewrite append_cons. simpl in Hbl. apply andb_true_iff in Hbl as [Hc Hbl].
  simpl. rewrite Hc. destruct bl as [|d bl].
  - rewrite append_nil. destruct (re_blanks_rest v); [done|].
    unfold re_rest. rewrite Hnl. by destruct v.
  - destruct IH as [x ->]; done.
Qed.

Lemma re_tail_complete (bl v : string) :
  bl <> "" -> blanks_only bl = true -> v <> "" -> no_newline v = true ->
  is_Some (re_tail (".remote" +:+ bl +:+ v)).
Proof.
  intros. unfold re_tail, HasPrefix. rewrite prefix_append.
  change (drop_bytes 7 (".remote" +:+ bl +:+ v)) with (bl +:+ v).
  by apply re_blanks_rest_complete.
Qed.

Lemma re_any_tail_complete (g bl v : string) :
  no_newline g = true ->
  bl <> "" -> blanks_only bl = true -> v <> "" -> no_newline v = true ->
  is_Some (re_any_tail (g +:+ ".remote" +:+ bl +:+ v)).
Proof.
  intros Hg Hne Hbl Hv Hnl. induction g as [|c g IH].
  - rewrite append_nil.
    destruct (re_tail_complete bl v Hne Hbl Hv Hnl) as [x Hx].
    change (".remote" +:+ bl +:+ v) with (String "." ("remote" +:+ bl +:+ v)) in *.
    rewrite re_any_tail_cons, Hx.
    destruct (if Ascii.eqb "." newline then None else re_any_tail _) as [[? ?]|]; done.
  - rewrite append_cons, re_any_tail_cons.
    simpl in Hg. apply andb_true_iff in Hg as [Hc Hg]. apply negb_true_iff in Hc.
    rewrite Hc. destruct (IH Hg) as [[g' v'] ->]. done.
Qed.

(** [BranchRemotes] takes an entry from a line of the configuration listing
    exactly when the line reads [branch.<name>.remote], blanks, [<remote>]
    with a name and a remote that are not empty; the entry it takes is one
    such reading of the line. *)
Theorem branch_remote_lines_matched (l : string) :
  (forall n v, FindStringSubmatch_branch_remote l = Some (n, v) ->
     exists bl, l = "branch." +:+ n +:+ ".remote" +:+ bl +:+ v
                /\ n <> "" /\ no_newline n = true
                /\ bl <> "" /\ blanks_only bl = true
                /\ v <> "" /\ no_newline v = true)
  /\ (forall n bl v,
        l = "branch." +:+ n +:+ ".remote" +:+ bl +:+ v ->
        n <> "" -> no_newline n = true ->
        bl <> "" -> blanks_only bl = true ->
        v <> "" -> no_newline v = true ->
        is_Some (FindStringSubmatch_branch_remote l)).
Proof.
  split.
  - intros n v. unfold FindStringSubmatch_branch_remote, HasPrefix.
    destruct (String.prefix "branch." l) eqn:E; [|done].
    apply (prefix_drop_bytes "branch.") in E.
    change (String.length "branch.") with 7 in E.
    destruct (drop_bytes 7 l) as [|c r]; [done|].
    destruct (Ascii.eqb c newline) eqn:Ec; [done|].
    destruct (re_any_tail r) as [[g v']|] eqn:Et; [|done].
    intros [= <- <-]. apply re_any_tail_sound in Et as (Hg & bl & -> & H).
    exists bl. split; [by rewrite E, append_cons|]. split; [done|].
    split; [simpl; by rewrite Ec, Hg|]. done.
  - intros n bl v -> Hn Hnn Hbl Hbb Hv Hvv.
    unfold FindStringSubmatch_branch_remote, HasPrefix. rewrite prefix_append.
    change (drop_bytes 7 ("branch." +:+ n +:+ ".remote" +:+ bl +:+ v))
      with (n +:+ ".remote" +:+ bl +:+ v).
    destruct n as [|c n]; [done|]. rewrite append_cons.
    simpl in Hnn. apply andb_true_iff in Hnn as [Hc Hnn]. apply negb_true_iff in Hc.
    rewrite Hc. by destruct (re_any_tail_complete n bl v Hnn Hbl Hbb Hv Hvv) as [[? ?] ->].
Qed.

Lemma config_lines (entries : list (string * (string * string))) :
  Forall (fun e => clean e.1 = true /\ clean e.2.1 = true) entries ->
  Forall (fun x => line x = true) (List.map config_line entries).
Proof.
  intros Hclean. apply Forall_forall. intros x (y & -> & Hy)%list_elem_of_fmap.
  rewrite Forall_forall in Hclean. destruct (Hclean y Hy) as [H1 H2].
  unfold config_line.
  assert (Hnl : no_newline ("branch." +:+ y.1 +:+ ".remote " +:+ y.2.1) = true).
  { apply no_newline_append; [done|].
    apply no_newline_append; [by apply no_space_no_newline, clean_no_space|].
    apply no_newline_append; [done|].
    by apply no_space_no_newline, clean_no_space. }
  unfold line. by rewrite Hnl.
Qed.

Section Configuration.

Context {S : Type}.
Variable git_proc : list string -> S -> completed * S.

(** [BranchRemotes] gives each branch the remote of its last line in the
    listing of [git config], and the empty name to a branch without a line.
    When [git config] fails, as it does when no branch has a remote, every
    branch reads as the empty name. *)
Theorem BranchRemotes_last_entry_wins (w : world S) (c : completed) (s' : S) :
  git_proc ["config"; "--get-regexp"; "^branch\..*\.remote$"] (backend w) = (c, s') ->
  (forall err, status c = Some err ->
     forall b, tracked_remote (BranchRemotes git_proc w).1 b = "")
  /\ (forall entries : list (string * (string * string)),
        status c = None ->
        stdout c = unlines (List.map config_line entries) ->
        Forall (fun e => clean e.1 = true /\ clean e.2.1 = true) entries ->
        forall b, tracked_remote (BranchRemotes git_proc w).1 b
                  = match assoc_last b entries with
                    | Some (r, _) => r
                    | None => ""
                    end).
Proof.
  intros Hgit. unfold BranchRemotes, bind, ret.
  rewrite (execGit_after git_proc _ _ _ _ Hgit). split.
  - intros err -> b. done.
  - intros entries -> -> Hclean b. cbn [fst].
    rewrite splitLines_unlines by by apply config_lines.
    unfold tracked_remote. rewrite (BranchRemotes_fold _ ∅ b Hclean), lookup_empty.
    by destruct (assoc_last b _) as [[r m]|].
Qed.

End Configuration.

(** ** The default branch *)

Lemma TrimRight_before_newlines (s : string) (n : nat) :
  TrimRight (s +:+ newlines n) endl = TrimRight s endl.
Proof.
  induction s as [|c r IH].
  - rewrite append_nil. apply TrimRight_newlines.
  - rewrite append_cons. cbn [TrimRight]. by rewrite IH.
Qed.

Lemma TrimRight_no_newline (s : string) :
  no_newline s = true -> TrimRight s endl = s.
Proof.
  induction s as [|c r IH]; [done|]. simpl.
  intros [Hc Hr]%andb_true_iff. apply negb_true_iff in Hc.
  rewrite (IH Hr), Hc. by destruct r.
Qed.

Lemma drop_bytes_append (p s : string) : drop_bytes (String.length p) (p +:+ s) = s.
Proof. induction p as [|c p IH]; [done|]. by rewrite append_cons. Qed.

Lemma TrimPrefix_append (p s : string) : TrimPrefix (p +:+ s) p = s.
Proof. unfold TrimPrefix, HasPrefix. by rewrite prefix_append, drop_bytes_append. Qed.

Section Prelude.

Context {S : Type}.
Variable git_proc : list string -> S -> completed * S.

(** [DefaultBranch] never fails.  When [git symbolic-ref] prints the HEAD
    reference of the remote, it returns the branch behind the prefix of the
    remote-tracking references, after that one process.  When
    [git symbolic-ref] fails, it returns master if the probe for main fails
    and the probe for master succeeds, and main in every other case. *)
Theorem DefaultBranch_names_a_branch (remote : string) (w : world S)
    (c : completed) (s' : S) :
  git_proc ["symbolic-ref"; "--quiet"; "refs/remotes/" +:+ remote +:+ "/HEAD"] (backend w)
  = (c, s') ->
  (forall name n,
     status c = None ->
     stdout c = "refs/remotes/" +:+ remote +:+ "/" +:+ name +:+ newlines n ->
     no_newline remote = true -> no_newline name = true ->
     DefaultBranch git_proc remote w
     = (name, after w ["symbolic-ref"; "--quiet"; "refs/remotes/" +:+ remote +:+ "/HEAD"] s'))
  /\ (forall err,
        status c = Some err ->
        let main_probe :=
          git_proc ["show-ref"; "--verify"; "--quiet"; "refs/remotes/" +:+ remote +:+ "/main"]
                   s' in
        let master_probe :=
          git_proc ["show-ref"; "--verify"; "--quiet";
                    "refs/remotes/" +:+ remote +:+ "/master"] main_probe.2 in
        (DefaultBranch git_proc remote w).1
        = if bool_decide (status main_probe.1 <> None /\ status master_probe.1 = None)
          then "master" else "main").
Proof.
  intros Hgit. split.
  - intros name n Hst Hout Hremote Hname. unfold DefaultBranch. unfold bind at 1.
    rewrite (execGit_after git_proc _ _ _ _ Hgit), Hst. unfold ret. f_equal.
    rewrite Hout.
    replace ("refs/remotes/" +:+ remote +:+ "/" +:+ name +:+ newlines n)
      with (("refs/remotes/" +:+ remote +:+ "/" +:+ name) +:+ newlines n)
      by (by rewrite !append_assoc).
    rewrite TrimRight_before_newlines, TrimRight_no_newline.
    + replace ("refs/remotes/" +:+ remote +:+ "/" +:+ name)
        with (("refs/remotes/" +:+ remote +:+ "/") +:+ name)
        by (by rewrite !append_assoc).
      apply TrimPrefix_append.
    + apply no_newline_append; [done|]. apply no_newline_append; [done|].
      by apply no_newline_append.
  - intros err Hst main_probe master_probe. unfold DefaultBranch. unfold bind at 1.
    rewrite (execGit_after git_proc _ _ _ _ Hgit), Hst. unfold HasRef, bind.
    rewrite Run_eq. cbn [backend after]. fold main_probe.
    destruct (status main_probe.1) as [e1|] eqn:E1.
    + rewrite Run_eq. cbn [backend after]. fold master_probe.
      destruct (status master_probe.1) as [e2|] eqn:E2; unfold ret; cbn [fst].
      * rewrite bool_decide_eq_false_2; [done|]. by intros [_ ?].
      * rewrite bool_decide_eq_true_2; [done|]. done.
    + unfold ret; cbn [fst]. rewrite bool_decide_eq_false_2; [done|]. by intros [? _].
Qed.

(** *** What the steps before the loop leave behind *)

Lemma ran_only_refl (P : list string -> bool) (w : world S) : ran_only P w w.
Proof. exists []. by rewrite app_nil_r. Qed.

Lemma ran_only_trans (P : list string -> bool) (w1 w2 w3 : world S) :
  ran_only P w1 w2 -> ran_only P w2 w3 -> ran_only P w1 w3.
Proof.
  intros (x & Hx & Fx) (y & Hy & Fy). exists (x ++ y).
  rewrite Hy, Hx, app_assoc. split; [done|]. by apply Forall_app.
Qed.

Lemma ran_only_issued (P : list string -> bool) (w w' : world S)
    (cmds : list (list string)) :
  issued w w' cmds -> Forall (fun c => P c = true) cmds -> ran_only P w w'.
Proof. intros (H & _) F. by exists cmds. Qed.

(** Nothing was written between [w] and [w']. *)
Lemma issued_silent (w w' : world S) (cmds : list (list string)) :
  issued w w' cmds -> out w' = out w /\ errout w' = errout w.
Proof. by intros (_ & ? & ?). Qed.

Lemma MainRemote_issued (w w' : world S) (r : result string) :
  MainRemote git_proc w = (r, w') -> issued w w' [["remote"]].
Proof.
  unfold MainRemote, bind, ret.
  destruct (execGit git_proc ["remote"] w) as [[o|err] w0] eqn:E;
    apply execGit_issued in E.
  - destruct (splitLines o) as [|first rest]; [by intros [= <- <-]|].
    by destruct (List.find _ _); intros [= <- <-].
  - by intros [= <- <-].
Qed.

Lemma DefaultBranch_issued (remote : string) (w w' : world S) (d : string) :
  DefaultBranch git_proc remote w = (d, w') ->
  exists cmds, issued w w' cmds /\ Forall (fun c => mutating c = false) cmds.
Proof.
  unfold DefaultBranch, HasRef, bind, ret.
  destruct (execGit git_proc _ w) as [[o|err] w0] eqn:E; apply execGit_issued in E.
  - intros [= <- <-]. eexists. split; [exact E|]. by repeat constructor.
  - destruct (Run git_proc _ w0) as [[|] w1] eqn:E1; apply Run_issued in E1.
    + intros [= <- <-]. eexists. split; [by eapply issued_trans|]. by repeat constructor.
    + destruct (Run git_proc _ w1) as [m2 w2] eqn:E2; apply Run_issued in E2.
      destruct m2; intros [= <- <-];
        (eexists; split;
         [eapply issued_trans; [eapply issued_trans; [exact E|exact E1]|exact E2]|]);
        by repeat constructor.
Qed.

Lemma CurrentBranch_issued (w w' : world S) (r : result string) :
  CurrentBranch git_proc w = (r, w') -> issued w w' [["symbolic-ref"; "--short"; "HEAD"]].
Proof.
  unfold CurrentBranch, bind, ret.
  destruct (execGit git_proc _ w) as [[o|err] w0] eqn:E; apply execGit_issued in E;
    by intros [= <- <-].
Qed.

Lemma Fetch_issued (remote : string) (w w' : world S) (r : option error) :
  Fetch git_proc remote w = (r, w') ->
  issued w w' [["fetch"; "--prune"; "--quiet"; "--progress"; remote]].
Proof.
  unfold Fetch, Spawn, bind, ret.
  destruct (exec_Command git_proc _ w) as [c w0] eqn:E.
  apply exec_Command_issued in E as [E _]. by intros [= <- <-].
Qed.

Lemma BranchRemotes_issued (w w' : world S) (m : gmap string string) :
  BranchRemotes git_proc w = (m, w') ->
  issued w w' [["config"; "--get-regexp"; "^branch\..*\.remote$"]].
Proof.
  unfold BranchRemotes, bind, ret.
  destruct (execGit git_proc _ w) as [[o|err] w0] eqn:E; apply execGit_issued in E;
    by intros [= <- <-].
Qed.

Lemma LocalBranches_issued (w w' : world S) (r : result (list string)) :
  LocalBranches git_proc w = (r, w') ->
  issued w w' [["branch"; "--format=%(refname:short)"]].
Proof.
  unfold LocalBranches, bind, ret.
  destruct (execGit git_proc _ w) as [[o|err] w0] eqn:E; apply execGit_issued in E;
    by intros [= <- <-].
Qed.

(** A run that cannot find a remote, cannot fetch or cannot list the
    branches ends before the loop: it returns the error (the one of the fetch
    wrapped as a failed fetch), it has written nothing, the failed step is
    the last process it ran, and no process before it changes a branch. *)
Theorem sync_fails_before_the_loop (useColor : bool) (w : world S) :
  (forall err w1,
     MainRemote git_proc w = (Err err, w1) ->
     sync git_proc useColor w = (Returned (Some err), w1)
     /\ issued w w1 [["remote"]])
  /\ (forall remote w1 d w2 cb w3 ferr w4,
        MainRemote git_proc w = (Ok remote, w1) ->
        DefaultBranch git_proc remote w1 = (d, w2) ->
        CurrentBranch git_proc w2 = (cb, w3) ->
        Fetch git_proc remote w3 = (Some ferr, w4) ->
        sync git_proc useColor w = (Returned (Some (Errorf_w "fetch failed: " ferr)), w4)
        /\ calls w4 = calls w3 ++ [["fetch"; "--prune"; "--quiet"; "--progress"; remote]]
        /\ ran_only (fun c => negb (mutating c)) w w4
        /\ out w4 = out w /\ errout w4 = errout w)
  /\ (forall remote w1 d w2 cb w3 w4 m w5 lerr w6,
        MainRemote git_proc w = (Ok remote, w1) ->
        DefaultBranch git_proc remote w1 = (d, w2) ->
        CurrentBranch git_proc w2 = (cb, w3) ->
        Fetch git_proc remote w3 = (None, w4) ->
        BranchRemotes git_proc w4 = (m, w5) ->
        LocalBranches git_proc w5 = (Err lerr, w6) ->
        sync git_proc useColor w = (Returned (Some lerr), w6)
        /\ calls w6 = calls w5 ++ [["branch"; "--format=%(refname:short)"]]
        /\ ran_only (fun c => negb (mutating c)) w w6
        /\ out w6 = out w /\ errout w6 = errout w).
Proof.
  split; [|split].
  - intros err w1 Hremote. split; [|by eapply MainRemote_issued].
    unfold sync. unfold bind at 1. by rewrite Hremote.
  - intros remote w1 d w2 cb w3 ferr w4 Hremote Hdefault Hcurrent Hfetch.
    split.
    { unfold sync. unfold bind at 1. rewrite Hremote.
      unfold bind at 1. rewrite Hdefault. unfold bind at 1. rewrite Hcurrent.
      unfold bind at 1. by rewrite Hfetch. }
    apply MainRemote_issued in Hremote.
    apply DefaultBranch_issued in Hdefault as (cmds & Hdefault & Hcmds).
    apply CurrentBranch_issued in Hcurrent. apply Fetch_issued in Hfetch.
    split; [apply Hfetch|].
    pose proof (issued_trans _ _ _ _ _
                  (issued_trans _ _ _ _ _
                     (issued_trans _ _ _ _ _ Hremote Hdefault) Hcurrent) Hfetch) as H.
    split; [|by eapply issued_silent].
    apply (ran_only_issued _ _ _ _ H).
    apply Forall_app. split; [|by repeat constructor].
    apply Forall_app. split; [|by repeat constructor].
    apply Forall_app. split; [by repeat constructor|].
    eapply Forall_impl; [exact Hcmds|]. intros x Hx. simpl. by rewrite Hx.
  - intros remote w1 d w2 cb w3 w4 m w5 lerr w6
           Hremote Hdefault Hcurrent Hfetch Hconfig Hlist.
    split.
    { unfold sync. unfold bind at 1. rewrite Hremote.
      unfold bind at 1. rewrite Hdefault. unfold bind at 1. rewrite Hcurrent.
      unfold bind at 1. rewrite Hfetch. unfold bind at 1. rewrite Hconfig.
      unfold bind at 1. by rewrite Hlist. }
    apply MainRemote_issued in Hremote.
    apply DefaultBranch_issued in Hdefault as (cmds & Hdefault & Hcmds).
    apply CurrentBranch_issued in Hcurrent. apply Fetch_issued in Hfetch.
    apply BranchRemotes_issued in Hconfig. apply LocalBranches_issued in Hlist.
    split; [apply Hlist|].
    pose proof (issued_trans _ _ _ _ _
                 (issued_trans _ _ _ _ _
                  (issued_trans _ _ _ _ _
                     (issued_trans _ _ _ _ _
                        (issued_trans _ _ _ _ _ Hremote Hdefault) Hcurrent) Hfetch)
                  Hconfig) Hlist) as H.
    split; [|by eapply issued_silent].
    apply (ran_only_issued _ _ _ _ H).
    apply Forall_app. split; [|by repeat constructor].
    apply Forall_app. split; [|by repeat constructor].
    apply Forall_app. split; [|by repeat constructor].
    apply Forall_app. split; [|by repeat constructor].
    apply Forall_app. split; [by repeat constructor|].
    eapply Forall_impl; [exact Hcmds|]. intros x Hx. simpl. by rewrite Hx.
Qed.

End Prelude.

(** ** What the loop never does *)

Section Never.

Context {S : Type}.
Variable git_proc : list string -> S -> completed * S.

(** The verdicts of a comparison with a counterpart take no branch away. *)
Lemma apply_verdict_compared (e : env) (cb branch ref : string) (v : SyncVerdict)
    (w w' : world S) (f : flow) :
  match v with Deleted _ | NotMergedWarning => False | _ => True end ->
  apply_verdict git_proc e cb branch ref v w = (f, w') ->
  ran_only (fun c => negb (removes c)) w w'
  /\ (forall cb', f = Continue cb' -> cb' = cb)
  /\ (errout w' = errout w
      \/ errout w' = errout w ++ ["warning: '" +:+ branch
                                  +:+ "' seems to contain unpushed commits" +:+ endl]).
Proof.
  intros Hv. unfold apply_verdict. destruct v as [|from| |from|]; try done.
  - intros [= <- <-]. split; [apply ran_only_refl|]. split; [by intros ? [= <-]|by left].
  - case_decide.
    + unfold MergeFFOnly.
      destruct (git_proc ["merge"; "--ff-only"; "--quiet"; ref] (backend w))
        as [c s'] eqn:E.
      unfold bind at 1. unfold bind at 1. rewrite (mutation_after git_proc _ _ _ _ E).
      unfold ret at 1. destruct (status c); simpl.
      * intros [= <- <-]. split; [|split; [intros ? [=]|by left]].
        eexists. split; [reflexivity|]. by repeat constructor.
      * destruct (first7 from); unfold bind, ret, Fprintf_stdout; intros [= <- <-];
          (split; [eexists; split; [reflexivity|]; by repeat constructor|]);
          (split; [by intros ? [= <-]|by left]).
    + unfold UpdateRef.
      destruct (git_proc ["update-ref"; "refs/heads/" +:+ branch; ref] (backend w))
        as [c s'] eqn:E.
      unfold bind at 1. unfold bind at 1. rewrite (mutation_after git_proc _ _ _ _ E).
      unfold ret at 1. destruct (status c); simpl.
      * intros [= <- <-]. split; [|split; [intros ? [=]|by left]].
        eexists. split; [reflexivity|]. by repeat constructor.
      * destruct (first7 from); unfold bind, ret, Fprintf_stdout; intros [= <- <-];
          (split; [eexists; split; [reflexivity|]; by repeat constructor|]);
          (split; [by intros ? [= <-]|by left]).
  - unfold bind, ret, Fprintf_stderr. intros [= <- <-]. simpl.
    split; [|split; [by intros ? [= <-]|by right]].
    exists []. split; [simpl; by rewrite app_nil_r|constructor].
Qed.

Lemma decide_resolved_compares (localRef ref : string) (w w' : world S)
    (v : SyncVerdict) :
  decide_resolved git_proc localRef ref w = (Ok v, w') ->
  match v with Deleted _ | NotMergedWarning => False | _ => True end.
Proof.
  unfold decide_resolved, bind, ret.
  destruct (NewRange git_proc localRef ref w) as [[r|err] w0]; [|done].
  destruct (IsIdentical r); [by intros [= <- <-]|].
  destruct (IsAncestor git_proc r w0) as [[|] w1]; by intros [= <- <-].
Qed.

Lemma decide_resolved_silent (localRef ref : string) (w w' : world S)
    (v : result SyncVerdict) :
  decide_resolved git_proc localRef ref w = (v, w') ->
  ran_only (fun c => negb (removes c)) w w' /\ errout w' = errout w.
Proof.
  unfold decide_resolved, bind, ret.
  destruct (NewRange git_proc localRef ref w) as [[r|err] w0] eqn:E;
    apply NewRange_issued in E.
  - destruct (IsIdentical r).
    + intros [= <- <-]. split; [|apply E].
      apply (ran_only_issued _ _ _ _ E). by repeat constructor.
    + destruct (IsAncestor git_proc r w0) as [anc w1] eqn:E1.
      apply IsAncestor_issued in E1.
      pose proof (issued_trans _ _ _ _ _ E E1) as H.
      destruct anc; intros [= <- <-];
        (split; [apply (ran_only_issued _ _ _ _ H); by repeat constructor|apply H]).
  - intros [= <- <-]. split; [|apply E].
    apply (ran_only_issued _ _ _ _ E). by repeat constructor.
Qed.

(** A branch that is not configured to track the selected remote is never
    taken away: whatever git answers, its iteration runs neither
    [git branch -D] nor [git checkout], keeps the current-branch name, and
    writes no warning other than the one about unpushed commits. *)
Theorem untracked_branch_is_never_removed (e : env) (cb branch : string)
    (w w' : world S) (f : flow) :
  tracked_remote (branchRemotes e) branch <> remote e ->
  sync_branch git_proc e cb branch w = (f, w') ->
  ran_only (fun c => negb (removes c)) w w'
  /\ (forall cb', f = Continue cb' -> cb' = cb)
  /\ (errout w' = errout w
      \/ errout w' = errout w ++ ["warning: '" +:+ branch
                                  +:+ "' seems to contain unpushed commits" +:+ endl]).
Proof.
  intros Hcfg. unfold sync_branch. unfold bind at 1.
  rewrite (resolve_counterpart_no_tracking git_proc e branch w Hcfg). unfold HasRef.
  destruct (Run git_proc _ w) as [[|] w0] eqn:E0; apply Run_issued in E0.
  - rewrite decide_True by done. unfold bind.
    destruct (decide_resolved git_proc _ _ w0) as [[v|err] w1] eqn:E1.
    + pose proof (decide_resolved_compares _ _ _ _ _ E1) as Hv.
      apply decide_resolved_silent in E1 as [E1 Herr1].
      intros (H1 & H2 & H3)%apply_verdict_compared; [|done].
      split; [|split; [done|]].
      * eapply ran_only_trans; [|exact H1]. eapply ran_only_trans; [|exact E1].
        apply (ran_only_issued _ _ _ _ E0). by repeat constructor.
      * destruct E0 as (_ & _ & E0). rewrite Herr1, E0 in H3. done.
    + apply decide_resolved_silent in E1 as [E1 Herr1].
      intros [= <- <-]. split; [|split; [intros ? [=]|left]].
      * eapply ran_only_trans; [|exact E1].
        apply (ran_only_issued _ _ _ _ E0). by repeat constructor.
      * destruct E0 as (_ & _ & E0). by rewrite Herr1, E0.
  - rewrite decide_False by (intros H; by apply H). unfold ret.
    intros [= <- <-]. split; [|split; [by intros ? [= <-]|left; apply E0]].
    apply (ran_only_issued _ _ _ _ E0). by repeat constructor.
Qed.

(** The detector only asks: it writes nothing, and it runs at most four
    processes, none of which changes a branch; it needs all four to answer
    true. *)
Theorem isSquashMerged_only_asks (branchRef targetRef name : string)
    (w w' : world S) (b : bool) :
  isSquashMerged git_proc branchRef targetRef name w = (b, w') ->
  exists cmds,
    issued w w' cmds
    /\ List.length cmds <= 4
    /\ Forall (fun c => mutating c = false) cmds
    /\ (b = true -> List.length cmds = 4).
Proof.
  unfold isSquashMerged, MergeBase, TreeHash, CommitTree, Cherry, bind, ret.
  destruct (execGit git_proc _ w) as [[ancestor|e1] w1] eqn:E1;
    apply execGit_issued in E1.
  2:{ intros [= <- <-]. eexists. split; [exact E1|].
      split; [simpl; lia|]. split; [by repeat constructor|done]. }
  destruct (execGit git_proc _ w1) as [[tree|e2] w2] eqn:E2;
    apply execGit_issued in E2.
  2:{ intros [= <- <-]. eexists. split; [by eapply issued_trans|].
      split; [simpl; lia|]. split; [by repeat constructor|done]. }
  destruct (execGit git_proc _ w2) as [[dangling|e3] w3] eqn:E3;
    apply execGit_issued in E3.
  2:{ intros [= <- <-]. eexists.
      split; [eapply issued_trans; [by eapply issued_trans|exact E3]|].
      split; [simpl; lia|]. split; [by repeat constructor|done]. }
  destruct (execGit git_proc _ w3) as [[res|e4] w4] eqn:E4;
    apply execGit_issued in E4;
    intros [= <- <-]; eexists;
    (split; [eapply issued_trans;
               [eapply issued_trans; [by eapply issued_trans|exact E3]|exact E4]|]);
    (split; [simpl; lia|]); (split; [by repeat constructor|done]).
Qed.

End Never.

(** ** The slice of the commit name *)

Section Slice.

Context {S : Type}.
Variable git_proc : list string -> S -> completed * S.

(** A verdict ends in the panic of [r.A[:7]] only for a commit name shorter
    than seven bytes, and then after its mutation has succeeded. *)
Lemma apply_verdict_panics (e : env) (cb branch ref : string) (v : SyncVerdict)
    (w w' : world S) :
  apply_verdict git_proc e cb branch ref v w = (Panic, w') ->
  (exists from, (v = FastForward from \/ v = Deleted from) /\ String.length from < 7)
  /\ out w' = out w /\ errout w' = errout w
  /\ exists args, last (calls w') = Some args /\ mutating args = true.
Proof.
  unfold apply_verdict. destruct v as [|from| |from|]; [by intros [=]| | | |].
  - assert (Hshort : first7 from = None -> String.length from < 7).
    { unfold first7. case_decide; [done|]. intros _. lia. }
    case_decide.
    + unfold MergeFFOnly.
      destruct (git_proc ["merge"; "--ff-only"; "--quiet"; ref] (backend w))
        as [c s'] eqn:E.
      unfold bind at 1. unfold bind at 1. rewrite (mutation_after git_proc _ _ _ _ E).
      unfold ret at 1. destruct (status c); simpl; [by intros [=]|].
      destruct (first7 from) eqn:E7; unfold bind, ret, Fprintf_stdout; [by intros [=]|].
      intros [= <-]. split; [exists from; split; [by left|by apply Hshort]|].
      split; [done|]. split; [done|]. eexists. simpl. by rewrite last_snoc.
    + unfold UpdateRef.
      destruct (git_proc ["update-ref"; "refs/heads/" +:+ branch; ref] (backend w))
        as [c s'] eqn:E.
      unfold bind at 1. unfold bind at 1. rewrite (mutation_after git_proc _ _ _ _ E).
      unfold ret at 1. destruct (status c); simpl; [by intros [=]|].
      destruct (first7 from) eqn:E7; unfold bind, ret, Fprintf_stdout; [by intros [=]|].
      intros [= <-]. split; [exists from; split; [by left|by apply Hshort]|].
      split; [done|]. split; [done|]. eexists. simpl. by rewrite last_snoc.
  - unfold bind, ret, Fprintf_stderr. by intros [=].
  - assert (Hshort : first7 from = None -> String.length from < 7).
    { unfold first7. case_decide; [done|]. intros _. lia. }
    case_decide.
    + unfold Checkout.
      destruct (git_proc ["checkout"; "--quiet"; defaultBranch e] (backend w))
        as [c0 s0] eqn:E0.
      unfold bind at 1. unfold bind at 1.
      rewrite (mutation_after git_proc _ _ _ _ E0).
      destruct (status c0); unfold ret at 1; [by intros [=]|].
      unfold DeleteBranch.
      destruct (git_proc ["branch"; "-D"; branch] s0) as [c s'] eqn:E.
      unfold bind at 1.
      rewrite (mutation_after git_proc ["branch"; "-D"; branch]
                 (after w ["checkout"; "--quiet"; defaultBranch e] s0) c s' E).
      destruct (status c); [by intros [=]|].
      destruct (first7 from) eqn:E7; unfold bind, ret, Fprintf_stdout; [by intros [=]|].
      intros [= <-]. split; [exists from; split; [by right|by apply Hshort]|].
      split; [done|]. split; [done|]. eexists. simpl. by rewrite last_snoc.
    + unfold bind at 1. unfold ret at 1. unfold DeleteBranch.
      destruct (git_proc ["branch"; "-D"; branch] (backend w)) as [c s'] eqn:E.
      unfold bind at 1. rewrite (mutation_after git_proc _ _ _ _ E).
      destruct (status c); [by intros [=]|].
      destruct (first7 from) eqn:E7; unfold bind, ret, Fprintf_stdout; [by intros [=]|].
      intros [= <-]. split; [exists from; split; [by right|by apply Hshort]|].
      split; [done|]. split; [done|]. eexists. simpl. by rewrite last_snoc.
  - unfold bind, ret, Fprintf_stderr. by intros [=].
Qed.

Lemma resolve_counterpart_wrote_nothing (e : env) (branch : string) (w w' : world S)
    (p : string * bool) :
  resolve_counterpart git_proc e branch w = (p, w') ->
  out w' = out w /\ errout w' = errout w.
Proof.
  unfold resolve_counterpart, UpstreamRef, HasRef, bind, ret. case_decide.
  - destruct (execGit git_proc _ w) as [u w0] eqn:E.
    apply execGit_issued, issued_silent in E. destruct u; by intros [= <- <-].
  - destruct (Run git_proc _ w) as [h w0] eqn:E.
    apply Run_issued, issued_silent in E. destruct h; by intros [= <- <-].
Qed.

Lemma isSquashMerged_wrote_nothing (branchRef targetRef name : string)
    (w w' : world S) (b : bool) :
  isSquashMerged git_proc branchRef targetRef name w = (b, w') ->
  out w' = out w /\ errout w' = errout w.
Proof.
  unfold isSquashMerged, MergeBase, TreeHash, CommitTree, Cherry, bind, ret.
  destruct (execGit git_proc _ w) as [[ancestor|e1] w1] eqn:E1;
    apply execGit_issued, issued_silent in E1; [|by intros [= <- <-]].
  destruct (execGit git_proc _ w1) as [[tree|e2] w2] eqn:E2;
    apply execGit_issued, issued_silent in E2;
    [|intros [= <- <-]; destruct E1, E2; split; congruence].
  destruct (execGit git_proc _ w2) as [[dangling|e3] w3] eqn:E3;
    apply execGit_issued, issued_silent in E3;
    [|intros [= <- <-]; destruct E1, E2, E3; split; congruence].
  destruct (execGit git_proc _ w3) as [[res|e4] w4] eqn:E4;
    apply execGit_issued, issued_silent in E4;
    intros [= <- <-]; destruct E1, E2, E3, E4; split; congruence.
Qed.

(** A panic of the loop body can only be the one of [r.A[:7]]: the Range
    that [NewRange] built for the branch holds a first name shorter than
    seven bytes.  It comes after the mutation: the last process run is the
    merge, the pointer update or the forced delete, and nothing has been
    written for the branch. *)
Theorem panic_only_on_short_names (e : env) (cb branch : string) (w w' : world S) :
  sync_branch git_proc e cb branch w = (Panic, w') ->
  (exists ref r w0 w1,
     NewRange git_proc ("refs/heads/" +:+ branch) ref w0 = (Ok r, w1)
     /\ String.length (A r) < 7)
  /\ out w' = out w /\ errout w' = errout w
  /\ exists args, last (calls w') = Some args /\ mutating args = true.
Proof.
  unfold sync_branch, decide_resolved, decide_gone, bind, ret.
  destruct (resolve_counterpart git_proc e branch w) as [[ref gone] w0] eqn:E0.
  apply resolve_counterpart_wrote_nothing in E0 as [Ho0 He0].
  case_decide.
  - destruct (NewRange git_proc _ ref w0) as [[r|err] w1] eqn:E1; [|by intros [=]].
    pose proof (issued_silent _ _ _ (NewRange_issued git_proc _ _ _ _ _ E1)) as [Ho1 He1].
    destruct (IsIdentical r); [by intros [=]|].
    destruct (IsAncestor git_proc r w1) as [anc w2] eqn:E2.
    apply IsAncestor_issued, issued_silent in E2 as [Ho2 He2].
    destruct anc.
    + intros ([from [[Hv|Hv] Hlen]] & Ho & He & Hlast)%apply_verdict_panics;
        [|done]. injection Hv as <-.
      split; [by exists ref, r, w0, w1|]. split; [congruence|]. split; [congruence|done].
    + intros ([from [[Hv|Hv] Hlen]] & _)%apply_verdict_panics; done.
  - destruct gone; [|by intros [=]].
    destruct (NewRange git_proc _ (defaultRef e) w0) as [[r|err] w1] eqn:E1;
      [|by intros [=]].
    pose proof (issued_silent _ _ _ (NewRange_issued git_proc _ _ _ _ _ E1)) as [Ho1 He1].
    destruct (IsAncestor git_proc r w1) as [anc w2] eqn:E2.
    apply IsAncestor_issued, issued_silent in E2 as [Ho2 He2].
    destruct (if negb anc then _ else _) as [sd w3] eqn:E3.
    assert (out w3 = out w2 /\ errout w3 = errout w2) as [Ho3 He3].
    { destruct anc; simpl in E3.
      - by injection E3 as _ <-.
      - by apply isSquashMerged_wrote_nothing in E3. }
    destruct sd.
    + intros ([from [[Hv|Hv] Hlen]] & Ho & He & Hlast)%apply_verdict_panics;
        [done|]. injection Hv as <-.
      split; [by exists (defaultRef e), r, w0, w1|].
      split; [congruence|]. split; [congruence|done].
    + intros ([from [[Hv|Hv] Hlen]] & _)%apply_verdict_panics; done.
Qed.

End Slice.

(** ** Branches only move forward *)

Lemma distinct_NoDup (l : list string) : distinct l = true -> NoDup l.
Proof.
  induction l as [|x l IH]; [constructor|]. simpl.
  intros [Hx Hl]%andb_true_iff. constructor; [|by apply IH].
  intros Hin. apply negb_true_iff in Hx.
  assert (existsb (String.eqb x) l = true); [|congruence].
  apply existsb_exists. exists x. split; [by apply list_elem_of_In|].
  apply String.eqb_refl.
Qed.

Lemma refs_ok_fetch (s : repo) (r : string) :
  refs_ok s = true -> served_ok s = true ->
  refs_ok (with_tracking s (fetched s r)) = true.
Proof.
  unfold refs_ok, served_ok.
  intros [[Hh Ht]%andb_true_iff Hc]%andb_true_iff Hs. simpl.
  rewrite Hh, Hc, andb_true_r. simpl.
  unfold fetched. rewrite forallb_app. apply andb_true_iff. split.
  - destruct (assoc r (served s)) as [bs|] eqn:E; [|done]. simpl.
    pose proof (forallb_assoc _ _ _ _ Hs E) as Hbs. simpl in Hbs.
    rewrite forallb_forall in Hbs. apply forallb_forall.
    intros x (y & <- & Hy)%in_map_iff. simpl. by apply Hbs.
  - apply forallb_forall. intros x [Hx _]%filter_In.
    rewrite forallb_forall in Ht. by apply Ht.
Qed.

Lemma refs_ok_set_head (s : repo) (b c : string) :
  refs_ok s = true -> has_key c (commits s) = true ->
  refs_ok (with_heads s (set_key b c (heads s))) = true.
Proof.
  unfold refs_ok. intros [[Hh Ht]%andb_true_iff Hc]%andb_true_iff Hk. simpl.
  rewrite Ht, Hc, !andb_true_r. by apply forallb_set_key.
Qed.

Lemma refs_ok_without_branch (s : repo) (h : option string) (b : string) :
  refs_ok s = true -> refs_ok (without_branch (with_HEAD s h) b) = true.
Proof.
  unfold refs_ok. intros [[Hh Ht]%andb_true_iff Hc]%andb_true_iff. simpl.
  rewrite Ht, Hc, !andb_true_r. by apply forallb_remove_key.
Qed.

(** What a fast-forward decision rests on. *)
Lemma m_decision_fast_forward (e : env) (s : repo) (b ref from : string) :
  names_ok s = true -> refs_ok s = true ->
  m_decision e s b = Decided ref (FastForward from) ->
  exists c, assoc b (heads s) = Some from /\ resolve s ref = Some c
            /\ is_ancestor (commits s) from c = true.
Proof.
  intros Hok Hrefs. pose proof Hok as [_ _ _ _ _ Hc _]%names_ok_spec.
  unfold m_decision.
  destruct (m_counterpart e s b) as [ref0 gone] eqn:Ecp. case_decide as Hne.
  - destruct (m_range s _ ref0) as [r|err] eqn:Er; [|done].
    destruct (IsIdentical r); [done|].
    destruct (m_ancestor s r) eqn:Ea; [|done].
    intros [= <- <-]. destruct (m_range_hex _ _ _ _ Hok Er) as (Hl & Hr & _).
    exists (B r). rewrite resolve_head in Hl by done. split; [done|]. split; [done|].
    unfold m_ancestor in Ea.
    destruct (resolve_refs_ok _ _ _ Hrefs Hr) as [HB _].
    assert (HA : has_key (A r) (commits s) = true).
    { unfold refs_ok in Hrefs.
      apply andb_true_iff in Hrefs as [[Hh _]%andb_true_iff _].
      by apply (forallb_assoc _ _ _ _ Hh Hl). }
    by rewrite !resolve_commit in Ea by done.
  - destruct gone; [|done].
    destruct (m_range s _ (defaultRef e)) as [r|err]; [|done].
    by destruct (_ || _).
Qed.

(** One completed iteration leaves its branch where it was, moves it to a
    descendant, or deletes it, and keeps the references sound. *)
Lemma model_step_forward (e : env) (cb cb' b : string) (w w' : world repo) :
  names_ok (backend w) = true -> refs_ok (backend w) = true ->
  cb = cur (backend w) ->
  sync_branch git e cb b w = (Continue cb', w') ->
  refs_ok (backend w') = true
  /\ forall x, assoc b (heads (backend w)) = Some x ->
       assoc b (heads (backend w')) = None
       \/ exists y, assoc b (heads (backend w')) = Some y
                    /\ is_ancestor (commits (backend w)) x y = true.
Proof.
  intros Hok Hrefs Hcb. destruct (model_sync_branch e cb b w Hok) as (w1 & Hq & ->).
  assert (Hb1 : backend w1 = backend w) by apply Hq.
  assert (Hsame : forall w2, backend w2 = backend w ->
            refs_ok (backend w2) = true
            /\ forall x, assoc b (heads (backend w)) = Some x ->
                 assoc b (heads (backend w2)) = None
                 \/ exists y, assoc b (heads (backend w2)) = Some y
                              /\ is_ancestor (commits (backend w)) x y = true).
  { intros w2 ->. split; [done|]. intros x Hx. right. exists x. split; [done|].
    apply is_ancestor_refl. unfold refs_ok in Hrefs.
    apply andb_true_iff in Hrefs as [[Hh _]%andb_true_iff _].
    by apply (forallb_assoc _ _ _ _ Hh Hx). }
  destruct (m_decision e (backend w) b) as [|err|ref v] eqn:Ed.
  - intros [= <- <-]. by apply Hsame.
  - done.
  - destruct v as [|from| |from|].
    + destruct (model_apply_quiet e cb b ref UpToDate w1 I) as (w2 & -> & Hq2).
      intros [= <- <-]. apply Hsame. destruct Hq2 as [-> _]. done.
    + intros H. apply model_apply_fast_forward in H as (c & Hc & Hs' & ->);
        [|by rewrite Hb1].
      rewrite Hb1 in Hc, Hs'. rewrite Hs'.
      destruct (m_decision_fast_forward _ _ _ _ _ Hok Hrefs Ed) as (c' & Hfrom & Hc' & Hanc).
      assert (c' = c) as -> by congruence.
      destruct (resolve_refs_ok _ _ _ Hrefs Hc) as [Hkc _].
      split; [by apply refs_ok_set_head|].
      intros x Hx. right. exists c. simpl. rewrite assoc_set_key_eq.
      split; [done|]. congruence.
    + destruct (model_apply_quiet e cb b ref UnpushedWarning w1 I) as (w2 & -> & Hq2).
      intros [= <- <-]. apply Hsame. destruct Hq2 as [-> _]. done.
    + intros H. apply model_apply_deleted in H as (h & Hs' & -> & Hh);
        [|by rewrite Hb1].
      rewrite Hb1 in Hs'. rewrite Hs'.
      split; [by apply refs_ok_without_branch|].
      intros x Hx. left. simpl. apply assoc_remove_key_eq.
    + destruct (model_apply_quiet e cb b ref NotMergedWarning w1 I) as (w2 & -> & Hq2).
      intros [= <- <-]. apply Hsame. destruct Hq2 as [-> _]. done.
Qed.



(** ** Only merged branches are deleted *)

(** What a decision to delete rests on. *)
Lemma m_decision_deleted (e : env) (s : repo) (b ref from : string) :
  names_ok s = true -> refs_ok s = true ->
  m_decision e s b = Decided ref (Deleted from) ->
  tracked_remote (branchRemotes e) b = remote e
  /\ upstream s b = None
  /\ assoc b (heads s) = Some from
  /\ exists d, resolve s (defaultRef e) = Some d
               /\ (is_ancestor (commits s) from d = true
                   \/ m_squashed s ("refs/heads/" +:+ b) (defaultRef e) b = true).
Proof.
  intros Hok Hrefs. pose proof Hok as [_ _ _ _ _ Hc _]%names_ok_spec.
  unfold m_decision.
  destruct (m_counterpart e s b) as [ref0 gone] eqn:Ecp. case_decide as Hne.
  - destruct (m_range s _ ref0) as [r|err] eqn:Er; [|done].
    destruct (IsIdentical r); [done|]. by destruct (m_ancestor s r).
  - destruct gone; [|done].
    destruct (m_range s _ (defaultRef e)) as [r|err] eqn:Er; [|done].
    destruct (m_ancestor s r || m_squashed s _ _ b) eqn:Ed; [|done].
    intros [= <- <-]. destruct (m_range_hex _ _ _ _ Hok Er) as (Hl & Hr & _).
    rewrite resolve_head in Hl by done.
    unfold m_counterpart in Ecp. case_decide as Ht.
    2:{ destruct (has_key _ (tracking s)); by injection Ecp. }
    split; [done|]. split; [by destruct (upstream s b)|]. split; [done|].
    exists (B r). split; [done|].
    apply orb_true_iff in Ed as [Ea|Es]; [left|by right].
    unfold m_ancestor in Ea.
    destruct (resolve_refs_ok _ _ _ Hrefs Hr) as [HB _].
    assert (HA : has_key (A r) (commits s) = true).
    { unfold refs_ok in Hrefs.
      apply andb_true_iff in Hrefs as [[Hh _]%andb_true_iff _].
      by apply (forallb_assoc _ _ _ _ Hh Hl). }
    by rewrite !resolve_commit in Ea by done.
Qed.

(** A completed iteration after which its branch is gone had decided to
    delete it. *)
Lemma model_step_deleted (e : env) (cb cb' b x : string) (w w' : world repo) :
  names_ok (backend w) = true -> refs_ok (backend w) = true ->
  cb = cur (backend w) ->
  sync_branch git e cb b w = (Continue cb', w') ->
  assoc b (heads (backend w)) = Some x ->
  assoc b (heads (backend w')) = None ->
  exists ref, m_decision e (backend w) b = Decided ref (Deleted x).
Proof.
  intros Hok Hrefs Hcb Hstep Hx Hnone.
  destruct (model_sync_branch e cb b w Hok) as (w1 & Hq & Heq).
  rewrite Heq in Hstep.
  assert (Hb1 : backend w1 = backend w) by apply Hq.
  destruct (m_decision e (backend w) b) as [|err|ref v] eqn:Ed.
  - injection Hstep as <- <-. congruence.
  - done.
  - destruct v as [|from| |from|].
    + destruct (model_apply_quiet e cb b ref UpToDate w1 I) as (w2 & Hw2 & Hq2).
      rewrite Hw2 in Hstep. injection Hstep as <- <-. destruct Hq2 as [Hq2 _]. congruence.
    + apply model_apply_fast_forward in Hstep as (c & Hc & Hs' & ->);
        [|by rewrite Hb1].
      rewrite Hs' in Hnone. simpl in Hnone. by rewrite assoc_set_key_eq in Hnone.
    + destruct (model_apply_quiet e cb b ref UnpushedWarning w1 I) as (w2 & Hw2 & Hq2).
      rewrite Hw2 in Hstep. injection Hstep as <- <-. destruct Hq2 as [Hq2 _]. congruence.
    + destruct (m_decision_deleted _ _ _ _ _ Hok Hrefs Ed) as (_ & _ & Hfrom & _).
      exists ref. congruence.
    + destruct (model_apply_quiet e cb b ref NotMergedWarning w1 I) as (w2 & Hw2 & Hq2).
      rewrite Hw2 in Hstep. injection Hstep as <- <-. destruct Hq2 as [Hq2 _]. congruence.
Qed.

Lemma loop_deleted (e : env) (cb cb' : string) (bs : list string) (w w' : world repo) :
  runs_through git e cb w bs cb' w' ->
  (exists r, defaultRef e = "refs/remotes/" +:+ r) ->
  names_ok (backend w) = true -> refs_ok (backend w) = true ->
  cb = cur (backend w) -> NoDup bs ->
  forall b x, assoc b (heads (backend w)) = Some x ->
    assoc b (heads (backend w')) = None ->
    exists ref, m_decision e (backend w) b = Decided ref (Deleted x).
Proof.
  intros Hrun Hdef.
  induction Hrun as [cb w|cb cb1 cb2 br rest w w1 w2 Hstep Hrest IH];
    intros Hok Hrefs Hcb Hnd b x Hx Hnone; [congruence|].
  apply NoDup_cons in Hnd as [Hnin Hnd].
  destruct (model_step e cb cb1 br w w1 Hok Hcb Hstep)
    as ([Hok1 Hb1 Hh1 Hk1 Hc1] & Hcb1 & _).
  destruct (model_step_forward e cb cb1 br w w1 Hok Hrefs Hcb Hstep) as [Hrefs1 _].
  destruct (loop_settles e cb1 cb2 rest w1 w2 Hrest Hdef Hok1 Hcb1)
    as (_ & _ & _ & Hh2 & Hk2 & _).
  destruct (decide (b = br)) as [->|Hne].
  - apply (model_step_deleted e cb cb1 br x w w1); try done.
    rewrite <- Hh2; done.
  - destruct (IH Hok1 Hrefs1 Hcb1 Hnd b x) as (ref & Hd); [by rewrite Hh1|done|].
    exists ref. rewrite <- Hd. symmetry.
    apply (m_decision_frame e e (backend w) (backend w1) b); try done.
    + by apply Hh1.
    + apply Hc1. by left.
Qed.

(** A completed run deletes only merged branches: a branch that is gone
    after the run was configured to track the selected remote, its upstream
    did not exist once the fetch was over, and its commit is an ancestor of
    the commit of the default branch on the remote, or else the detector
    answers true for it in the repository as the fetch left it. *)
Theorem sync_deletes_only_merged_branches (useColor : bool) (w0 w1 : world repo)
    (b x : string) :
  names_ok (backend w0) = true ->
  refs_ok (backend w0) = true ->
  served_ok (backend w0) = true ->
  sync git useColor w0 = (Returned None, w1) ->
  assoc b (heads (backend w0)) = Some x ->
  assoc b (heads (backend w1)) = None ->
  exists r d,
    (MainRemote git w0).1 = Ok r
    /\ let s1 := with_tracking (backend w0) (fetched (backend w0) r) in
       let target := "refs/remotes/" +:+ r +:+ "/" +:+ (DefaultBranch git r w0).1 in
       config_remote (backend w0) b = r
       /\ upstream s1 b = None
       /\ assoc target (tracking s1) = Some d
       /\ (is_ancestor (commits (backend w0)) x d = true
           \/ (isSquashMerged git ("refs/heads/" +:+ b) target b (start s1)).1 = true).
Proof.
  intros Hok0 Hrefs0 Hserved Hrun1 Hx Hnone.
  unfold sync in Hrun1. unfold bind at 1 in Hrun1.
  rewrite model_MainRemote in Hrun1.
  destruct (main_remote (remotes (backend w0))) as [r|err] eqn:Er; [|done].
  unfold bind at 1 in Hrun1.
  destruct (model_DefaultBranch r (after w0 ["remote"] (backend w0))) as (wa & Ha & Hqa).
  rewrite Ha in Hrun1. cbn [backend after] in Hrun1.
  assert (Hba : backend wa = backend w0) by apply Hqa.
  unfold bind at 1 in Hrun1. rewrite model_CurrentBranch in Hrun1 by by rewrite Hba.
  unfold bind at 1 in Hrun1. rewrite model_Fetch in Hrun1. cbn [backend after] in Hrun1.
  rewrite Hba in Hrun1.
  destruct (existsb (String.eqb r) (remotes (backend w0))) eqn:Eremote; [|done].
  set (s1 := with_tracking (backend w0) (fetched (backend w0) r)) in *.
  assert (Hok1 : names_ok s1 = true) by by apply names_ok_fetch.
  assert (Hrefs1 : refs_ok s1 = true) by by apply refs_ok_fetch.
  unfold bind at 1 in Hrun1.
  match type of Hrun1 with
  | context [BranchRemotes git ?w] =>
      destruct (model_BranchRemotes w Hok1) as (m1 & Hm1 & Htr1); rewrite Hm1 in Hrun1
  end.
  cbn [backend after] in Hrun1, Htr1. unfold bind at 1 in Hrun1.
  rewrite model_LocalBranches in Hrun1 by done. cbn [backend after] in Hrun1.
  set (e1 := Env (palette_of useColor) r (default_branch (backend w0) r)
                 ("refs/remotes/" +:+ r +:+ "/" +:+ default_branch (backend w0) r) m1) in *.
  apply sync_loop_completes in Hrun1 as (cb' & Hloop1).
  assert (Hdef : exists r', defaultRef e1 = "refs/remotes/" +:+ r')
    by by exists (r +:+ "/" +:+ default_branch (backend w0) r).
  assert (Hcur : match HEAD (backend w0) with Some h => h | None => "" end
                 = cur (backend (after
                     (after (after (after wa ["symbolic-ref"; "--short"; "HEAD"] (backend w0))
                         ["fetch"; "--prune"; "--quiet"; "--progress"; r] s1)
                        ["config"; "--get-regexp"; "^branch\..*\.remote$"] s1)
                     ["branch"; "--format=%(refname:short)"] s1))).
  { cbn [backend after]. unfold cur, s1. simpl. by destruct (HEAD (backend w0)). }
  assert (Hcur' : match (match HEAD (backend w0) with
                         | Some h => Ok h
                         | None => Err (errors_New "not on any branch")
                         end) with Ok b => b | Err _ => "" end
                  = match HEAD (backend w0) with Some h => h | None => "" end)
    by by destruct (HEAD (backend w0)).
  rewrite Hcur' in Hloop1.
  destruct (loop_deleted _ _ _ _ _ _ Hloop1 Hdef Hok1 Hrefs1 Hcur) with (b := b) (x := x)
    as (ref & Hd); try done.
  { cbn [backend after]. apply distinct_NoDup.
    by pose proof Hok1 as [Hd _ _ _ _ _ _]%names_ok_spec. }
  cbn [backend after] in Hd.
  destruct (m_decision_deleted _ _ _ _ _ Hok1 Hrefs1 Hd)
    as (Htrack & Hup & _ & d & Hres & Hmerged).
  exists r, d. rewrite model_MainRemote. simpl. split; [done|].
  destruct (model_DefaultBranch r w0) as (wd & Hwd & _). rewrite Hwd. cbn [fst].
  cbv zeta. fold s1.
  simpl in Htrack. rewrite Htr1 in Htrack.
  pose proof Hok1 as [_ _ _ _ _ Hcs _]%names_ok_spec.
  simpl defaultRef in Hres, Hmerged.
  replace ("refs/remotes/" +:+ r +:+ "/" +:+ default_branch (backend w0) r)
    with ("refs/remotes/" +:+ (r +:+ "/" +:+ default_branch (backend w0) r)) in Hres
    by done.
  rewrite resolve_remote in Hres by done.
  split; [done|]. split; [done|]. split; [done|].
  destruct Hmerged as [Hanc|Hsq]; [by left|right].
  destruct (model_isSquashMerged ("refs/heads/" +:+ b)
              ("refs/remotes/" +:+ r +:+ "/" +:+ default_branch (backend w0) r) b
              (start s1)) as (w2 & -> & _).
  done.
Qed.

(** * Concrete runs *)

Lemma MainRemote_falls_back_to_first_witness :
  (MainRemote table_git (start two_remotes)).1 = Ok "fork".
Proof.
  apply (MainRemote_falls_back_to_first table_git (start two_remotes)
           (prints ("fork" +:+ endl +:+ "mirror" +:+ endl)) two_remotes eq_refl)
    with (rest := ["mirror"]).
  - reflexivity.
  - reflexivity.
  - vm_compute. intros H. repeat (apply elem_of_cons in H as [H|H]; [discriminate|]). inversion H.
  - vm_compute. intros H. repeat (apply elem_of_cons in H as [H|H]; [discriminate|]). inversion H.
  - vm_compute. intros H. repeat (apply elem_of_cons in H as [H|H]; [discriminate|]). inversion H.
Defined.

Example sync_merged_feature :
  let '(o, w) := sync table_git false (start merged_feature) in
  o = Returned None /\
  out w = ["Deleted branch feature (was 7f8e9d0)." +:+ endl;
           "Updated branch main (was 0c0ffee)." +:+ endl] /\
  errout w = [] /\
  drop 6 (calls w) =
    [ ["rev-parse"; "--symbolic-full-name"; "feature@{upstream}"];
      ["rev-parse"; "--quiet"; "refs/heads/feature"; "refs/remotes/origin/main"];
      ["merge-base"; "--is-ancestor"; sha_feature; sha_main];
      ["checkout"; "--quiet"; "main"];
      ["branch"; "-D"; "feature"];
      ["rev-parse"; "--symbolic-full-name"; "main@{upstream}"];
      ["rev-parse"; "--quiet"; "refs/heads/main"; "refs/remotes/origin/main"];
      ["merge-base"; "--is-ancestor"; sha_old; sha_main];
      ["merge"; "--ff-only"; "--quiet"; "refs/remotes/origin/main"] ].
Proof. vm_compute. done. Qed.

Example sync_squashed_detached :
  let '(o, w) := sync table_git false (start squashed_detached) in
  o = Returned None /\
  out w = ["Deleted branch feature (was 7f8e9d0)." +:+ endl;
           "Updated branch main (was 0c0ffee)." +:+ endl] /\
  errout w = [].
Proof. vm_compute. done. Qed.

Lemma isSquashMerged_true_iff_witness :
  (isSquashMerged table_git "refs/heads/feature" "refs/remotes/origin/main" "feature"
     (start squashed_detached)).1 = true.
Proof.
  apply (isSquashMerged_true_iff table_git).
  do 8 eexists. repeat split; reflexivity.
Defined.

Lemma gone_branch_verdict_witness :
  exists w0 w2,
    decide_gone table_git "refs/heads/feature" "refs/remotes/origin/main" "feature" w0
    = (Ok (Deleted sha_feature), w2).
Proof.
  do 2 eexists.
  eapply (gone_branch_verdict table_git origin_env "feature" "feature"
            (start merged_feature) _ _ _ exit_status_1 (mkRange sha_feature sha_main) true).
  - reflexivity.
  - reflexivity.
  - reflexivity.
  - reflexivity.
  - reflexivity.
Defined.

Lemma resolved_branch_verdict_witness :
  exists w0 w2,
    decide_resolved table_git "refs/heads/main" "refs/remotes/origin/main" w0
    = (Ok (FastForward sha_old), w2).
Proof.
  destruct (resolved_branch_verdict table_git origin_env "feature" "main"
              "refs/remotes/origin/main" "refs/remotes/origin/main" false
              (start merged_feature) _ _ (mkRange sha_old sha_main)
              eq_refl eq_refl eq_refl) as [_ H].
  destruct (H ltac:(discriminate) true _ eq_refl) as [Hd _].
  do 2 eexists. exact Hd.
Defined.

(** C3 as the specification words it fails: the branch has an explicit
    tracking configuration, which names another remote, so rules 1 and 2 do
    not apply and rule 3 makes it CounterpartAbsent; the program compares it
    with the same-named reference of the selected remote. *)
Lemma explicit_tracking_elsewhere_is_matched_by_name :
  let p := (resolve_counterpart table_git fork_env "feature" (start tracks_fork)).1 in
  branchRemotes fork_env !! "feature" = Some "fork" /\
  spec_counterpart (remote fork_env) (branchRemotes fork_env !! "feature")
    (UpstreamRef table_git "feature" (start tracks_fork)).1
    (Some "refs/remotes/origin/feature") = CounterpartAbsent /\
  counterpart_of p.1 p.2 = CounterpartResolved "refs/remotes/origin/feature".
Proof. vm_compute. done. Qed.

Lemma counterpart_resolution_witness :
  exists remoteRef gone w0,
    resolve_counterpart table_git fork_env "feature" (start tracks_fork)
    = ((remoteRef, gone), w0) /\
    counterpart_of remoteRef gone = CounterpartResolved "refs/remotes/origin/feature".
Proof.
  assert (Hremote : remote fork_env <> "") by discriminate.
  destruct (proj2 (counterpart_resolution table_git fork_env "feature"
                     (start tracks_fork) Hremote)
              ltac:(vm_compute; discriminate) true _ eq_refl)
    as (remoteRef & gone & H1 & H2 & _).
  exists remoteRef, gone. eexists. split; [exact H1 | exact H2].
Defined.

Lemma mutation_dispatch_witness :
  calls (apply_verdict table_git origin_env "feature" "main" "refs/remotes/origin/main"
           (FastForward sha_old) (start merged_feature)).2
  = [["update-ref"; "refs/heads/main"; "refs/remotes/origin/main"]].
Proof.
  apply (proj1 (mutation_dispatch table_git origin_env "feature" "main"
                  "refs/remotes/origin/main" sha_old (start merged_feature))
           ltac:(discriminate)
           (apply_verdict table_git origin_env "feature" "main"
              "refs/remotes/origin/main" (FastForward sha_old)
              (start merged_feature)).1).
  by destruct (apply_verdict table_git origin_env "feature" "main"
                 "refs/remotes/origin/main" (FastForward sha_old)
                 (start merged_feature)).
Defined.

(** C6 as the specification words it fails: the checkout of main fails while
    feature is being deleted, and the error that ends the run does not
    mention feature. *)
Lemma checkout_failure_names_default_branch :
  let '(o, w) := sync table_git false (start merged_feature_stuck) in
  exists err,
    o = Returned (Some err) /\
    last (calls w) = Some ["checkout"; "--quiet"; "main"] /\
    Error err = "failed to checkout main: exit status 1" /\
    Contains (Error err) "feature" = false.
Proof. vm_compute. eexists. repeat split. Qed.

Lemma failures_end_the_run_witness :
  apply_verdict table_git origin_env "feature" "feature" "" (Deleted sha_feature)
    (start merged_feature_stuck)
  = (ReturnErr (Errorf_w "failed to checkout main: " exit_status_1),
     after (start merged_feature_stuck) ["checkout"; "--quiet"; "main"]
           merged_feature_stuck).
Proof.
  destruct (failures_end_the_run table_git origin_env "feature" "feature")
    as (_ & _ & _ & _ & _ & H & _).
  apply (H (start merged_feature_stuck) "" sha_feature fails merged_feature_stuck
           exit_status_1).
  - reflexivity.
  - reflexivity.
  - reflexivity.
Defined.

Lemma detached_head_skips_checkout_path_witness :
  let w1 := (MainRemote table_git (start squashed_detached)).2 in
  let w2 := (DefaultBranch table_git "origin" w1).2 in
  let w3 := (CurrentBranch table_git w2).2 in
  let w4 := (Fetch table_git "origin" w3).2 in
  let m := (BranchRemotes table_git w4).1 in
  let w5 := (BranchRemotes table_git w4).2 in
  let w6 := (LocalBranches table_git w5).2 in
  let e := Env (palette_of false) "origin" "main"
               ("refs/remotes/" +:+ "origin" +:+ "/" +:+ "main") m in
  let wa := (resolve_counterpart table_git e "feature" w6).2 in
  let wb := (decide_gone table_git "refs/heads/feature" (defaultRef e) "feature" wa).2 in
  let w7 := (sync_branch table_git e "" "feature" w6).2 in
  let wc := (resolve_counterpart table_git e "main" w7).2 in
  let wd := (decide_resolved table_git "refs/heads/main" "refs/remotes/origin/main" wc).2 in
  off_checkout_path w3 (sync table_git false (start squashed_detached)).2
  /\ sync table_git false (start squashed_detached)
     = sync_loop table_git e "" ["feature"; "main"] w6
  /\ (exists f w8, sync_branch table_git e "" "feature" w6 = (f, w8)
                   /\ calls w8 = calls wb ++ [["branch"; "-D"; "feature"]])
  /\ (exists f w8, sync_branch table_git e "" "main" w7 = (f, w8)
                   /\ calls w8 = calls wd ++ [["update-ref"; "refs/heads/main";
                                               "refs/remotes/origin/main"]]).
Proof.
  intros w1 w2 w3 w4 m w5 w6 e wa wb w7 wc wd.
  destruct (detached_head_skips_checkout_path table_git false "origin" "main"
              (errors_New "not on any branch")
              (start squashed_detached) w1 w2 w3
              ltac:(vm_compute; reflexivity) ltac:(vm_compute; reflexivity)
              ltac:(vm_compute; reflexivity)
              ltac:(intros w4' m' w5' branches w6' Hf Hm Hl;
                    vm_compute in Hf; injection Hf as <-;
                    vm_compute in Hm; injection Hm as _ <-;
                    vm_compute in Hl; injection Hl as <- _;
                    intros H;
                    repeat (apply elem_of_cons in H as [H|H]; [discriminate|]);
                    inversion H))
    as (Hoff & _ & Hrun).
  destruct (Hrun w4 m w5 ["feature"; "main"] w6
              ltac:(vm_compute; reflexivity) ltac:(vm_compute; reflexivity)
              ltac:(vm_compute; reflexivity)) as (Hsync & Hloop).
  split.
  { apply (Hoff (sync table_git false (start squashed_detached)).1).
    by destruct (sync table_git false (start squashed_detached)). }
  split; [exact Hsync|]. split.
  - destruct (Hloop [] "feature" ["main"] "" w6 eq_refl (runs_nil table_git e "" w6))
      as (_ & _ & _ & Hgone).
    apply (Hgone wa sha_feature wb); vm_compute; reflexivity.
  - destruct (Hloop ["feature"] "main" [] "" w7 eq_refl) as (_ & _ & Hres & _).
    { apply (runs_cons table_git e "" "" "" "feature" [] w6 w7 w7).
      - vm_compute. reflexivity.
      - apply runs_nil. }
    apply (Hres "refs/remotes/origin/main" false wc sha_old wd).
    + vm_compute. reflexivity.
    + discriminate.
    + vm_compute. reflexivity.
Defined.

Lemma Range_identity_and_ancestry_witness :
  (exists r w', NewRange git "refs/heads/main" "refs/remotes/origin/main" (start diverged) = (Ok r, w')
     /\ IsIdentical r = true /\ (IsAncestor git r w').1 = true)
  /\ (exists r w', NewRange git "refs/remotes/origin/topic" "refs/heads/topic" (start diverged) = (Ok r, w')
     /\ IsIdentical r = false /\ (IsAncestor git r w').1 = true
     /\ exists r' w'', NewRange git "refs/heads/topic" "refs/remotes/origin/topic" w' = (Ok r', w'')
          /\ (IsAncestor git r' w'').1 = false).
Proof.
  split.
  - do 2 eexists. split; [reflexivity|].
    apply (Range_identity_and_ancestry "refs/heads/main" "refs/remotes/origin/main"
             (start diverged) _ _ eq_refl eq_refl eq_refl).
    reflexivity.
  - do 2 eexists. split; [reflexivity|].
    destruct (proj2 (Range_identity_and_ancestry "refs/remotes/origin/topic"
                       "refs/heads/topic" (start diverged) _ _ eq_refl eq_refl eq_refl))
      as (Hi & Ha & Hrev).
    { apply tc_once. eexists. split; [reflexivity|]. by left. }
    split; [exact Hi|]. split; [exact Ha|].
    destruct Hrev as (r' & w'' & Hn & _ & Hf).
    exists r', w''. split; [exact Hn | exact Hf].
Defined.

(** C8 as the specification words it fails: topic has commits of its own while
    its upstream moved on.  The first run completes and warns about topic, and
    the second run, on the repository as the first left it, warns about topic
    again: the branch is neither up to date nor absent. *)
Lemma second_run_repeats_warning :
  (sync git false (start diverged)).1 = Returned None /\
  (sync git false diverged_synced).1 = Returned None /\
  errout diverged_synced = ["warning: 'topic' seems to contain unpushed commits" +:+ endl] /\
  errout (sync git false diverged_synced).2
  = errout diverged_synced ++ ["warning: 'topic' seems to contain unpushed commits" +:+ endl] /\
  has_key "topic" (heads (backend (sync git false diverged_synced).2)) = true.
Proof. vm_compute. done. Qed.

Lemma second_run_changes_nothing_witness :
  exists w2, sync git false diverged_synced = (Returned None, w2) /\ quiet diverged_synced w2.
Proof.
  apply (second_run_changes_nothing false (start diverged) diverged_synced).
  - vm_compute. reflexivity.
  - vm_compute. reflexivity.
  - intros r Hr. vm_compute in Hr. injection Hr as <-. vm_compute. reflexivity.
Defined.

(** The default branch is chosen before the fetch.  Where the remote has no
    HEAD reference and the fetch brings in a main beside master, the second
    run measures the gone branch against another default branch. *)
Example default_branch_may_shift :
  names_ok unset_head = true /\
  (sync git false (start unset_head)).1 = Returned None /\
  out unset_head_synced = [] /\
  (sync git false unset_head_synced).1 = Returned None /\
  out (sync git false unset_head_synced).2 = ["Deleted branch topic (was 2000000)." +:+ endl].
Proof. vm_compute. done. Qed.

Lemma parseArgs_first_offender_witness :
  parseArgs ["-v"; "--help"; "--bogus"] = (false, Some errHelp).
Proof.
  apply (parseArgs_first_offender ["-v"] ["--bogus"] "--help").
  - constructor; [by right | constructor].
  - discriminate.
  - discriminate.
Defined.

Lemma LocalBranches_reads_the_listing_witness :
  LocalBranches table_git (start origin_answers)
  = (Ok ["feature"; "main"],
     after (start origin_answers) ["branch"; "--format=%(refname:short)"] origin_answers).
Proof.
  apply (LocalBranches_reads_the_listing table_git ["feature"; "main"]).
  - by repeat constructor.
  - reflexivity.
Defined.

Lemma BranchRemotes_last_entry_wins_witness :
  tracked_remote (BranchRemotes table_git (start origin_answers)).1 "main" = "origin"
  /\ tracked_remote (BranchRemotes table_git (start origin_answers)).1 "topic" = "".
Proof.
  destruct (BranchRemotes_last_entry_wins table_git (start origin_answers)
              (prints ("branch.feature.remote origin" +:+ endl +:+
                       "branch.main.remote origin" +:+ endl))
              origin_answers eq_refl) as [_ H].
  split.
  - apply (H [("feature", ("origin", "")); ("main", ("origin", ""))]
             eq_refl eq_refl ltac:(by repeat constructor) "main").
  - apply (H [("feature", ("origin", "")); ("main", ("origin", ""))]
             eq_refl eq_refl ltac:(by repeat constructor) "topic").
Defined.

Lemma DefaultBranch_names_a_branch_witness :
  DefaultBranch table_git "origin" (start origin_answers)
  = ("main", after (start origin_answers)
               ["symbolic-ref"; "--quiet"; "refs/remotes/origin/HEAD"] origin_answers).
Proof.
  apply (proj1 (DefaultBranch_names_a_branch table_git "origin" (start origin_answers)
                  (prints ("refs/remotes/origin/main" +:+ endl)) origin_answers eq_refl)
           "main" 1); reflexivity.
Defined.

Lemma sync_fails_before_the_loop_witness :
  sync table_git false (start two_remotes)
  = (Returned (Some (Errorf_w "fetch failed: " exit_status_1)),
     (Fetch table_git "fork"
        (CurrentBranch table_git
           (DefaultBranch table_git "fork"
              (MainRemote table_git (start two_remotes)).2).2).2).2).
Proof.
  destruct (sync_fails_before_the_loop table_git false (start two_remotes))
    as (_ & H & _).
  apply (H "fork" _ "main" _ (Err (errors_New "not on any branch")) _ exit_status_1 _
           eq_refl eq_refl eq_refl eq_refl).
Defined.

Lemma untracked_branch_is_never_removed_witness :
  ran_only (fun c => negb (removes c)) (start tracks_fork)
    (sync_branch table_git fork_env "" "feature" (start tracks_fork)).2.
Proof.
  apply (untracked_branch_is_never_removed table_git fork_env "" "feature"
           (start tracks_fork) _
           (sync_branch table_git fork_env "" "feature" (start tracks_fork)).1).
  - vm_compute. discriminate.
  - by destruct (sync_branch table_git fork_env "" "feature" (start tracks_fork)).
Defined.

Lemma isSquashMerged_only_asks_witness :
  exists cmds,
    issued (start squashed_detached)
      (isSquashMerged table_git "refs/heads/feature" "refs/remotes/origin/main" "feature"
         (start squashed_detached)).2 cmds
    /\ List.length cmds = 4.
Proof.
  destruct (isSquashMerged_only_asks table_git "refs/heads/feature"
              "refs/remotes/origin/main" "feature" (start squashed_detached) _ true
              ltac:(vm_compute; reflexivity)) as (cmds & Hi & _ & _ & Hlen).
  exists cmds. split; [exact Hi | by apply Hlen].
Defined.

Lemma panic_only_on_short_names_witness :
  exists args,
    last (calls (sync_branch table_git origin_env "main" "topic" (start short_names)).2)
    = Some args /\ mutating args = true.
Proof.
  apply (panic_only_on_short_names table_git origin_env "main" "topic"
           (start short_names) _ ltac:(vm_compute; reflexivity)).
Defined.


Lemma sync_deletes_only_merged_branches_witness :
  exists r d,
    (MainRemote git (start merged_topic)).1 = Ok r
    /\ let s1 := with_tracking merged_topic (fetched merged_topic r) in
       let target := "refs/remotes/" +:+ r +:+ "/"
                     +:+ (DefaultBranch git r (start merged_topic)).1 in
       config_remote merged_topic "topic" = r
       /\ upstream s1 "topic" = None
       /\ assoc target (tracking s1) = Some d
       /\ (is_ancestor (commits merged_topic) c_root d = true
           \/ (isSquashMerged git "refs/heads/topic" target "topic" (start s1)).1 = true).
Proof.
  apply (sync_deletes_only_merged_branches false (start merged_topic) merged_topic_synced
           "topic" c_root); vm_compute; reflexivity.
Defined.
